(** * Factor-Crowding: drawdown / crash detection and crowding proxies

    A shallow embedding of [factor_crowding/analysis/drawdowns.py]
    ([DrawdownAnalyzer]) and [factor_crowding/features/crowding.py]
    ([CrowdingIndexBuilder]), together with the parts of pandas, numpy and
    scipy.stats.mstats those two files call.

    Numbers.  The Python code computes on IEEE-754 doubles.  Here a double
    is a value of [float]: NaN (pandas' missing value), the two infinities,
    or a finite value carried as an exact rational.  Rounding, overflow
    to an infinity, underflow to zero and the sign of zero are not
    modelled; everything else (NaN propagation, comparisons with NaN being
    false, division by zero giving an infinity or NaN instead of raising)
    follows numpy.  General statements are therefore made about what does
    not hinge on the last bit or on the range of a double: which entries
    are missing, order, bounds that rounding preserves, and what is raised.

    Exceptions are values of [result]; the log written through
    [logger.info] / [logger.warning] is an explicit list of records in the
    crowding module, where statements are made about it. *)

From Stdlib Require Import String Ascii DecimalString ZArith QArith Qabs Qround Bool Lia Lqa Arith List Permutation Sorted.
Import ListNotations.

Set Implicit Arguments.

(* ================================================================== *)
(** * Exceptions *)

Inductive exn : Type :=
| ValueError (msg : string)
| IndexError (msg : string)
| KeyError (msg : string)
| InvalidIndexError (msg : string)
| ZeroDivisionError (msg : string).

Inductive result (A : Type) : Type :=
| Ok (a : A)
| Raise (e : exn).

Arguments Ok {A} a.
Arguments Raise {A} e.

Definition rbind {A B : Type} (r : result A) (k : A -> result B) : result B :=
  match r with
  | Ok a => k a
  | Raise e => Raise e
  end.

Declare Scope result_scope.
Delimit Scope result_scope with result.
Notation "x <- e ;; k" := (rbind e (fun x => k))
  (at level 61, e at next level, right associativity) : result_scope.

(* ================================================================== *)
(** * Doubles *)

Inductive float : Type :=
| NaN
| NInf
| PInf
| Fin (q : Q).

Definition Qlt_bool (a b : Q) : bool := negb (Qle_bool b a).

Definition isnan (x : float) : bool :=
  match x with NaN => true | _ => false end.

Definition isinf (x : float) : bool :=
  match x with NInf | PInf => true | _ => false end.

Definition notna (x : float) : bool := negb (isnan x).

Definition fopp (x : float) : float :=
  match x with
  | NaN => NaN
  | NInf => PInf
  | PInf => NInf
  | Fin q => Fin (- q)
  end.

Definition fadd (x y : float) : float :=
  match x, y with
  | NaN, _ | _, NaN => NaN
  | PInf, NInf | NInf, PInf => NaN
  | PInf, _ | _, PInf => PInf
  | NInf, _ | _, NInf => NInf
  | Fin a, Fin b => Fin (a + b)
  end.

Definition fsub (x y : float) : float :=
  match x, y with
  | NaN, _ | _, NaN => NaN
  | PInf, PInf | NInf, NInf => NaN
  | PInf, _ | _, NInf => PInf
  | NInf, _ | _, PInf => NInf
  | Fin a, Fin b => Fin (a - b)
  end.

(** An infinity times a finite value: the sign decides, zero gives NaN. *)
Definition inf_times (pos : bool) (q : Q) : float :=
  match q ?= 0 with
  | Eq => NaN
  | Gt => if pos then PInf else NInf
  | Lt => if pos then NInf else PInf
  end.

Definition fmul (x y : float) : float :=
  match x, y with
  | NaN, _ | _, NaN => NaN
  | PInf, PInf | NInf, NInf => PInf
  | PInf, NInf | NInf, PInf => NInf
  | PInf, Fin q | Fin q, PInf => inf_times true q
  | NInf, Fin q | Fin q, NInf => inf_times false q
  | Fin a, Fin b => Fin (a * b)
  end.

(** numpy division: a finite value over zero is an infinity (NaN for
    0/0), nothing is raised. *)
Definition fdiv (x y : float) : float :=
  match x, y with
  | NaN, _ | _, NaN => NaN
  | (PInf | NInf), (PInf | NInf) => NaN
  | Fin _, (PInf | NInf) => Fin 0
  | PInf, Fin q => match q ?= 0 with Lt => NInf | _ => PInf end
  | NInf, Fin q => match q ?= 0 with Lt => PInf | _ => NInf end
  | Fin a, Fin b =>
      match b ?= 0 with
      | Eq => match a ?= 0 with Eq => NaN | Lt => NInf | Gt => PInf end
      | _ => Fin (a / b)
      end
  end.

(** Comparisons: false as soon as one side is NaN. *)
Definition flt (x y : float) : bool :=
  match x, y with
  | NaN, _ | _, NaN => false
  | _, NInf => false
  | PInf, _ => false
  | NInf, _ => true
  | _, PInf => true
  | Fin a, Fin b => Qlt_bool a b
  end.

Definition fle (x y : float) : bool :=
  match x, y with
  | NaN, _ | _, NaN => false
  | NInf, _ => true
  | _, PInf => true
  | _, NInf => false
  | PInf, _ => false
  | Fin a, Fin b => Qle_bool a b
  end.

Definition fge (x y : float) : bool := fle y x.

Definition feqb (x y : float) : bool :=
  match x, y with
  | NInf, NInf | PInf, PInf => true
  | Fin a, Fin b => Qeq_bool a b
  | _, _ => false
  end.

Definition fabs (x : float) : float :=
  match x with
  | NaN => NaN
  | NInf | PInf => PInf
  | Fin q => Fin (Qabs q)
  end.

Definition fone : float := Fin 1.
Definition fzero : float := Fin 0.
Definition fhundred : float := Fin 100.

(* ================================================================== *)
(** * pandas Series *)

(** A Series is its rows in order: index label (a timestamp) and value.
    [s.index[i]] and [s.iloc[i]] are the two components of row [i]. *)
Definition Timestamp : Type := Z.
Definition Series : Type := list (Timestamp * float).

Definition index (s : Series) : list Timestamp := map fst s.
Definition values (s : Series) : list float := map snd s.

(** A new Series on the index of [s] (same-length value list). *)
Definition with_values (s : Series) (vs : list float) : Series :=
  combine (index s) vs.

(** [lst[i]] for a non-negative position; IndexError out of range. *)
Definition at_pos {A : Type} (l : list A) (i : nat) : result A :=
  match nth_error l i with
  | Some a => Ok a
  | None => Raise (IndexError "index out of bounds")
  end.

(** Elementwise arithmetic of two Series that carry the same index
    object (no realignment happens then). *)
Fixpoint zip_with (f : float -> float -> float) (xs ys : list float) : list float :=
  match xs, ys with
  | x :: xs', y :: ys' => f x y :: zip_with f xs' ys'
  | _, _ => []
  end.

(** [Series.cumprod()] (skipna=True): NaN entries are replaced by 1,
    numpy's cumprod runs over the filled values, and the NaN positions are
    masked again in the outcome. *)
Fixpoint np_cumprod_from (prev : float) (vs : list float) : list float :=
  match vs with
  | [] => []
  | v :: tl => let p := fmul prev v in p :: np_cumprod_from p tl
  end.

Definition np_cumprod (vs : list float) : list float :=
  match vs with
  | [] => []
  | v :: tl => v :: np_cumprod_from v tl
  end.

Definition fillna (d : float) (v : float) : float := if isnan v then d else v.

Definition cumprod (vs : list float) : list float :=
  zip_with (fun v p => if isnan v then NaN else p) vs (np_cumprod (map (fillna fone) vs)).

(** The values a rolling / expanding kernel sees: pandas turns the
    infinities into NaN first ([BaseWindow._prep_values]). *)
Definition prep_value (v : float) : float := if isinf v then NaN else v.

(** [expanding().max()]: min_periods is 1, missing observations are
    skipped; the outcome is NaN until a first observation is seen. *)
Definition max_skipna (acc v : float) : float :=
  match acc, v with
  | NaN, _ => v
  | _, NaN => acc
  | _, _ => if flt acc v then v else acc
  end.

Fixpoint expanding_max_from (acc : float) (vs : list float) : list float :=
  match vs with
  | [] => []
  | v :: tl => let m := max_skipna acc v in m :: expanding_max_from m tl
  end.

Definition expanding_max (vs : list float) : list float :=
  expanding_max_from NaN (map prep_value vs).

(** [l[a:b]] for positions within range. *)
Definition slice {A : Type} (l : list A) (a b : nat) : list A :=
  firstn (b - a) (skipn a l).

(** [Series.argmin()] (skipna=True): position and value of the first
    minimum among the non-missing entries; [None] when there is none
    (pandas raises on an empty Series). *)
Fixpoint first_min (vs : list float) : option (nat * float) :=
  match vs with
  | [] => None
  | v :: tl =>
      match first_min tl with
      | None => if isnan v then None else Some (0%nat, v)
      | Some (j, m) =>
          if isnan v then Some (S j, m)
          else if fle v m then Some (0%nat, v) else Some (S j, m)
      end
  end.

Definition argmin (vs : list float) : result nat :=
  match first_min vs with
  | Some (j, _) => Ok j
  | None => Raise (ValueError "attempt to get argmin of an empty sequence")
  end.

(** Ascending sort of non-missing values. *)
Fixpoint insert_sorted (v : float) (l : list float) : list float :=
  match l with
  | [] => [v]
  | h :: tl => if fle v h then v :: l else h :: insert_sorted v tl
  end.

Definition sort_values (l : list float) : list float :=
  fold_right insert_sorted [] l.

Definition dropna_values (l : list float) : list float := filter notna l.

Definition Qfloor_nat (q : Q) : nat := Z.to_nat (Qfloor q).

(** numpy's [_lerp]: [a + (b-a)*t], taken from the other end when
    [t >= 0.5]. *)
Definition np_lerp (a b : float) (t : Q) : float :=
  let diff_b_a := fsub b a in
  if Qle_bool (1 # 2) t
  then fsub b (fmul diff_b_a (Fin (1 - t)))
  else fadd a (fmul diff_b_a (Fin t)).

(** [np.percentile(sorted_values, 100*q, method='linear')] on a
    non-empty array. *)
Definition np_quantile_linear (sorted : list float) (q : Q) : float :=
  let n := length sorted in
  let virtual := q * inject_Z (Z.of_nat (n - 1)) in
  let previous := Qfloor_nat virtual in
  let next := Nat.min (S previous) (n - 1) in
  let gamma := virtual - inject_Z (Z.of_nat previous) in
  np_lerp (nth previous sorted NaN) (nth next sorted NaN) gamma.

Definition valid_quantile (q : float) : option Q :=
  match q with
  | Fin x => if Qle_bool 0 x && Qle_bool x 1 then Some x else None
  | _ => None
  end.

(** [Series.quantile(q)]: q is validated, missing values are dropped,
    NaN when nothing is left. *)
Definition series_quantile (vs : list float) (q : float) : result float :=
  match valid_quantile q with
  | None => Raise (ValueError "percentiles should all be in the interval [0, 1]")
  | Some x =>
      match dropna_values vs with
      | [] => Ok NaN
      | obs => Ok (np_quantile_linear (sort_values obs) x)
      end
  end.

(** One output of pandas' [roll_quantile] kernel (linear interpolation)
    over the observations of a window. *)
Definition roll_quantile_at (minp : nat) (window : list float) (q : Q) : float :=
  let obs := sort_values (dropna_values window) in
  let nobs := length obs in
  if (minp <=? nobs)%nat && negb (nobs =? 0)%nat then
    let idx_with_fraction := q * inject_Z (Z.of_nat (nobs - 1)) in
    let idx := Qfloor_nat idx_with_fraction in
    if Qeq_bool idx_with_fraction (inject_Z (Z.of_nat idx)) then nth idx obs NaN
    else
      let vlow := nth idx obs NaN in
      let vhigh := nth (S idx) obs NaN in
      fadd vlow (fmul (fsub vhigh vlow)
                      (Fin (idx_with_fraction - inject_Z (Z.of_nat idx))))
  else NaN.

(** The expanding windows of a value list: window [t] is [vs[0 : t+1]],
    as the kernels see it. *)
Definition expanding_windows (vs : list float) : list (list float) :=
  map (fun t => firstn (S t) (map prep_value vs)) (seq 0 (length vs)).

(** The same kernel when [quantile] is NaN: a window with a single
    observation gives that observation; with more, the fractional index
    is NaN and so is the interpolated value. *)
Definition roll_quantile_nan_at (minp : nat) (window : list float) : float :=
  let obs := sort_values (dropna_values window) in
  let nobs := length obs in
  if (minp <=? nobs)%nat && (nobs =? 1)%nat then nth 0%nat obs NaN else NaN.

(** pandas' [roll_quantile]: the order [quantile] is checked when the
    kernel is entered; NaN fails neither comparison and goes through. *)
Definition roll_quantile (minp : nat) (windows : list (list float)) (quantile : float)
  : result (list float) :=
  if fle quantile fzero || fge quantile fone
  then Raise (ValueError "quantile value not in [0, 1]")
  else Ok (map (fun w => match quantile with
                         | Fin q => roll_quantile_at minp w q
                         | _ => roll_quantile_nan_at minp w
                         end) windows).

(** One output of [roll_max] / [roll_min]: the largest / smallest
    observation of the window. *)
Definition roll_max_at (minp : nat) (window : list float) : float :=
  let obs := sort_values (dropna_values window) in
  let nobs := length obs in
  if (minp <=? nobs)%nat && negb (nobs =? 0)%nat then nth (nobs - 1) obs NaN else NaN.

Definition roll_min_at (minp : nat) (window : list float) : float :=
  let obs := sort_values (dropna_values window) in
  let nobs := length obs in
  if (minp <=? nobs)%nat && negb (nobs =? 0)%nat then nth 0%nat obs NaN else NaN.

(** [expanding().quantile(q)] (min_periods = 1): [q == 1.0] and
    [q == 0.0] are served by [roll_max] and [roll_min]; any other order
    goes to [roll_quantile], which is not called on an empty Series (the
    empty values are returned as they are). *)
Definition expanding_quantile (vs : list float) (q : float) : result (list float) :=
  let windows := expanding_windows vs in
  if feqb q fone then Ok (map (roll_max_at 1) windows)
  else if feqb q fzero then Ok (map (roll_min_at 1) windows)
  else match vs with
       | [] => Ok []
       | _ => roll_quantile 1 windows q
       end.

(** The fixed-length trailing windows: window [t] is
    [vs[max(0, t+1-w) : t+1]]. *)
Definition rolling_windows (w : nat) (vs : list float) : list (list float) :=
  map (fun t => slice (map prep_value vs) (S t - w) (S t)) (seq 0 (length vs)).

Definition count_obs (window : list float) : nat := length (dropna_values window).

Definition check_window (window : Z) : result nat :=
  if (window <? 0)%Z then Raise (ValueError "window must be an integer 0 or greater")
  else Ok (Z.to_nat window).

Definition fprod (l : list float) : float := fold_left fmul l fone.
Definition fsum (l : list float) : float := fold_left fadd l fzero.

(** [rolling(window).apply(f, raw=True)]: min_periods defaults to the
    window length; [f] receives the raw window. *)
Definition rolling_apply (window : Z) (f : list float -> float) (vs : list float)
  : result (list float) :=
  (w <- check_window window ;;
   Ok (map (fun win => if (w <=? count_obs win)%nat then f win else NaN)
           (rolling_windows w vs)))%result.

(* ================================================================== *)
(** * DrawdownAnalyzer: wealth, running peak, drawdown *)

Module DrawdownAnalyzer.

(** The two fields set by [__init__]. *)
Record t : Type := mk {
  crash_percentile : float;
  drawdown_threshold : float
}.

(** [(1 + returns).cumprod()] *)
Definition compute_cumulative_returns (returns : Series) : Series :=
  with_values returns (cumprod (map (fadd fone) (values returns))).

(** [cumulative_returns.expanding().max()] *)
Definition compute_running_max (cumulative_returns : Series) : Series :=
  with_values cumulative_returns (expanding_max (values cumulative_returns)).

(** [(cum_returns - running_max) / running_max] *)
Definition compute_drawdown (returns : Series) : Series :=
  let cum_returns := compute_cumulative_returns returns in
  let running_max := compute_running_max cum_returns in
  with_values returns
    (zip_with fdiv
       (zip_with fsub (values cum_returns) (values running_max))
       (values running_max)).

(** [in_drawdown = drawdown < 0] *)
Definition in_drawdown_of (drawdown : Series) : list bool :=
  map (fun v => flt v fzero) (values drawdown).

Record Episode : Type := mkEpisode {
  start_date : Timestamp;
  trough_date : Timestamp;
  end_date : Timestamp;
  depth_pct : float;
  duration_days : nat;
  start_value : float;
  trough_value : float
}.

(** The block shared by the two places that close an episode: from the
    slice [episode_dd] find the trough, take the depth there and append a
    record when [abs(depth) >= self.drawdown_threshold / 100].  The
    caller supplies what differs: the slice, the duration and the
    expression giving the end date. *)
Definition record_episode (self : t) (drawdown cum_returns : Series)
    (start_idx : nat) (episode_dd : list float) (duration : nat)
    (end_label : result Timestamp) : result (list Episode) :=
  (am <- argmin episode_dd ;;
   let trough_idx := (start_idx + am)%nat in
   depth <- at_pos (values drawdown) trough_idx ;;
   if fge (fabs depth) (fdiv (drawdown_threshold self) fhundred) then
     sd <- at_pos (index drawdown) start_idx ;;
     td <- at_pos (index drawdown) trough_idx ;;
     ed <- end_label ;;
     sv <- at_pos (values cum_returns) start_idx ;;
     tv <- at_pos (values cum_returns) trough_idx ;;
     Ok [ {| start_date := sd; trough_date := td; end_date := ed;
             depth_pct := fmul depth fhundred; duration_days := duration;
             start_value := sv; trough_value := tv |} ]
   else Ok [])%result.

(** The two locals the loop updates. *)
Record walk : Type := mkWalk {
  start_idx : option nat;
  episodes : list Episode
}.

(** One iteration of [for i in range(len(in_drawdown))].  In the closing
    branch [start_idx <= i - 1], so [i - 1] is the Python value. *)
Definition walk_step (self : t) (drawdown cum_returns : Series)
    (st : walk) (i : nat) : result walk :=
  (b <- at_pos (in_drawdown_of drawdown) i ;;
   match start_idx st with
   | None =>
       if b then Ok {| start_idx := Some i; episodes := episodes st |}
       else Ok st
   | Some s =>
       if b then Ok st
       else
         let end_idx := (i - 1)%nat in
         let episode_dd := slice (values drawdown) s (end_idx + 1) in
         let duration := (end_idx - s + 1)%nat in
         eps <- record_episode self drawdown cum_returns s episode_dd duration
                  (at_pos (index drawdown) end_idx) ;;
         Ok {| start_idx := None; episodes := episodes st ++ eps |}
   end)%result.

Fixpoint walk_loop (self : t) (drawdown cum_returns : Series)
    (range : list nat) (st : walk) : result walk :=
  match range with
  | [] => Ok st
  | i :: tl =>
      (st' <- walk_step self drawdown cum_returns st i ;;
       walk_loop self drawdown cum_returns tl st')%result
  end.

(** [drawdown.index[-1]] *)
Definition last_label (s : Series) : result Timestamp :=
  match length s with
  | O => Raise (IndexError "index -1 is out of bounds for axis 0 with size 0")
  | S n => at_pos (index s) n
  end.

(** The code after the loop: an episode still open at the end. *)
Definition walk_finish (self : t) (drawdown cum_returns : Series)
    (st : walk) : result (list Episode) :=
  match start_idx st with
  | None => Ok (episodes st)
  | Some s =>
      (let episode_dd := skipn s (values drawdown) in
       let duration := (length drawdown - s)%nat in
       eps <- record_episode self drawdown cum_returns s episode_dd duration
                (last_label drawdown) ;;
       Ok (episodes st ++ eps))%result
  end.

(** The segmentation walk over a drawdown series and its wealth index. *)
Definition segment (self : t) (drawdown cum_returns : Series) : result (list Episode) :=
  (st <- walk_loop self drawdown cum_returns
           (seq 0 (length (in_drawdown_of drawdown)))
           {| start_idx := None; episodes := [] |} ;;
   walk_finish self drawdown cum_returns st)%result.

Definition compute_drawdown_episodes (self : t) (returns : Series) : result (list Episode) :=
  let drawdown := compute_drawdown returns in
  let cum_returns := compute_cumulative_returns returns in
  segment self drawdown cum_returns.

(** ** Runs of negative drawdown, as the walk is specified over them *)

Definition negative_at (drawdown : Series) (i : nat) : Prop :=
  nth_error (in_drawdown_of drawdown) i = Some true.

(** Positions [s..e] are all in drawdown and [s] is where the run begins. *)
Definition negative_run (drawdown : Series) (s e : nat) : Prop :=
  (s <= e)%nat /\
  (forall i, (s <= i <= e)%nat -> negative_at drawdown i) /\
  (s = 0%nat \/ ~ negative_at drawdown (s - 1)).

(** The run [s..e] ended by a position that is not in drawdown. *)
Definition closed_run (drawdown : Series) (s e : nat) : Prop :=
  negative_run drawdown s e /\
  nth_error (in_drawdown_of drawdown) (e + 1) = Some false.

(** The run from [s] that is still going at the last position. *)
Definition open_run (drawdown : Series) (s : nat) : Prop :=
  (s < length drawdown)%nat /\ negative_run drawdown s (length drawdown - 1).

Definition exceeds_threshold (self : t) (depth : float) : bool :=
  fge (fabs depth) (fdiv (drawdown_threshold self) fhundred).

(** Position in the series and value of the first minimum over [s..e]. *)
Definition run_trough (drawdown : Series) (s e : nat) : option (nat * float) :=
  match first_min (slice (values drawdown) s (e + 1)) with
  | Some (j, m) => Some ((s + j)%nat, m)
  | None => None
  end.

Definition run_episode (drawdown cum_returns : Series) (s e trough : nat)
    (depth : float) : Episode :=
  {| start_date := nth s (index drawdown) 0%Z;
     trough_date := nth trough (index drawdown) 0%Z;
     end_date := nth e (index drawdown) 0%Z;
     depth_pct := fmul depth fhundred;
     duration_days := (e - s + 1)%nat;
     start_value := nth s (values cum_returns) NaN;
     trough_value := nth trough (values cum_returns) NaN |}.

(** What the run [s..e] contributes to the output. *)
Definition emitted_for_run (self : t) (drawdown cum_returns : Series) (s e : nat)
  : list Episode :=
  match run_trough drawdown s e with
  | Some (trough, depth) =>
      if exceeds_threshold self depth
      then [run_episode drawdown cum_returns s e trough depth]
      else []
  | None => []
  end.

(** What is known after the loop has handled positions [0..i-1]. *)
Definition walk_inv (self : t) (drawdown cum_returns : Series) (i : nat) (st : walk)
  : Prop :=
  match start_idx st with
  | None => i = 0%nat \/ ~ negative_at drawdown (i - 1)
  | Some s => (s < i)%nat /\ negative_run drawdown s (i - 1)
  end /\
  forall ep, In ep (episodes st) <->
    exists s e, closed_run drawdown s e /\ (e + 1 < i)%nat /\
                emitted_for_run self drawdown cum_returns s e = [ep].

(** [drawdown.min()] (skipna): NaN when nothing is observed. *)
Definition compute_max_drawdown (returns : Series) : float :=
  match first_min (values (compute_drawdown returns)) with
  | Some (_, m) => m
  | None => NaN
  end.

(** [identify_crash_events]: the per-timestamp crash flags. *)
Definition period_returns_of (returns : Series) (window : Z) : result (list float) :=
  if (window =? 1)%Z then Ok (values returns)
  else rolling_apply window (fun x => fsub (fprod x) fone)
         (map (fadd fone) (values returns)).

Definition identify_crash_events (self : t) (returns : Series) (window : Z)
    (method : string) : result (list (Timestamp * bool)) :=
  (period_returns <- period_returns_of returns window ;;
   if String.eqb method "historical" then
     threshold <- series_quantile period_returns
                    (fdiv (crash_percentile self) fhundred) ;;
     Ok (combine (index returns) (map (fun r => flt r threshold) period_returns))
   else if String.eqb method "rolling" then
     rolling_threshold <- expanding_quantile period_returns
                            (fdiv (crash_percentile self) fhundred) ;;
     Ok (combine (index returns)
           (map (fun rt => flt (fst rt) (snd rt))
                (combine period_returns rolling_threshold)))
   else Raise (ValueError ("Unknown method: " ++ method)%string))%result.

(** ** The crash classifier as the specification words it *)








(** ** Admissible inputs of the drawdown formula *)

(** A return the drawdown formula is meant for: missing, or a finite
    value above -100%. *)
Definition admissible_return (r : float) : Prop :=
  r = NaN \/ exists q, r = Fin q /\ -1 < q.

Definition positive (v : float) : Prop := exists q, v = Fin q /\ 0 < q.

(** Wealth is missing where the growth factor is, positive elsewhere. *)
Definition wealth_rel (g w : float) : Prop :=
  (g = NaN /\ w = NaN) \/ (g <> NaN /\ positive w).

(** The peak dominates the wealth wherever the wealth is observed. *)
Definition peak_rel (w m : float) : Prop :=
  w = NaN \/ exists q p, w = Fin q /\ m = Fin p /\ 0 < q /\ q <= p.

(** A double that is missing or finite (no infinity). *)
Definition finite_or_missing (v : float) : Prop :=
  v = NaN \/ exists q, v = Fin q.

Definition finite (v : float) : Prop := exists q, v = Fin q.

(** ** A small series used to exercise the statements *)

Definition sample_analyzer : t :=
  {| crash_percentile := Fin 1; drawdown_threshold := Fin 5 |}.

(** Returns +10%, -20%, -10%, +50%, -10%: drawdown 0, -0.2, -0.28, 0, -0.1. *)
Definition sample_returns : Series :=
  [(10%Z, Fin (1 # 10)); (11%Z, Fin (- (1 # 5))); (12%Z, Fin (- (1 # 10)));
   (13%Z, Fin (1 # 2)); (14%Z, Fin (- (1 # 10)))].

End DrawdownAnalyzer.

(* ================================================================== *)
(** * Logging *)

Inductive level : Type := INFO | WARNING.

Definition log_record : Type := (level * string)%type.

(** A call that writes log records and then returns or raises. *)
Definition logged (A : Type) : Type := (list log_record * result A)%type.

Definition is_warning (r : log_record) : bool :=
  match fst r with WARNING => true | INFO => false end.

Definition string_of_nat (n : nat) : string :=
  NilEmpty.string_of_uint (Nat.to_uint n).

(* ================================================================== *)
(** * Strings *)

(** [s.endswith(suffix)] *)
Fixpoint endswith (s suffix : string) : bool :=
  String.eqb s suffix ||
  match s with
  | EmptyString => false
  | String _ tl => endswith tl suffix
  end.

(** [s.replace(old, new)] for a non-empty [old]: left to right, without
    overlap.  [skip] counts the characters of a match still to drop. *)
Fixpoint replace_skipping (old new : string) (skip : nat) (s : string) : string :=
  match s with
  | EmptyString => EmptyString
  | String c tl =>
      match skip with
      | S k => replace_skipping old new k tl
      | O =>
          if String.prefix old s
          then (new ++ replace_skipping old new (String.length old - 1) tl)%string
          else String c (replace_skipping old new 0 tl)
      end
  end.

Definition str_replace (s old new : string) : string := replace_skipping old new 0 s.

(* ================================================================== *)
(** * pandas DataFrame and label alignment *)

(** A table: the row labels and the named columns, each column holding
    one value per row label. *)
Record DataFrame : Type := mkDataFrame {
  df_index : list Timestamp;
  df_columns : list (string * list float)
}.

Definition columns (df : DataFrame) : list string := map fst (df_columns df).

(** [pd.DataFrame(index=idx)] *)
Definition empty_frame (idx : list Timestamp) : DataFrame :=
  {| df_index := idx; df_columns := [] |}.

Fixpoint find_column (name : string) (cols : list (string * list float))
  : option (list float) :=
  match cols with
  | [] => None
  | (n, vs) :: tl => if String.eqb n name then Some vs else find_column name tl
  end.

(** [df[name]] for uniquely named columns. *)
Definition getitem (df : DataFrame) (name : string) : result Series :=
  match find_column name (df_columns df) with
  | Some vs => Ok (combine (df_index df) vs)
  | None => Raise (KeyError name)
  end.

Fixpoint labels_eqb (a b : list Timestamp) : bool :=
  match a, b with
  | [], [] => true
  | x :: a', y :: b' => Z.eqb x y && labels_eqb a' b'
  | _, _ => false
  end.

Definition mem_label (t : Timestamp) (l : list Timestamp) : bool :=
  existsb (Z.eqb t) l.

Fixpoint has_duplicates (l : list Timestamp) : bool :=
  match l with
  | [] => false
  | t :: tl => mem_label t tl || has_duplicates tl
  end.

(** The value of [s] at label [t]; NaN when the label is absent. *)
Fixpoint lookup (t : Timestamp) (s : Series) : float :=
  match s with
  | [] => NaN
  | (t', v) :: tl => if Z.eqb t' t then v else lookup t tl
  end.

(** [s.reindex(target)]: nothing moves when the labels are already the
    target; otherwise values are fetched by label, which pandas refuses
    on duplicate labels. *)
Definition reindex (s : Series) (target : list Timestamp) : result (list float) :=
  if labels_eqb (index s) target then Ok (values s)
  else if has_duplicates (index s)
  then Raise (ValueError "cannot reindex on an axis with duplicate labels")
  else Ok (map (fun t => lookup t s) target).

Fixpoint set_column (name : string) (vs : list float)
    (cols : list (string * list float)) : list (string * list float) :=
  match cols with
  | [] => [(name, vs)]
  | (n, v) :: tl =>
      if String.eqb n name then (n, vs) :: tl
      else (n, v) :: set_column name vs tl
  end.

(** [df[name] = s]: the Series is aligned on the rows of [df]; an
    existing column of that name is overwritten in place. *)
Definition setitem (df : DataFrame) (name : string) (s : Series) : result DataFrame :=
  (vs <- reindex s (df_index df) ;;
   Ok {| df_index := df_index df; df_columns := set_column name vs (df_columns df) |})%result.

Fixpoint insert_label (t : Timestamp) (l : list Timestamp) : list Timestamp :=
  match l with
  | [] => [t]
  | h :: tl => if (t <=? h)%Z then t :: l else h :: insert_label t tl
  end.

Definition sort_labels (l : list Timestamp) : list Timestamp :=
  fold_right insert_label [] l.

(** [a.union(b)] of two duplicate-free indexes that are not equal: the
    labels of [a], then those of [b] not in [a], sorted. *)
Definition index_union (a b : list Timestamp) : list Timestamp :=
  if labels_eqb a b then a
  else sort_labels (a ++ filter (fun t => negb (mem_label t a)) b).

(** [self.combine_first(other)]: the caller's values come first; only
    where the caller is missing is the value of [other] taken. *)
Definition combine_first (self other : Series) : result Series :=
  if labels_eqb (index self) (index other) then
    Ok (combine (index self)
          (zip_with (fun v o => if isnan v then o else v) (values self) (values other)))
  else if has_duplicates (index self) || has_duplicates (index other) then
    Raise (ValueError "cannot reindex on an axis with duplicate labels")
  else
    Ok (map (fun t => (t, let v := lookup t self in
                          if isnan v then lookup t other else v))
            (index_union (index self) (index other))).

(** [series.dropna()] *)
Definition dropna (s : Series) : Series := filter (fun r => notna (snd r)) s.

(** The row labels of [pd.concat(dfs, axis=1)] (outer join, [sort=False]):
    every label once, in the order of first appearance. *)
Definition concat_union (a b : list Timestamp) : list Timestamp :=
  a ++ filter (fun t => negb (mem_label t a)) b.

Definition concat_index (dfs : list DataFrame) : list Timestamp :=
  match dfs with
  | [] => []
  | d :: tl => fold_left concat_union (map df_index tl) (df_index d)
  end.

Definition all_same_index (dfs : list DataFrame) : bool :=
  match dfs with
  | [] => true
  | d :: tl => forallb (fun d' => labels_eqb (df_index d) (df_index d')) tl
  end.

Definition reindex_frame (target : list Timestamp) (d : DataFrame)
  : list (string * list float) :=
  map (fun c => (fst c, map (fun t => lookup t (combine (df_index d) (snd c))) target))
      (df_columns d).

Definition concat_columns (dfs : list DataFrame) : result DataFrame :=
  match dfs with
  | [] => Raise (ValueError "No objects to concatenate")
  | _ =>
      if all_same_index dfs then
        Ok {| df_index := concat_index dfs;
              df_columns := flat_map df_columns dfs |}
      else if existsb (fun d => has_duplicates (df_index d)) dfs then
        Raise (InvalidIndexError "Reindexing only valid with uniquely valued Index objects")
      else
        Ok {| df_index := concat_index dfs;
              df_columns := flat_map (reindex_frame (concat_index dfs)) dfs |}
  end.

Definition Qnat (n : nat) : Q := inject_Z (Z.of_nat n).

(** Mean of the non-missing values; NaN when there is none. *)
Definition nanmean (cells : list float) : float :=
  let obs := dropna_values cells in
  match obs with
  | [] => NaN
  | _ => fdiv (fsum obs) (Fin (Qnat (length obs)))
  end.

Definition row (df : DataFrame) (i : nat) : list float :=
  map (fun c => nth i (snd c) NaN) (df_columns df).

(** [df.mean(axis=1, skipna=True)] *)
Definition mean_axis1 (df : DataFrame) : Series :=
  combine (df_index df)
    (map (fun i => nanmean (row df i)) (seq 0 (length (df_index df)))).


(* ================================================================== *)
(** * scipy.stats.mstats.winsorize *)

(** [lst[z]] with Python's negative positions. *)
Definition py_index {A : Type} (l : list A) (z : Z) : result A :=
  if (z <? 0)%Z then
    if (z + Z.of_nat (length l) <? 0)%Z
    then Raise (IndexError "index out of bounds")
    else at_pos l (Z.to_nat (z + Z.of_nat (length l)))
  else at_pos l (Z.to_nat z).

Fixpoint insert_by_value (p : nat * float) (l : list (nat * float)) : list (nat * float) :=
  match l with
  | [] => [p]
  | h :: tl => if fle (snd p) (snd h) then p :: l else h :: insert_by_value p tl
  end.

(** [a.argsort()]: the positions of [a] in ascending order of value. *)
Definition argsort (a : list float) : list nat :=
  map fst (fold_right insert_by_value [] (combine (seq 0 (length a)) a)).

(** [a[positions] = v] *)
Definition assign_at (positions : list nat) (v : float) (a : list float) : list float :=
  map (fun pv => if existsb (Nat.eqb (fst pv)) positions then v else snd pv)
      (combine (seq 0 (length a)) a).

(** [int(limit * n)]: ValueError on NaN (infinities are rejected before). *)
Definition int_of_scaled (limit : float) (n : nat) : result nat :=
  match limit with
  | Fin x => Ok (Z.to_nat (Qfloor (x * Qnat n)))
  | _ => Raise (ValueError "cannot convert float NaN to integer")
  end.

Definition check_limit (limit : float) (which : string) : result unit :=
  if flt fone limit || flt limit fzero
  then Raise (ValueError ("The proportion to cut from the " ++ which
                          ++ " should be between 0. and 1.")%string)
  else Ok tt.

(** [mstats.winsorize(a, limits=(lolim, uplim))] on a 1-d array without
    missing values: the [int(lolim*n)] smallest entries take the value of
    the next one, the [int(uplim*n)] largest that of the one before. *)
Definition mstats_winsorize (a : list float) (limits : float * float)
  : result (list float) :=
  (let (lolim, uplim) := limits in
   _ <- check_limit lolim "beginning" ;;
   _ <- check_limit uplim "end" ;;
   let n := length a in
   let idx := argsort a in
   a1 <- (if feqb lolim fzero then Ok a
          else
            lowidx <- int_of_scaled lolim n ;;
            p <- at_pos idx lowidx ;;
            v <- at_pos a p ;;
            Ok (assign_at (firstn lowidx idx) v a)) ;;
   cut <- int_of_scaled uplim n ;;
   let upidx := (n - cut)%nat in
   p <- py_index idx (Z.of_nat upidx - 1) ;;
   v <- at_pos a1 p ;;
   Ok (assign_at (skipn upidx idx) v a1))%result.

(* ================================================================== *)
(** * CrowdingIndexBuilder *)

(** The five fields set by [__init__]. *)
Record builder : Type := mkBuilder {
  short_window : Z;
  medium_window : Z;
  long_window : Z;
  winsorize_lower : float;
  winsorize_upper : float
}.

(** [winsorize_series]: the limits, the winsorized non-missing part on
    its own labels, and the final [series.combine_first(winsorized)]. *)
Definition winsorize_limits (self : builder) : float * float :=
  (fdiv (winsorize_lower self) fhundred,
   fdiv (fsub fhundred (winsorize_upper self)) fhundred).

Definition winsorized_part (self : builder) (series : Series) : result Series :=
  (w <- mstats_winsorize (values (dropna series)) (winsorize_limits self) ;;
   Ok (combine (index (dropna series)) w))%result.

Definition winsorize_series (self : builder) (series : Series) : result Series :=
  (winsorized <- winsorized_part self series ;;
   combine_first series winsorized)%result.

(** [build_composite_index]: the component tables come as a list. *)
Definition build_composite_index (self : builder) (component_dfs : list DataFrame)
    (winsorize : bool) : logged Series :=
  let start := (INFO, "Building composite crowding index..."%string) in
  match concat_columns component_dfs with
  | Raise e => ([start], Raise e)
  | Ok all_components =>
      let composite := mean_axis1 all_components in
      let final := if winsorize then winsorize_series self composite else Ok composite in
      match final with
      | Raise e => ([start], Raise e)
      | Ok composite' =>
          ([start;
            (INFO, ("Composite index created from "
                     ++ string_of_nat (length (columns all_components))
                     ++ " components")%string)],
           Ok composite')
      end
  end.

Section RollingStatistics.

(** The square root of the double arithmetic, on non-negative finite
    values.  Nothing is assumed about it. *)
Variable Qsqrt : Q -> Q.

(** pandas' [zsqrt]: square root with negative inputs sent to 0. *)
Definition zsqrt (v : float) : float :=
  match v with
  | NaN => NaN
  | PInf => PInf
  | NInf => Fin 0
  | Fin q => if Qlt_bool q 0 then Fin 0 else Fin (Qsqrt q)
  end.

Definition check_rolling (window min_periods : Z) : result (nat * nat) :=
  if (min_periods <? 0)%Z then Raise (ValueError "min_periods must be >= 0")
  else if (window <? min_periods)%Z
  then Raise (ValueError "min_periods must be <= window")
  else Ok (Z.to_nat window, Z.to_nat min_periods).

(** One output of the mean, variance (ddof = 1) and sum kernels over a
    window; in exact arithmetic the running updates of the kernels give
    the two-pass values written here. *)
Definition roll_mean_at (minp : nat) (window : list float) : float :=
  let obs := dropna_values window in
  let nobs := length obs in
  if (minp <=? nobs)%nat && (0 <? nobs)%nat
  then fdiv (fsum obs) (Fin (Qnat nobs))
  else NaN.

Definition roll_var_at (minp : nat) (window : list float) : float :=
  let obs := dropna_values window in
  let nobs := length obs in
  if (minp <=? nobs)%nat && (1 <? nobs)%nat then
    let mean := fdiv (fsum obs) (Fin (Qnat nobs)) in
    fdiv (fsum (map (fun x => fmul (fsub x mean) (fsub x mean)) obs))
         (Fin (Qnat (nobs - 1)))
  else NaN.

Definition roll_sum_at (minp : nat) (window : list float) : float :=
  let obs := dropna_values window in
  if (minp <=? length obs)%nat then fsum obs else NaN.

Definition rolling_mean (w minp : nat) (vs : list float) : list float :=
  map (roll_mean_at minp) (rolling_windows w vs).

Definition rolling_var (w minp : nat) (vs : list float) : list float :=
  map (roll_var_at minp) (rolling_windows w vs).

Definition rolling_std (w minp : nat) (vs : list float) : list float :=
  map zsqrt (rolling_var w minp vs).

Definition rolling_sum (w minp : nat) (vs : list float) : list float :=
  map (roll_sum_at minp) (rolling_windows w vs).

(** [rolling_std.replace(0, np.nan)] *)
Definition replace_zero_nan (v : float) : float :=
  if feqb v fzero then NaN else v.

(** [compute_zscore(series, window, min_periods)] *)
Definition compute_zscore (series : Series) (window : Z) (min_periods : option Z)
  : result Series :=
  (let min_periods :=
     match min_periods with
     | None => (window / 2)%Z
     | Some m => m
     end in
   wm <- check_rolling window min_periods ;;
   let rolling_mean := rolling_mean (fst wm) (snd wm) (values series) in
   let rolling_std := rolling_std (fst wm) (snd wm) (values series) in
   Ok (with_values series
         (zip_with fdiv
            (zip_with fsub (values series) rolling_mean)
            (map replace_zero_nan rolling_std))))%result.

(** [x.rolling(w).corr(y)]: a pair with a missing side is missing on
    both; then means, variances and the pair count over the window. *)
Definition rolling_corr (w : nat) (x y : list float) : list float :=
  let x_array := zip_with (fun a b => fadd a (fmul fzero b)) x y in
  let y_array := zip_with (fun a b => fadd a (fmul fzero b)) y x in
  let mean_x_y := rolling_mean w w (zip_with fmul x_array y_array) in
  let mean_x := rolling_mean w w x_array in
  let mean_y := rolling_mean w w y_array in
  let count_x_y :=
    rolling_sum w 0 (map (fun v => if notna v then fone else fzero)
                         (zip_with fadd x_array y_array)) in
  let x_var := rolling_var w w x_array in
  let y_var := rolling_var w w y_array in
  let numerator :=
    zip_with fmul
      (zip_with fsub mean_x_y (zip_with fmul mean_x mean_y))
      (map (fun c => fdiv c (fsub c fone)) count_x_y) in
  let denominator := map zsqrt (zip_with fmul x_var y_var) in
  zip_with fdiv numerator denominator.

End RollingStatistics.

Section ProxyBuilders.

Variable Qsqrt : Q -> Q.

(** [df[names]]: the listed columns, in the order listed. *)
Fixpoint select_columns (df : DataFrame) (names : list string)
  : result (list (string * list float)) :=
  match names with
  | [] => Ok []
  | n :: tl =>
      match find_column n (df_columns df) with
      | None => Raise (KeyError n)
      | Some vs =>
          (rest <- select_columns df tl ;; Ok ((n, vs) :: rest))%result
      end
  end.

Definition getitem_list (df : DataFrame) (names : list string) : result DataFrame :=
  (cols <- select_columns df names ;;
   Ok {| df_index := df_index df; df_columns := cols |})%result.

(** ** Proxy set A: flow attention *)

(** The body of [for ticker in returns.columns] of
    [build_flow_attention_proxy], acting on [components]. *)
Definition flow_attention_ticker (self : builder) (returns volumes : DataFrame)
    (components : DataFrame) (ticker : string) : result DataFrame :=
  if endswith ticker "_ret" then
    (let ticker_name := str_replace ticker "_ret" "" in
     let vol_col := (ticker_name ++ "_vol")%string in
     components1 <-
       (if existsb (String.eqb vol_col) (columns volumes) then
          volume <- getitem volumes vol_col ;;
          vol_zscore <- compute_zscore Qsqrt volume (short_window self) None ;;
          setitem components (ticker_name ++ "_vol_zscore")%string vol_zscore
        else Ok components) ;;
     ret <- getitem returns ticker ;;
     cum <- rolling_apply (medium_window self) (fun x => fsub (fprod x) fone)
              (map (fadd fone) (values ret)) ;;
     let cum_return := with_values ret cum in
     ret_zscore <- compute_zscore Qsqrt cum_return (medium_window self) None ;;
     components2 <- setitem components1 (ticker_name ++ "_ret_zscore")%string ret_zscore ;;
     crash_threshold <- series_quantile (values ret) (Fin (5 # 100)) ;;
     let crash_days :=
       map (fun v => if flt v crash_threshold then fone else fzero) (values ret) in
     w <- check_window (short_window self) ;;
     let crash_freq := with_values ret (rolling_sum w w crash_days) in
     crash_freq_zscore <- compute_zscore Qsqrt crash_freq (short_window self) None ;;
     setitem components2 (ticker_name ++ "_crash_freq")%string crash_freq_zscore)%result
  else Ok components.

Fixpoint flow_attention_loop (self : builder) (returns volumes : DataFrame)
    (tickers : list string) (components : DataFrame) : result DataFrame :=
  match tickers with
  | [] => Ok components
  | ticker :: tl =>
      (components' <- flow_attention_ticker self returns volumes components ticker ;;
       flow_attention_loop self returns volumes tl components')%result
  end.

Definition build_flow_attention_proxy (self : builder) (returns volumes : DataFrame)
  : logged DataFrame :=
  let start := (INFO, "Building flow-attention crowding proxy..."%string) in
  match flow_attention_loop self returns volumes (columns returns)
          (empty_frame (df_index returns)) with
  | Raise e => ([start], Raise e)
  | Ok components =>
      ([start;
        (INFO, ("Flow-attention proxy created with "
                 ++ string_of_nat (length (columns components))
                 ++ " components")%string)],
       Ok components)
  end.

(** ** Proxy set B: co-movement *)

(** The two locals the pair loops update. *)
Definition pair_state : Type := (DataFrame * list string)%type.

(** The body of the inner loop, for one pair [(col1, col2)]. *)
Definition comovement_pair (self : builder) (etf_returns : DataFrame)
    (col1 col2 : string) (st : pair_state) : result pair_state :=
  (let ticker1 := str_replace col1 "_ret" "" in
   let ticker2 := str_replace col2 "_ret" "" in
   let pair_name := ("corr_" ++ ticker1 ++ "_" ++ ticker2)%string in
   x <- getitem etf_returns col1 ;;
   w <- check_window (medium_window self) ;;
   y <- getitem etf_returns col2 ;;
   yv <- reindex y (index x) ;;
   let rolling_corr := with_values x (rolling_corr Qsqrt w (values x) yv) in
   components <- setitem (fst st) pair_name rolling_corr ;;
   Ok (components, snd st ++ [pair_name]))%result.

Fixpoint comovement_inner (self : builder) (etf_returns : DataFrame)
    (col1 : string) (rest : list string) (st : pair_state) : result pair_state :=
  match rest with
  | [] => Ok st
  | col2 :: tl =>
      (st' <- comovement_pair self etf_returns col1 col2 st ;;
       comovement_inner self etf_returns col1 tl st')%result
  end.

(** [for i, col1 in enumerate(etf_cols): for col2 in etf_cols[i + 1 :]] *)
Fixpoint comovement_outer (self : builder) (etf_returns : DataFrame)
    (etf_cols : list string) (st : pair_state) : result pair_state :=
  match etf_cols with
  | [] => Ok st
  | col1 :: rest =>
      (st' <- comovement_inner self etf_returns col1 rest st ;;
       comovement_outer self etf_returns rest st')%result
  end.

Definition build_comovement_proxy (self : builder) (returns : DataFrame)
  : logged DataFrame :=
  let start := (INFO, "Building co-movement crowding proxy..."%string) in
  let etf_cols := filter (fun col => endswith col "_ret") (columns returns) in
  match getitem_list returns etf_cols with
  | Raise e => ([start], Raise e)
  | Ok etf_returns =>
      if (length etf_cols <? 2)%nat then
        ([start; (WARNING, "Need at least 2 ETFs for correlation proxy"%string)],
         Ok (empty_frame (df_index returns)))
      else
        let body :=
          (st <- comovement_outer self etf_returns etf_cols
                   (empty_frame (df_index returns), []) ;;
           match snd st with
           | [] => Ok (fst st)
           | pairs =>
               selected <- getitem_list (fst st) pairs ;;
               setitem (fst st) "avg_corr" (mean_axis1 selected)
           end)%result in
        match body with
        | Raise e => ([start], Raise e)
        | Ok components =>
            ([start;
              (INFO, ("Co-movement proxy created with "
                       ++ string_of_nat (length (columns components))
                       ++ " components")%string)],
             Ok components)
        end
  end.

End ProxyBuilders.

(* ================================================================== *)
(** * Reading a table by label *)

(** The first row position carrying label [t]. *)
Fixpoint position_of (t : Timestamp) (l : list Timestamp) : option nat :=
  match l with
  | [] => None
  | h :: tl => if Z.eqb h t then Some 0%nat
               else option_map S (position_of t tl)
  end.

(** The component values present in the tables at label [t]: one cell
    per column of every table, missing where the table has no row [t]. *)
Definition cells_at (dfs : list DataFrame) (t : Timestamp) : list float :=
  flat_map (fun d => map (fun c => lookup t (combine (df_index d) (snd c)))
                         (df_columns d)) dfs.

(** Winsorization percentiles for which scipy accepts the limits and can
    index the sorted values: lower in [0, 100), upper in [0, 100]. *)
Definition usable_percentiles (self : builder) : Prop :=
  exists lo hi, winsorize_lower self = Fin lo /\ winsorize_upper self = Fin hi /\
                0 <= lo /\ lo < 100 /\ 0 <= hi /\ hi <= 100.

(** Every column holds one value per row label. *)
Definition well_formed (df : DataFrame) : Prop :=
  Forall (fun c => length (snd c) = length (df_index df)) (df_columns df).

(** The component names the flow-attention loop assigns for one column
    of the returns table. *)
Definition flow_attention_names (volumes : DataFrame) (ticker c : string) : Prop :=
  endswith ticker "_ret" = true /\
  let ticker_name := str_replace ticker "_ret" "" in
  (c = (ticker_name ++ "_ret_zscore")%string \/
   c = (ticker_name ++ "_crash_freq")%string \/
   (c = (ticker_name ++ "_vol_zscore")%string /\
    In (ticker_name ++ "_vol")%string (columns volumes))).

(* ================================================================== *)
(** * Sample inputs used to exercise the statements *)

Definition sample_builder : builder :=
  {| short_window := 2; medium_window := 2; long_window := 4;
     winsorize_lower := Fin 25; winsorize_upper := Fin 75 |}.

(** A square root that is exact on 0 and 1, enough for the samples. *)
Definition sample_sqrt (q : Q) : Q := if Qeq_bool q 0 then 0 else 1.

Definition constant_series : Series :=
  [(1%Z, Fin 3); (2%Z, Fin 3); (3%Z, Fin 3); (4%Z, Fin 3)].

Definition outlier_series : Series :=
  [(1%Z, Fin 1); (2%Z, Fin 2); (3%Z, Fin 3); (4%Z, Fin 100)].

Definition one_etf_table : DataFrame :=
  {| df_index := [1%Z; 2%Z; 3%Z];
     df_columns := [("MTUM_ret"%string, [Fin (1 # 100); Fin (- (2 # 100)); Fin (3 # 100)]);
                    ("Mom"%string, [Fin (1 # 100); Fin (1 # 100); Fin (1 # 100)])] |}.

(** Two component tables on partly different timestamps; at timestamp 2
    three of the four cells are present. *)
Definition sample_components : list DataFrame :=
  [ {| df_index := [1%Z; 2%Z];
       df_columns := [("a"%string, [Fin 1; Fin 2]); ("b"%string, [NaN; Fin 4])] |};
    {| df_index := [2%Z; 3%Z];
       df_columns := [("c"%string, [Fin 6; NaN]); ("d"%string, [NaN; NaN])] |} ].

(** One component that is missing at every timestamp. *)
Definition all_missing_table : DataFrame :=
  {| df_index := [1%Z; 2%Z]; df_columns := [("a_zscore"%string, [NaN; NaN])] |}.

(** Volumes for no instrument at all, on the rows of [one_etf_table]. *)
Definition no_volume_table : DataFrame :=
  {| df_index := [1%Z; 2%Z; 3%Z]; df_columns := [] |}.

(* ================================================================== *)
(** * CrowdingIndexBuilder: the factor-side proxy and the full build *)

(** Calls that log are chained with their records in order; a call that
    raises keeps what was logged before. *)
Definition lbind {A B : Type} (m : logged A) (k : A -> logged B) : logged B :=
  match snd m with
  | Raise e => (fst m, Raise e)
  | Ok a => let r := k a in (fst m ++ fst r, snd r)
  end.

Definition lret {A : Type} (a : A) : logged A := ([], Ok a).

Definition llog (lv : level) (msg : string) : logged unit := ([(lv, msg)], Ok tt).

Definition llift {A : Type} (r : result A) : logged A := ([], r).

Declare Scope logged_scope.
Delimit Scope logged_scope with logged.
Notation "x <- e ;; k" := (lbind e (fun x => k))
  (at level 61, e at next level, right associativity) : logged_scope.

Section FactorSide.

Variable Qsqrt : Q -> Q.

(** [np.sqrt] *)
Definition np_sqrt (v : float) : float :=
  match v with
  | NaN | NInf => NaN
  | PInf => PInf
  | Fin q => if Qlt_bool q 0 then NaN else Fin (Qsqrt q)
  end.

(** [np.clip(v, -1, 1)] *)
Definition np_clip_unit (v : float) : float :=
  match v with
  | NaN => NaN
  | NInf => Fin (-1)
  | PInf => Fin 1
  | Fin q => if Qlt_bool q (-1) then Fin (-1)
             else if Qlt_bool 1 q then Fin 1 else Fin q
  end.

(** [np.corrcoef(a, b)[0, 1]]: the covariance matrix (ddof = 1, the
    factor [1 / (n - 1)] being an infinity for a single pair), divided
    by the two standard deviations, clipped to [-1, 1]. *)
Definition np_corrcoef (a b : list float) : float :=
  let n := length a in
  let avg_a := fdiv (fsum a) (Fin (Qnat n)) in
  let avg_b := fdiv (fsum b) (Fin (Qnat n)) in
  let da := map (fun x => fsub x avg_a) a in
  let db := map (fun x => fsub x avg_b) b in
  let fact := fdiv fone (Fin (Qnat (n - 1))) in
  let c_ab := fmul (fsum (zip_with fmul da db)) fact in
  let c_aa := fmul (fsum (zip_with fmul da da)) fact in
  let c_bb := fmul (fsum (zip_with fmul db db)) fact in
  np_clip_unit (fdiv (fdiv c_ab (np_sqrt c_aa)) (np_sqrt c_bb)).

(** [x.autocorr(lag=1)], that is [x.corr(x.shift(1))]: the pairs with a
    missing side are dropped, NaN when none is left. *)
Definition autocorr (x : list float) : float :=
  let shifted := NaN :: removelast x in
  let valid := filter (fun p => notna (fst p) && notna (snd p)) (combine x shifted) in
  match valid with
  | [] => NaN
  | _ => np_corrcoef (map fst valid) (map snd valid)
  end.

(** The body of [for factor in factor_returns.columns] of
    [build_factor_side_proxy], acting on [components]. *)
Definition factor_side_factor (self : builder) (factor_returns : DataFrame)
    (components : DataFrame) (factor : string) : result DataFrame :=
  if String.eqb factor "RF" then Ok components
  else
    (ret <- getitem factor_returns factor ;;
     w <- check_window (short_window self) ;;
     let rolling_vol := with_values ret (rolling_std Qsqrt w w (values ret)) in
     vol_zscore <- compute_zscore Qsqrt rolling_vol (medium_window self) None ;;
     components1 <- setitem components (factor ++ "_vol_zscore")%string vol_zscore ;;
     ac <- rolling_apply (short_window self) autocorr (values ret) ;;
     let rolling_autocorr := with_values ret ac in
     autocorr_zscore <- compute_zscore Qsqrt rolling_autocorr (medium_window self) None ;;
     setitem components1 (factor ++ "_autocorr_zscore")%string autocorr_zscore)%result.

Fixpoint factor_side_loop (self : builder) (factor_returns : DataFrame)
    (factors : list string) (components : DataFrame) : result DataFrame :=
  match factors with
  | [] => Ok components
  | factor :: tl =>
      (components' <- factor_side_factor self factor_returns components factor ;;
       factor_side_loop self factor_returns tl components')%result
  end.

Definition build_factor_side_proxy (self : builder) (factor_returns : DataFrame)
  : logged DataFrame :=
  let start := (INFO, "Building factor-side crowding proxy..."%string) in
  match factor_side_loop self factor_returns (columns factor_returns)
          (empty_frame (df_index factor_returns)) with
  | Raise e => ([start], Raise e)
  | Ok components =>
      ([start;
        (INFO, ("Factor-side proxy created with "
                 ++ string_of_nat (length (columns components))
                 ++ " components")%string)],
       Ok components)
  end.

(** ** build_all_crowding_indices *)

(** [df.empty]: no row or no column. *)
Definition is_empty (df : DataFrame) : bool :=
  (length (df_index df) =? 0)%nat || (length (df_columns df) =? 0)%nat.

(** [s.to_frame(name)] *)
Definition to_frame (s : Series) (name : string) : DataFrame :=
  {| df_index := index s; df_columns := [(name, values s)] |}.

Definition factor_cols : list string :=
  ["Mkt-RF"; "SMB"; "HML"; "Mom"]%string.

(** The dict [results], as its items in insertion order; every key is
    written once. *)
Definition build_all_crowding_indices (self : builder) (master_data : DataFrame)
  : logged (list (string * DataFrame)) :=
  (_ <- llog INFO "Building all crowding indices..." ;;
   let etf_return_cols := filter (fun col => endswith col "_ret") (columns master_data) in
   let etf_volume_cols := filter (fun col => endswith col "_vol") (columns master_data) in
   etf_returns <- llift (getitem_list master_data etf_return_cols) ;;
   etf_volumes <- llift (getitem_list master_data etf_volume_cols) ;;
   factor_returns <-
     llift (getitem_list master_data
              (filter (fun col => existsb (String.eqb col) (columns master_data))
                      factor_cols)) ;;
   flow_attention <-
     (if negb (is_empty etf_returns) && negb (is_empty etf_volumes)
      then build_flow_attention_proxy Qsqrt self etf_returns etf_volumes
      else _ <- llog WARNING "Insufficient ETF data for flow-attention proxy" ;;
           lret (empty_frame (df_index master_data))) ;;
   comovement <-
     (if negb (is_empty etf_returns)
      then build_comovement_proxy Qsqrt self etf_returns
      else _ <- llog WARNING "Insufficient ETF data for co-movement proxy" ;;
           lret (empty_frame (df_index master_data))) ;;
   factor_side <-
     (if negb (is_empty factor_returns)
      then build_factor_side_proxy self factor_returns
      else _ <- llog WARNING "Insufficient factor data for factor-side proxy" ;;
           lret (empty_frame (df_index master_data))) ;;
   let results := [("flow_attention"%string, flow_attention);
                   ("comovement"%string, comovement);
                   ("factor_side"%string, factor_side)] in
   results <-
     (if negb (is_empty flow_attention)
      then composite <- build_composite_index self [flow_attention] true ;;
           lret (results ++ [("crowding_index_a"%string,
                              to_frame composite "CrowdingIndex_A")])
      else lret results) ;;
   results <-
     (if negb (is_empty comovement)
      then composite <- build_composite_index self [comovement] true ;;
           lret (results ++ [("crowding_index_b"%string,
                              to_frame composite "CrowdingIndex_B")])
      else lret results) ;;
   results <-
     (if negb (is_empty factor_side)
      then composite <- build_composite_index self [factor_side] true ;;
           lret (results ++ [("crowding_index_c"%string,
                              to_frame composite "CrowdingIndex_C")])
      else lret results) ;;
   let non_empty := filter (fun df => negb (is_empty df)) (map snd results) in
   results <-
     (match non_empty with
      | [] => lret results
      | _ => composite <- build_composite_index self non_empty true ;;
             lret (results ++ [("crowding_index_all"%string,
                                to_frame composite "CrowdingIndex_All")])
      end) ;;
   _ <- llog INFO "All crowding indices built successfully" ;;
   lret results)%logged.

End FactorSide.

(* ================================================================== *)
(** * DrawdownAnalyzer: all factors at once *)

(** The dict stored for one factor by [analyze_factor_drawdowns]. *)
Record factor_analysis : Type := mkFactorAnalysis {
  drawdown_series : Series;
  daily_crashes : list (Timestamp * bool);
  weekly_crashes : list (Timestamp * bool);
  episodes_found : list DrawdownAnalyzer.Episode;
  max_drawdown : float
}.

(** [results[key] = v] on a dict kept as its items in insertion order. *)
Fixpoint dict_set {V : Type} (key : string) (v : V) (d : list (string * V))
  : list (string * V) :=
  match d with
  | [] => [(key, v)]
  | (k, v') :: tl =>
      if String.eqb k key then (k, v) :: tl else (k, v') :: dict_set key v tl
  end.

(** [for factor in factor_returns.columns] of [analyze_factor_drawdowns],
    acting on [results]. *)
Fixpoint analyze_loop (self : DrawdownAnalyzer.t) (factor_returns : DataFrame)
    (factors : list string) (results : list (string * factor_analysis))
  : result (list (string * factor_analysis)) :=
  match factors with
  | [] => Ok results
  | factor :: tl =>
      (ret <- getitem factor_returns factor ;;
       let dd_series := DrawdownAnalyzer.compute_drawdown ret in
       daily <- DrawdownAnalyzer.identify_crash_events self ret 1 "historical" ;;
       weekly <- DrawdownAnalyzer.identify_crash_events self ret 5 "historical" ;;
       eps <- DrawdownAnalyzer.compute_drawdown_episodes self ret ;;
       analyze_loop self factor_returns tl
         (dict_set factor
            {| drawdown_series := dd_series;
               daily_crashes := daily;
               weekly_crashes := weekly;
               episodes_found := eps;
               max_drawdown := DrawdownAnalyzer.compute_max_drawdown ret |}
            results))%result
  end.

Definition analyze_factor_drawdowns (self : DrawdownAnalyzer.t)
    (factor_returns : DataFrame) : result (list (string * factor_analysis)) :=
  analyze_loop self factor_returns (columns factor_returns) [].

(* ================================================================== *)
(** * Further notions used in the statements *)

(** A percentile that the quantile checks refuse also in doubles: an
    infinity, -1 or less, or above 100.  (A negative percentile next to
    zero divides by 100 to zero, which the checks accept.) *)
Definition percentile_out_of_range (cp : float) : Prop :=
  cp = PInf \/ cp = NInf \/ exists p, cp = Fin p /\ (p <= -1 \/ 100 < p).

(** Runs of positions [(s, e)] listed in increasing order, with at least
    one position between the end of a run and the start of any later one. *)
Definition runs_in_order (runs : list (nat * nat)) : Prop :=
  StronglySorted (fun r1 r2 => (snd r1 + 1 < fst r2)%nat) runs.

(** What a list of runs emits, run after run. *)
Definition emitted_for_runs (self : DrawdownAnalyzer.t) (drawdown cum_returns : Series)
    (runs : list (nat * nat)) : list DrawdownAnalyzer.Episode :=
  flat_map (fun r => DrawdownAnalyzer.emitted_for_run self drawdown cum_returns
                       (fst r) (snd r)) runs.

(** The closed runs met by the loop before position [i], in order, are
    what the records kept so far come from. *)
Definition runs_inv (self : DrawdownAnalyzer.t) (drawdown cum_returns : Series)
    (i : nat) (st : DrawdownAnalyzer.walk) (runs : list (nat * nat)) : Prop :=
  DrawdownAnalyzer.episodes st = emitted_for_runs self drawdown cum_returns runs /\
  runs_in_order runs /\
  Forall (fun r => DrawdownAnalyzer.closed_run drawdown (fst r) (snd r) /\
                   (snd r + 1 < i)%nat) runs /\
  forall s e, DrawdownAnalyzer.closed_run drawdown s e -> (e + 1 < i)%nat ->
              In (s, e) runs.


(** The column name [build_comovement_proxy] gives to the correlation of
    the pair [(col1, col2)], and the names in the order of its two loops. *)
Definition pair_name (col1 col2 : string) : string :=
  ("corr_" ++ str_replace col1 "_ret" "" ++ "_" ++ str_replace col2 "_ret" "")%string.

Fixpoint pair_names (etf_cols : list string) : list string :=
  match etf_cols with
  | [] => []
  | col1 :: rest => map (pair_name col1) rest ++ pair_names rest
  end.

(** The value of column [name] of [df] at row position [i]. *)
Definition cell (df : DataFrame) (name : string) (i : nat) : float :=
  match find_column name (df_columns df) with
  | Some vs => nth i vs NaN
  | None => NaN
  end.

(** The component names the factor-side loop assigns for one column of
    the factor returns. *)
Definition factor_side_names (factor c : string) : Prop :=
  factor <> "RF"%string /\
  (c = (factor ++ "_vol_zscore")%string \/ c = (factor ++ "_autocorr_zscore")%string).

(** Row [i] of [df] is missing in every column. *)
Definition missing_row (df : DataFrame) (i : nat) : Prop :=
  Forall (fun c => nth i (snd c) NaN = NaN) (df_columns df).

(** What holds of every table stored in [results] before the combined
    composite is computed: distinct row labels, the labels of the master
    table, a key other than that of the combined composite, and a
    composite that is stored is not empty. *)
Definition stored_entry (master_data : DataFrame) (e : string * DataFrame) : Prop :=
  NoDup (df_index (snd e)) /\
  (forall t, In t (df_index (snd e)) <-> In t (df_index master_data)) /\
  fst e <> "crowding_index_all"%string /\
  (In (fst e) ["crowding_index_a"; "crowding_index_b"; "crowding_index_c"]%string ->
   is_empty (snd e) = false).

(** Two instruments with three rows of returns. *)
Definition two_etf_table : DataFrame :=
  {| df_index := [1%Z; 2%Z; 3%Z];
     df_columns := [("MTUM_ret"%string, [Fin (1 # 100); Fin (- (2 # 100)); Fin (3 # 100)]);
                    ("VLUE_ret"%string, [Fin (2 # 100); Fin (1 # 100); Fin (- (1 # 100))])] |}.

(** One factor and the risk-free rate, on three rows. *)
Definition factor_table : DataFrame :=
  {| df_index := [1%Z; 2%Z; 3%Z];
     df_columns := [("Mom"%string, [Fin (1 # 100); Fin (- (2 # 100)); Fin (3 # 100)]);
                    ("RF"%string, [Fin (1 # 1000); Fin (1 # 1000); Fin (1 # 1000)])] |}.

(* ================================================================== *)
(** * Facts about lists, positions and doubles *)

Section ListFacts.

Context {A B : Type}.

Lemma map_fst_combine (a : list A) (b : list B) :
  length a = length b -> map fst (combine a b) = a.
Proof.
  revert b; induction a as [|x a IH]; intros [|y b] H; simpl in *; try discriminate; auto.
  f_equal. apply IH. lia.
Qed.

Lemma map_snd_combine (a : list A) (b : list B) :
  length a = length b -> map snd (combine a b) = b.
Proof.
  revert b; induction a as [|x a IH]; intros [|y b] H; simpl in *; try discriminate; auto.
  f_equal. apply IH. lia.
Qed.

Lemma Forall2_nth_error_left (R : A -> B -> Prop) (a : list A) (b : list B) :
  Forall2 R a b ->
  forall i x, nth_error a i = Some x -> exists y, nth_error b i = Some y /\ R x y.
Proof.
  induction 1 as [|x0 y0 a b Hxy _ IH]; intros [|i] x Hn; simpl in *; try discriminate.
  - inversion Hn; subst. eauto.
  - eauto.
Qed.

End ListFacts.

Lemma zip_with_length f xs ys :
  length (zip_with f xs ys) = Nat.min (length xs) (length ys).
Proof.
  revert ys; induction xs as [|x xs IH]; intros [|y ys]; simpl; auto.
Qed.

Lemma nth_error_zip_with f xs ys i x y :
  nth_error xs i = Some x -> nth_error ys i = Some y ->
  nth_error (zip_with f xs ys) i = Some (f x y).
Proof.
  revert ys i; induction xs as [|x0 xs IH]; intros [|y0 ys] [|i]; simpl;
    try discriminate; intros Hx Hy.
  - congruence.
  - eauto.
Qed.

Lemma np_cumprod_from_length prev vs :
  length (np_cumprod_from prev vs) = length vs.
Proof. revert prev; induction vs; simpl; auto. Qed.

Lemma cumprod_length vs : length (cumprod vs) = length vs.
Proof.
  unfold cumprod. rewrite zip_with_length.
  destruct vs as [|v tl]; simpl; auto.
  rewrite np_cumprod_from_length, length_map. lia.
Qed.

Lemma expanding_max_from_length acc vs :
  length (expanding_max_from acc vs) = length vs.
Proof. revert acc; induction vs; simpl; auto. Qed.

Lemma expanding_max_length vs : length (expanding_max vs) = length vs.
Proof. unfold expanding_max. now rewrite expanding_max_from_length, length_map. Qed.

Lemma values_with_values (s : Series) vs :
  length vs = length s -> values (with_values s vs) = vs.
Proof.
  intros H. unfold values, with_values, index. apply map_snd_combine.
  now rewrite length_map.
Qed.

Lemma index_with_values (s : Series) vs :
  length vs = length s -> index (with_values s vs) = index s.
Proof.
  intros H. unfold with_values, index at 1. apply map_fst_combine.
  unfold index. now rewrite length_map.
Qed.

Lemma values_length (s : Series) : length (values s) = length s.
Proof. apply length_map. Qed.

Lemma index_length (s : Series) : length (index s) = length s.
Proof. apply length_map. Qed.

Lemma Qlt_bool_iff a b : Qlt_bool a b = true <-> a < b.
Proof.
  unfold Qlt_bool. rewrite negb_true_iff.
  split; intros H.
  - apply Qnot_le_lt. intros Hle. apply Qle_bool_iff in Hle. congruence.
  - destruct (Qle_bool b a) eqn:E; auto. apply Qle_bool_iff in E.
    exfalso. apply (Qlt_not_le _ _ H E).
Qed.

Lemma Qlt_bool_false_iff a b : Qlt_bool a b = false <-> b <= a.
Proof.
  unfold Qlt_bool. rewrite negb_false_iff. apply Qle_bool_iff.
Qed.

Import DrawdownAnalyzer.

(** ** Wealth, running peak and drawdown on admissible returns *)


Lemma positive_fmul a b : positive a -> positive b -> positive (fmul a b).
Proof.
  intros [p [-> Hp]] [q [-> Hq]]. exists (p * q). split; auto.
  apply Qmult_lt_0_compat; auto.
Qed.

Lemma growth_shape r :
  admissible_return r ->
  (r = NaN /\ fadd fone r = NaN) \/ (r <> NaN /\ positive (fadd fone r)).
Proof.
  intros [-> | [q [-> Hq]]]; [left; auto | right].
  split; [discriminate|]. exists (1 + q). split; auto. lra.
Qed.


Lemma masked_cumprod_from prev gs :
  positive prev ->
  Forall (fun g => g = NaN \/ positive g) gs ->
  Forall2 wealth_rel gs
    (zip_with (fun v p => if isnan v then NaN else p) gs
       (np_cumprod_from prev (map (fillna fone) gs))).
Proof.
  intros Hprev Hgs. revert prev Hprev.
  induction Hgs as [|g gs Hg _ IH]; intros prev Hprev; simpl; constructor.
  - destruct Hg as [-> | Hg]; [left; auto|].
    right. destruct Hg as [q [-> Hq]]. split; [discriminate|].
    simpl. apply (positive_fmul Hprev). exists q; auto.
  - apply IH. destruct Hg as [-> | Hg]; simpl.
    + apply (positive_fmul Hprev). exists 1. split; auto. reflexivity.
    + destruct Hg as [q [-> Hq]]. simpl. apply (positive_fmul Hprev). exists q; auto.
Qed.

Lemma cumprod_shape gs :
  Forall (fun g => g = NaN \/ positive g) gs ->
  Forall2 wealth_rel gs (cumprod gs).
Proof.
  intros Hgs. unfold cumprod. destruct Hgs as [|g gs Hg Hgs]; simpl; constructor.
  - destruct Hg as [-> | [q [-> Hq]]]; [left; auto|].
    right. split; [discriminate|]. exists q; auto.
  - apply masked_cumprod_from; auto.
    destruct Hg as [-> | [q [-> Hq]]]; simpl.
    + exists 1. split; auto. reflexivity.
    + exists q; auto.
Qed.


Lemma expanding_max_from_shape acc ws :
  acc = NaN \/ positive acc ->
  Forall (fun w => w = NaN \/ positive w) ws ->
  Forall2 peak_rel ws (expanding_max_from acc ws).
Proof.
  intros Hacc Hws. revert acc Hacc.
  induction Hws as [|w ws Hw _ IH]; intros acc Hacc; simpl; constructor.
  - destruct Hw as [-> | [q [-> Hq]]]; [left; auto|]. right.
    destruct Hacc as [-> | [a [-> Ha]]]; simpl.
    + exists q, q. repeat split; auto. apply Qle_refl.
    + destruct (Qlt_bool a q) eqn:E.
      * exists q, q. repeat split; auto. apply Qle_refl.
      * exists q, a. repeat split; auto. now apply Qlt_bool_false_iff.
  - apply IH.
    destruct Hw as [-> | [q [-> Hq]]]; destruct Hacc as [-> | [a [-> Ha]]]; simpl.
    + now left.
    + right. exists a; auto.
    + right. exists q; auto.
    + right. destruct (Qlt_bool a q); [exists q | exists a]; auto.
Qed.

Lemma prep_value_observed ws :
  Forall (fun w => w = NaN \/ positive w) ws -> map prep_value ws = ws.
Proof.
  induction 1 as [|w ws Hw _ IH]; simpl; auto.
  rewrite IH. f_equal. destruct Hw as [-> | [q [-> _]]]; reflexivity.
Qed.

Lemma wealth_rel_observed gs ws :
  Forall2 wealth_rel gs ws -> Forall (fun w => w = NaN \/ positive w) ws.
Proof.
  induction 1 as [|g w gs ws H _ IH]; constructor; auto.
  destruct H as [[_ ->] | [_ H]]; auto.
Qed.

Lemma drawdown_value q p :
  0 < q -> q <= p ->
  fdiv (fsub (Fin q) (Fin p)) (Fin p) = Fin ((q - p) / p) /\ (q - p) / p <= 0 /\
  (q == p -> (q - p) / p == 0).
Proof.
  intros Hq Hqp. assert (Hp : 0 < p) by lra.
  split; [|split].
  - simpl. destruct (p ?= 0) eqn:E; auto.
    apply Qeq_alt in E. lra.
  - unfold Qdiv. setoid_replace 0 with (0 * / p) by ring.
    apply Qmult_le_compat_r; [lra|]. apply Qlt_le_weak, Qinv_lt_0_compat; auto.
  - intros E. rewrite E. unfold Qdiv. ring.
Qed.

Lemma admissible_growth rs :
  Forall admissible_return rs ->
  Forall (fun g => g = NaN \/ positive g) (map (fadd fone) rs).
Proof.
  induction 1 as [|r rs Hr _ IH]; cbn [map]; constructor; auto.
  destruct (growth_shape Hr) as [[_ ->] | [_ H]]; auto.
Qed.

Lemma compute_cumulative_returns_values returns :
  values (compute_cumulative_returns returns)
  = cumprod (map (fadd fone) (values returns)).
Proof.
  unfold compute_cumulative_returns. apply values_with_values.
  now rewrite cumprod_length, length_map, values_length.
Qed.

Lemma compute_cumulative_returns_length returns :
  length (compute_cumulative_returns returns) = length returns.
Proof.
  rewrite <- (values_length (compute_cumulative_returns returns)).
  now rewrite compute_cumulative_returns_values, cumprod_length, length_map, values_length.
Qed.

Lemma compute_running_max_values cum :
  values (compute_running_max cum) = expanding_max (values cum).
Proof.
  unfold compute_running_max. apply values_with_values.
  now rewrite expanding_max_length, values_length.
Qed.

Lemma compute_drawdown_values returns :
  values (compute_drawdown returns)
  = let w := values (compute_cumulative_returns returns) in
    let m := expanding_max w in
    zip_with fdiv (zip_with fsub w m) m.
Proof.
  unfold compute_drawdown. rewrite compute_running_max_values.
  apply values_with_values.
  rewrite !zip_with_length, expanding_max_length, values_length,
    compute_cumulative_returns_length. lia.
Qed.

Lemma compute_drawdown_length returns :
  length (compute_drawdown returns) = length returns.
Proof.
  rewrite <- (values_length (compute_drawdown returns)), compute_drawdown_values.
  cbv zeta.
  rewrite !zip_with_length, expanding_max_length, values_length,
    compute_cumulative_returns_length. lia.
Qed.

Lemma compute_drawdown_index returns :
  index (compute_drawdown returns) = index returns.
Proof.
  unfold compute_drawdown. apply index_with_values.
  rewrite compute_running_max_values.
  rewrite !zip_with_length, expanding_max_length, values_length,
    compute_cumulative_returns_length. lia.
Qed.

(** C2, at inputs where the code departs from it.  The formula is applied
    with no guard on the returns.  With returns -2 then +0.5 the wealth
    is -1, -1.5 and the running peak -1, -1, so the drawdown at the
    second timestamp is +0.5, above 0.  With a single return of -1 the
    wealth and its running peak are both 0, and the drawdown there is
    NaN, not 0. *)
Theorem drawdown_positive_after_total_loss :
  (let returns := [(0%Z, Fin (-2)); (1%Z, Fin (1 # 2))] in
   values (compute_cumulative_returns returns) = [Fin (-1); Fin (- (3 # 2))] /\
   values (compute_running_max (compute_cumulative_returns returns))
   = [Fin (-1); Fin (-1)] /\
   nth_error (values (compute_drawdown returns)) 1 = Some (Fin (1 # 2)) /\
   fle (Fin (1 # 2)) fzero = false) /\
  (let returns := [(0%Z, Fin (-1))] in
   nth_error (values (compute_cumulative_returns returns)) 0 = Some (Fin (0 # 1)) /\
   nth_error (values (compute_running_max (compute_cumulative_returns returns))) 0
     = Some (Fin (0 # 1)) /\
   nth_error (values (compute_drawdown returns)) 0 = Some NaN).
Proof. vm_compute. repeat split. Qed.

(** ** Order on doubles *)

Lemma flt_notna a b : flt a b = true -> isnan a = false /\ isnan b = false.
Proof. destruct a, b; simpl; intros H; try discriminate; auto. Qed.

Lemma fle_refl a : isnan a = false -> fle a a = true.
Proof.
  destruct a; simpl; intros H; try discriminate; auto.
  apply Qle_bool_iff, Qle_refl.
Qed.

Lemma fle_false_flt a b :
  isnan a = false -> isnan b = false -> fle a b = false -> flt b a = true.
Proof.
  destruct a, b; simpl; intros Ha Hb H; try discriminate; auto.
  unfold Qlt_bool. now rewrite H.
Qed.

Lemma flt_fle a b : flt a b = true -> fle a b = true.
Proof.
  destruct a, b; simpl; intros H; try discriminate; auto.
  apply Qlt_bool_iff in H. apply Qle_bool_iff. lra.
Qed.

Lemma fle_trans a b c : fle a b = true -> fle b c = true -> fle a c = true.
Proof.
  destruct a, b, c; simpl; intros H1 H2; try discriminate; auto.
  apply Qle_bool_iff in H1, H2. apply Qle_bool_iff. lra.
Qed.

Lemma fle_flt_trans a b c : fle a b = true -> flt b c = true -> flt a c = true.
Proof.
  destruct a, b, c; simpl; intros H1 H2; try discriminate; auto.
  apply Qle_bool_iff in H1. apply Qlt_bool_iff in H2. apply Qlt_bool_iff. lra.
Qed.

(** ** The first minimum of a slice *)

Lemma first_min_none vs :
  first_min vs = None -> forall k x, nth_error vs k = Some x -> isnan x = true.
Proof.
  induction vs as [|v tl IH]; intros H [|k] x Hk; simpl in *; try discriminate.
  - inversion Hk; subst.
    destruct (first_min tl) as [[j m]|]; destruct (isnan x); auto; try discriminate.
    destruct (fle x m); discriminate.
  - destruct (first_min tl) as [[j m]|] eqn:E.
    + destruct (isnan v); [discriminate|]. destruct (fle v m); discriminate.
    + eapply IH; eauto.
Qed.

Lemma first_min_spec vs j m :
  first_min vs = Some (j, m) ->
  nth_error vs j = Some m /\ isnan m = false /\
  (forall k x, nth_error vs k = Some x -> isnan x = false -> fle m x = true) /\
  (forall k x, (k < j)%nat -> nth_error vs k = Some x -> isnan x = false ->
               flt m x = true).
Proof.
  revert j m. induction vs as [|v tl IH]; intros j m H; simpl in H; [discriminate|].
  destruct (first_min tl) as [[j' m']|] eqn:E.
  - destruct (IH _ _ eq_refl) as [Hn [Hm [Hmin Hfirst]]].
    destruct (isnan v) eqn:Ev.
    + inversion H; subst. repeat split; auto.
      * intros [|k] x Hk Hx; simpl in Hk; [congruence | eauto].
      * intros [|k] x Hlt Hk Hx; simpl in Hk; [congruence|].
        apply (Hfirst k); auto. lia.
    + destruct (fle v m') eqn:Ele; inversion H; subst.
      * repeat split; auto.
        -- intros [|k] x Hk Hx; simpl in Hk.
           ++ inversion Hk; subst. now apply fle_refl.
           ++ apply fle_trans with m'; eauto.
        -- intros k x Hlt. lia.
      * assert (Hlt : flt m v = true) by (apply fle_false_flt; auto).
        repeat split; auto.
        -- intros [|k] x Hk Hx; simpl in Hk.
           ++ inversion Hk; subst. now apply flt_fle.
           ++ eauto.
        -- intros [|k] x Hk Hn' Hx; simpl in Hn'.
           ++ inversion Hn'; subst. exact Hlt.
           ++ apply (Hfirst k); auto. lia.
  - destruct (isnan v) eqn:Ev; [discriminate|]. inversion H; subst.
    repeat split; auto.
    + intros [|k] x Hk Hx; simpl in Hk.
      * inversion Hk; subst. now apply fle_refl.
      * rewrite (first_min_none _ E _ Hk) in Hx. discriminate.
    + intros k x Hk. lia.
Qed.

Lemma first_min_exists vs :
  (exists k x, nth_error vs k = Some x /\ isnan x = false) ->
  exists j m, first_min vs = Some (j, m).
Proof.
  induction vs as [|v tl IH]; intros [k [x [Hk Hx]]].
  - destruct k; discriminate.
  - simpl. destruct (first_min tl) as [[j m]|] eqn:E.
    + destruct (isnan v); [eauto|]. destruct (fle v m); eauto.
    + destruct k as [|k]; simpl in Hk.
      * inversion Hk; subst. rewrite Hx. eauto.
      * destruct IH as [j [m Hjm]]; [eauto | discriminate].
Qed.

Lemma nth_error_slice {A : Type} (l : list A) a b k :
  (a + k < b)%nat -> nth_error (slice l a b) k = nth_error l (a + k).
Proof.
  intros H. unfold slice. rewrite nth_error_firstn.
  destruct (Nat.ltb_spec k (b - a)); [|lia].
  apply nth_error_skipn.
Qed.

Lemma slice_length {A : Type} (l : list A) a b :
  (b <= length l)%nat -> length (slice l a b) = (b - a)%nat.
Proof.
  intros H. unfold slice. rewrite length_firstn, length_skipn. lia.
Qed.

Lemma slice_to_end {A : Type} (l : list A) a :
  slice l a (length l) = skipn a l.
Proof.
  unfold slice. apply firstn_all2. rewrite length_skipn. lia.
Qed.

Lemma at_pos_nth {A : Type} (l : list A) i d :
  (i < length l)%nat -> at_pos l i = Ok (nth i l d).
Proof.
  intros H. unfold at_pos. now rewrite (nth_error_nth' l d H).
Qed.

(** ** The segmentation walk *)

Section Walk.

Variables (self : t) (drawdown cum_returns : Series).
Hypothesis same_length : length cum_returns = length drawdown.

Lemma in_drawdown_length : length (in_drawdown_of drawdown) = length drawdown.
Proof. unfold in_drawdown_of. now rewrite length_map, values_length. Qed.

Lemma negative_at_value i :
  negative_at drawdown i <->
  exists v, nth_error (values drawdown) i = Some v /\ flt v fzero = true.
Proof.
  unfold negative_at, in_drawdown_of. rewrite nth_error_map.
  destruct (nth_error (values drawdown) i) as [v|]; simpl; split.
  - intros H. exists v. split; congruence.
  - intros [v' [H1 H2]]. congruence.
  - discriminate.
  - intros [v' [H1 _]]. discriminate.
Qed.

Lemma negative_at_in_range i : negative_at drawdown i -> (i < length drawdown)%nat.
Proof.
  intros H. rewrite <- in_drawdown_length. apply nth_error_Some.
  unfold negative_at in H. congruence.
Qed.

Lemma negative_run_start_unique s s' e :
  negative_run drawdown s e -> negative_run drawdown s' e -> s = s'.
Proof.
  intros [Hle [Hall Hb]] [Hle' [Hall' Hb']].
  destruct (Nat.lt_trichotomy s s') as [Hlt | [Heq | Hgt]]; auto; exfalso.
  - destruct Hb' as [-> | Hb']; [lia|]. apply Hb'. apply Hall. lia.
  - destruct Hb as [-> | Hb]; [lia|]. apply Hb. apply Hall'. lia.
Qed.

Lemma closed_run_end_unique s e e' :
  closed_run drawdown s e -> closed_run drawdown s e' -> e = e'.
Proof.
  intros [[Hle [Hall _]] Hc] [[Hle' [Hall' _]] Hc'].
  destruct (Nat.lt_trichotomy e e') as [Hlt | [Heq | Hgt]]; auto; exfalso.
  - assert (H : negative_at drawdown (e + 1)) by (apply Hall'; lia).
    unfold negative_at in H. congruence.
  - assert (H : negative_at drawdown (e' + 1)) by (apply Hall; lia).
    unfold negative_at in H. congruence.
Qed.

(** Closing a run records exactly what the run is specified to emit. *)
Lemma record_episode_run s e :
  (s <= e)%nat -> (e < length drawdown)%nat ->
  (forall i, (s <= i <= e)%nat -> negative_at drawdown i) ->
  record_episode self drawdown cum_returns s
    (slice (values drawdown) s (e + 1)) (e - s + 1) (at_pos (index drawdown) e)
  = Ok (emitted_for_run self drawdown cum_returns s e).
Proof.
  intros Hse He Hall.
  destruct (proj1 (negative_at_value s) (Hall s ltac:(lia))) as [v [Hv Hneg]].
  destruct (@first_min_exists (slice (values drawdown) s (e + 1))) as [j [m Hjm]].
  { exists 0%nat, v. split.
    - rewrite nth_error_slice by lia. now rewrite Nat.add_0_r.
    - apply (flt_notna _ _ Hneg). }
  destruct (first_min_spec _ Hjm) as [Hnth _].
  assert (Hj : (s + j < e + 1)%nat).
  { assert (H : (j < length (slice (values drawdown) s (e + 1)))%nat)
      by (apply nth_error_Some; congruence).
    rewrite slice_length in H by (rewrite values_length; lia). lia. }
  rewrite nth_error_slice in Hnth by lia.
  unfold record_episode, emitted_for_run, run_trough, argmin, exceeds_threshold.
  rewrite Hjm. cbn [rbind].
  unfold at_pos at 1. rewrite Hnth. cbn [rbind].
  destruct (fge (fabs m) (fdiv (drawdown_threshold self) fhundred)); [|reflexivity].
  rewrite !(@at_pos_nth _ (index drawdown) _ 0%Z) by (rewrite index_length; lia).
  rewrite !(@at_pos_nth _ (values cum_returns) _ NaN)
    by (rewrite values_length, same_length; lia).
  reflexivity.
Qed.


Lemma emitted_for_run_singleton s e ep :
  In ep (emitted_for_run self drawdown cum_returns s e) <->
  emitted_for_run self drawdown cum_returns s e = [ep].
Proof.
  unfold emitted_for_run.
  destruct (run_trough drawdown s e) as [[tr d]|]; simpl.
  - destruct (exceeds_threshold self d); simpl.
    + split; [intros [-> | []]; reflexivity | intros H; inversion H; auto].
    + split; [intros [] | discriminate].
  - split; [intros [] | discriminate].
Qed.

Lemma walk_step_inv i st :
  (i < length drawdown)%nat -> walk_inv self drawdown cum_returns i st ->
  exists st', walk_step self drawdown cum_returns st i = Ok st' /\
              walk_inv self drawdown cum_returns (S i) st'.
Proof.
  intros Hi [Hstart Heps].
  assert (Hb : exists b, nth_error (in_drawdown_of drawdown) i = Some b).
  { destruct (nth_error (in_drawdown_of drawdown) i) eqn:E; eauto.
    apply nth_error_None in E. rewrite in_drawdown_length in E. lia. }
  destruct Hb as [b Hb].
  unfold walk_step, at_pos. rewrite Hb. cbn [rbind].
  assert (Hnoclose : b = true ->
            forall s e, closed_run drawdown s e -> (e + 1 < S i)%nat -> (e + 1 < i)%nat).
  { intros -> s e [_ Hc] Hlt.
    destruct (Nat.eq_dec (e + 1) i) as [<- |]; [congruence | lia]. }
  destruct (start_idx st) as [s|] eqn:Es; destruct b.
  - (* the run goes on *)
    exists st. split; [reflexivity|]. split.
    + rewrite Es. destruct Hstart as [Hlt [Hle [Hall Hbd]]].
      split; [lia|]. replace (S i - 1)%nat with i by lia.
      split; [lia|]. split; auto.
      intros j Hj. destruct (Nat.eq_dec j i) as [-> |]; [exact Hb|].
      apply Hall. lia.
    + intros ep. rewrite Heps. split; intros [s' [e [Hc [Hlt He]]]]; exists s', e;
        (split; [exact Hc | split; [|exact He]]); [lia|].
      apply (Hnoclose eq_refl _ _ Hc Hlt).
  - (* the run closes at i *)
    destruct Hstart as [Hlt [Hle [Hall Hbd]]].
    assert (Hrun : negative_run drawdown s (i - 1)) by (repeat split; auto).
    assert (Hclosed : closed_run drawdown s (i - 1)).
    { split; auto. now replace (i - 1 + 1)%nat with i by lia. }
    rewrite record_episode_run by (auto; lia). cbn [rbind].
    eexists. split; [reflexivity|]. split.
    + simpl. right. replace (i - 0)%nat with i by lia.
      unfold negative_at. congruence.
    + intros ep. simpl. rewrite in_app_iff, Heps, emitted_for_run_singleton. split.
      * intros [[s' [e [Hc [Hlt' He]]]] | He].
        -- exists s', e. split; [exact Hc | split; [lia | exact He]].
        -- exists s, (i - 1)%nat. split; [exact Hclosed | split; [lia | exact He]].
      * intros [s' [e [Hc [Hlt' He]]]].
        destruct (Nat.eq_dec (e + 1) i) as [Heq|].
        -- right. assert (e = (i - 1)%nat) by lia. subst e.
           destruct Hc as [Hr' _].
           now rewrite (negative_run_start_unique Hrun Hr').
        -- left. exists s', e. split; [exact Hc | split; [lia | exact He]].
  - (* a run starts at i *)
    eexists. split; [reflexivity|]. split.
    + simpl. split; [lia|]. replace (i - 0)%nat with i by lia.
      split; [lia|]. split.
      * intros j Hj. replace j with i by lia. exact Hb.
      * destruct Hstart as [-> | Hn]; auto.
    + intros ep. simpl. rewrite Heps.
      split; intros [s' [e [Hc [Hlt He]]]]; exists s', e;
        (split; [exact Hc | split; [|exact He]]); [lia|].
      apply (Hnoclose eq_refl _ _ Hc Hlt).
  - (* still out of drawdown *)
    exists st. split; [reflexivity|]. split.
    + rewrite Es. right. replace (S i - 1)%nat with i by lia.
      unfold negative_at. congruence.
    + intros ep. rewrite Heps. split; intros [s' [e [Hc [Hlt He]]]]; exists s', e;
        (split; [exact Hc | split; [|exact He]]); [lia|].
      destruct (Nat.eq_dec (e + 1) i) as [Heq|]; [exfalso | lia].
      destruct Hc as [[Hle [Hall _]] _].
      destruct Hstart as [-> | Hn]; [lia|]. apply Hn. apply Hall. lia.
Qed.

Lemma walk_loop_app r1 r2 st :
  walk_loop self drawdown cum_returns (r1 ++ r2) st
  = rbind (walk_loop self drawdown cum_returns r1 st)
          (walk_loop self drawdown cum_returns r2).
Proof.
  revert st. induction r1 as [|i r1 IH]; intros st; simpl; auto.
  destruct (walk_step self drawdown cum_returns st i); simpl; auto.
Qed.

Lemma walk_loop_inv i :
  (i <= length drawdown)%nat ->
  exists st, walk_loop self drawdown cum_returns (seq 0 i)
               {| start_idx := None; episodes := [] |} = Ok st /\
             walk_inv self drawdown cum_returns i st.
Proof.
  induction i as [|i IH]; intros Hi.
  - eexists. split; [reflexivity|]. split; simpl; auto.
    intros ep. split; [intros [] | intros [s [e [_ [H _]]]]; lia].
  - destruct IH as [st [Hloop Hinv]]; [lia|].
    destruct (@walk_step_inv i st) as [st' [Hstep Hinv']]; auto.
    exists st'. split; auto.
    rewrite seq_S, walk_loop_app, Hloop. simpl. now rewrite Hstep.
Qed.

(** The output of the walk: what the closed runs emit, then what the run
    still open at the end emits. *)
Lemma segment_characterised :
  exists eps, segment self drawdown cum_returns = Ok eps /\
  forall ep, In ep eps <->
    (exists s e, closed_run drawdown s e /\
                 emitted_for_run self drawdown cum_returns s e = [ep]) \/
    (exists s, open_run drawdown s /\
               emitted_for_run self drawdown cum_returns s (length drawdown - 1) = [ep]).
Proof.
  destruct (@walk_loop_inv (length drawdown)) as [st [Hloop [Hstart Heps]]]; auto.
  unfold segment. rewrite in_drawdown_length, Hloop. cbn [rbind].
  unfold walk_finish.
  assert (Hclosed_in : forall s e, closed_run drawdown s e -> (e + 1 < length drawdown)%nat).
  { intros s e [_ Hc]. rewrite <- in_drawdown_length. apply nth_error_Some. congruence. }
  destruct (start_idx st) as [s|] eqn:Es.
  - destruct Hstart as [Hlt Hrun].
    assert (Hrec := @record_episode_run s (length drawdown - 1)).
    replace (length drawdown - 1 + 1)%nat with (length drawdown) in Hrec by lia.
    assert (Hslice : slice (values drawdown) s (length drawdown)
                     = skipn s (values drawdown)).
    { rewrite <- (values_length drawdown). apply slice_to_end. }
    rewrite Hslice in Hrec.
    replace (length drawdown - 1 - s + 1)%nat with (length drawdown - s)%nat in Hrec by lia.
    assert (Hlast : last_label drawdown = at_pos (index drawdown) (length drawdown - 1)).
    { unfold last_label. destruct (length drawdown) eqn:E; [lia|].
      now replace (S n - 1)%nat with n by lia. }
    rewrite Hlast, Hrec; try lia; [|apply Hrun].
    cbn [rbind]. eexists. split; [reflexivity|].
    intros ep. rewrite in_app_iff, Heps, emitted_for_run_singleton. split.
    + intros [[s' [e [Hc [_ He]]]] | He]; [left; eauto|].
      right. exists s. split; auto. split; auto.
    + intros [[s' [e [Hc He]]] | [s' [[_ Hr'] He]]].
      * left. exists s', e. split; [exact Hc | split; [eapply Hclosed_in; eauto | exact He]].
      * right. now rewrite (negative_run_start_unique Hrun Hr').
  - eexists. split; [reflexivity|].
    intros ep. rewrite Heps. split.
    + intros [s' [e [Hc [_ He]]]]. left; eauto.
    + intros [[s' [e [Hc He]]] | [s' [[Hlt [_ [Hall _]]] _]]].
      * exists s', e. split; [exact Hc | split; [eapply Hclosed_in; eauto | exact He]].
      * exfalso. destruct Hstart as [H0 | Hn]; [lia|]. apply Hn, Hall. lia.
Qed.

End Walk.

Lemma run_trough_spec (drawdown : Series) s e :
  (s <= e)%nat -> (e < length drawdown)%nat ->
  (forall i, (s <= i <= e)%nat -> negative_at drawdown i) ->
  exists trough depth,
    run_trough drawdown s e = Some (trough, depth) /\
    (s <= trough <= e)%nat /\
    nth_error (values drawdown) trough = Some depth /\
    (forall i x, (s <= i <= e)%nat -> nth_error (values drawdown) i = Some x ->
                 fle depth x = true) /\
    (forall i x, (s <= i < trough)%nat -> nth_error (values drawdown) i = Some x ->
                 flt depth x = true).
Proof.
  intros Hse He Hall.
  assert (Hneg : forall i x, (s <= i <= e)%nat ->
            nth_error (values drawdown) i = Some x -> isnan x = false).
  { intros i x Hi Hx. destruct (proj1 (negative_at_value drawdown i) (Hall i Hi))
      as [v [Hv Hlt]]. rewrite Hx in Hv. inversion Hv; subst.
    apply (flt_notna _ _ Hlt). }
  destruct (proj1 (negative_at_value drawdown s) (Hall s ltac:(lia))) as [v [Hv Hlt]].
  destruct (@first_min_exists (slice (values drawdown) s (e + 1))) as [j [m Hjm]].
  { exists 0%nat, v. split.
    - rewrite nth_error_slice by lia. now rewrite Nat.add_0_r.
    - apply (flt_notna _ _ Hlt). }
  destruct (first_min_spec _ Hjm) as [Hnth [_ [Hmin Hfirst]]].
  assert (Hj : (s + j < e + 1)%nat).
  { assert (H : (j < length (slice (values drawdown) s (e + 1)))%nat)
      by (apply nth_error_Some; congruence).
    rewrite slice_length in H by (rewrite values_length; lia). lia. }
  rewrite nth_error_slice in Hnth by lia.
  exists (s + j)%nat, m. unfold run_trough. rewrite Hjm.
  split; [reflexivity|]. split; [lia|]. split; [exact Hnth|]. split.
  - intros i x Hi Hx. apply (Hmin (i - s)%nat).
    + rewrite nth_error_slice by lia. now replace (s + (i - s))%nat with i by lia.
    + apply (Hneg i x); [lia | exact Hx].
  - intros i x Hi Hx. apply (Hfirst (i - s)%nat).
    + lia.
    + rewrite nth_error_slice by lia. now replace (s + (i - s))%nat with i by lia.
    + apply (Hneg i x); [lia | exact Hx].
Qed.

Lemma emitted_for_run_inv self drawdown cum_returns s e ep :
  emitted_for_run self drawdown cum_returns s e = [ep] ->
  exists trough depth,
    run_trough drawdown s e = Some (trough, depth) /\
    exceeds_threshold self depth = true /\
    ep = run_episode drawdown cum_returns s e trough depth.
Proof.
  unfold emitted_for_run.
  destruct (run_trough drawdown s e) as [[tr d]|]; [|discriminate].
  destruct (exceeds_threshold self d) eqn:E; [|discriminate].
  intros H. inversion H. eauto.
Qed.

Lemma nonnegative_not_in_drawdown (drawdown : Series) t v :
  nth_error (values drawdown) t = Some v -> fle fzero v = true ->
  nth_error (in_drawdown_of drawdown) t = Some false.
Proof.
  intros Hv Hle. unfold in_drawdown_of. rewrite nth_error_map, Hv. simpl.
  f_equal. destruct v; simpl in *; try discriminate; auto.
  apply Qlt_bool_false_iff. now apply Qle_bool_iff.
Qed.

Lemma closed_run_in_range (drawdown : Series) s e :
  closed_run drawdown s e -> (s <= e)%nat /\ (e + 1 < length drawdown)%nat.
Proof.
  intros [[Hle _] Hc]. split; auto.
  rewrite <- (in_drawdown_length drawdown). apply nth_error_Some. congruence.
Qed.

Lemma compute_drawdown_episodes_characterised self returns :
  let drawdown := compute_drawdown returns in
  let cum_returns := compute_cumulative_returns returns in
  exists eps, compute_drawdown_episodes self returns = Ok eps /\
  forall ep, In ep eps <->
    (exists s e, closed_run drawdown s e /\
                 emitted_for_run self drawdown cum_returns s e = [ep]) \/
    (exists s, open_run drawdown s /\
               emitted_for_run self drawdown cum_returns s (length drawdown - 1) = [ep]).
Proof.
  intros drawdown cum_returns. unfold compute_drawdown_episodes.
  apply segment_characterised. subst drawdown cum_returns.
  now rewrite compute_cumulative_returns_length, compute_drawdown_length.
Qed.

(** C3.  A run of negative drawdowns that starts at [s] and is ended by a
    drawdown [>= 0] at [t] gives one candidate record: end [t-1], trough
    the first position of the minimum over [s..t-1], depth the drawdown
    there (stored in percent), duration [(t-1) - s + 1]; that record is in
    the output exactly when [|depth| >= threshold/100], and the output
    holds no other record starting at [s]. *)
Theorem closed_episode_record (self : t) (returns : Series) (s t : nat) (v : float) :
  let drawdown := compute_drawdown returns in
  let cum_returns := compute_cumulative_returns returns in
  NoDup (index returns) ->
  (s < t)%nat ->
  negative_run drawdown s (t - 1) ->
  nth_error (values drawdown) t = Some v -> fle fzero v = true ->
  exists eps trough depth,
    compute_drawdown_episodes self returns = Ok eps /\
    (s <= trough <= t - 1)%nat /\
    nth_error (values drawdown) trough = Some depth /\
    (forall i x, (s <= i <= t - 1)%nat -> nth_error (values drawdown) i = Some x ->
                 fle depth x = true) /\
    (forall i x, (s <= i < trough)%nat -> nth_error (values drawdown) i = Some x ->
                 flt depth x = true) /\
    let ep :=
      {| start_date := nth s (index drawdown) 0%Z;
         trough_date := nth trough (index drawdown) 0%Z;
         end_date := nth (t - 1) (index drawdown) 0%Z;
         depth_pct := fmul depth fhundred;
         duration_days := (t - 1 - s + 1)%nat;
         start_value := nth s (values cum_returns) NaN;
         trough_value := nth trough (values cum_returns) NaN |} in
    (In ep eps <->
     fge (fabs depth) (fdiv (drawdown_threshold self) fhundred) = true) /\
    (forall ep', In ep' eps -> start_date ep' = start_date ep -> ep' = ep).
Proof.
  intros drawdown cum_returns Hnodup Hst Hrun Hv Hge.
  pose proof (nonnegative_not_in_drawdown _ _ Hv Hge) as Hstop.
  assert (Hclosed : closed_run drawdown s (t - 1)).
  { split; auto. now replace (t - 1 + 1)%nat with t by lia. }
  destruct (closed_run_in_range Hclosed) as [_ Ht].
  destruct Hrun as [Hle [Hall Hbd]].
  destruct (@run_trough_spec drawdown s (t - 1)) as
    [trough [depth [Htr [Hrange [Hdepth [Hmin Hfirst]]]]]]; auto; [lia|].
  destruct (compute_drawdown_episodes_characterised self returns) as [eps [Heps Hin]].
  fold drawdown cum_returns in Hin.
  exists eps, trough, depth.
  split; [exact Heps|]. split; [exact Hrange|]. split; [exact Hdepth|].
  split; [exact Hmin|]. split; [exact Hfirst|].
  change (let ep := run_episode drawdown cum_returns s (t - 1) trough depth in
          (In ep eps <-> exceeds_threshold self depth = true) /\
          (forall ep', In ep' eps -> start_date ep' = start_date ep -> ep' = ep)).
  intros ep.
  assert (Hidx : NoDup (index drawdown))
    by (unfold drawdown; now rewrite compute_drawdown_index).
  assert (Hsame : forall s', (s' < length drawdown)%nat ->
            nth s' (index drawdown) 0%Z = nth s (index drawdown) 0%Z -> s' = s).
  { intros s' Hs' E. apply (proj1 (NoDup_nth (index drawdown) 0%Z) Hidx);
      rewrite ?index_length; auto; lia. }
  assert (Hfrom : forall ep', In ep' eps -> start_date ep' = start_date ep ->
            ep' = ep /\ exceeds_threshold self depth = true).
  { intros ep' Hin' Hsd. apply Hin in Hin'.
    destruct Hin' as [[s' [e' [Hc' He']]] | [s' [[Hs' Hopen] He']]].
    - destruct (emitted_for_run_inv _ _ _ _ _ He') as [tr' [d' [Htr' [Hth' ->]]]].
      destruct (closed_run_in_range Hc') as [Hle' Hin''].
      assert (s' = s) by (apply Hsame; [lia | exact Hsd]). subst s'.
      assert (e' = (t - 1)%nat) by (eapply closed_run_end_unique; eauto). subst e'.
      rewrite Htr in Htr'. inversion Htr'; subst. auto.
    - exfalso. destruct (emitted_for_run_inv _ _ _ _ _ He') as [tr' [d' [_ [_ ->]]]].
      assert (s' = s) by (apply Hsame; [lia | exact Hsd]). subst s'.
      destruct Hopen as [_ [Hall' _]].
      assert (Hneg : negative_at drawdown t) by (apply Hall'; lia).
      unfold negative_at in Hneg. congruence. }
  split.
  - split.
    + intros Hin'. apply (Hfrom ep Hin' eq_refl).
    + intros Hth. apply Hin. left. exists s, (t - 1)%nat. split; auto.
      unfold emitted_for_run. now rewrite Htr, Hth.
  - intros ep' Hin' Hsd. apply (Hfrom ep' Hin' Hsd).
Qed.


Lemma closed_episode_record_witness :
  exists eps trough depth,
    compute_drawdown_episodes sample_analyzer sample_returns = Ok eps /\
    (1 <= trough <= 2)%nat /\
    nth_error (values (compute_drawdown sample_returns)) trough = Some depth /\
    (In {| start_date := 11%Z; trough_date := nth trough (index sample_returns) 0%Z;
           end_date := 12%Z; depth_pct := fmul depth fhundred; duration_days := 2;
           start_value := nth 1 (values (compute_cumulative_returns sample_returns)) NaN;
           trough_value :=
             nth trough (values (compute_cumulative_returns sample_returns)) NaN |} eps
     <-> fge (fabs depth) (fdiv (Fin 5) fhundred) = true).
Proof.
  destruct (@closed_episode_record sample_analyzer sample_returns 1 3
              (Fin (0 # 1188000000)))
    as [eps [trough [depth [Heps [Hrange [Hdepth [_ [_ [Hin _]]]]]]]]].
  - repeat constructor; simpl; intuition discriminate.
  - lia.
  - split; [simpl; lia|]. split.
    + intros i Hi. assert (E : i = 1%nat \/ i = 2%nat) by (simpl in Hi; lia).
      destruct E as [-> | ->]; reflexivity.
    + right. simpl. intros H. discriminate H.
  - reflexivity.
  - reflexivity.
  - exists eps, trough, depth.
    split; [exact Heps|]. split; [exact Hrange|]. split; [exact Hdepth|].
    rewrite compute_drawdown_index in Hin. exact Hin.
Defined.

(** C5.  When the series ends inside a run of negative drawdowns that
    started at [s], the walk closes it at the last position: end date the
    last timestamp, trough the first position of the minimum over
    [s..last], depth the drawdown there, duration [len - s]; the record is
    in the output exactly when [|depth| >= threshold/100], the same test
    as for a run closed inside the series, and no other record of the
    output starts at [s]. *)
Theorem open_episode_record (self : t) (returns : Series) (s : nat) :
  let drawdown := compute_drawdown returns in
  let cum_returns := compute_cumulative_returns returns in
  let last := (length drawdown - 1)%nat in
  NoDup (index returns) ->
  (s < length drawdown)%nat ->
  negative_run drawdown s last ->
  exists eps trough depth,
    compute_drawdown_episodes self returns = Ok eps /\
    (s <= trough <= last)%nat /\
    nth_error (values drawdown) trough = Some depth /\
    (forall i x, (s <= i <= last)%nat -> nth_error (values drawdown) i = Some x ->
                 fle depth x = true) /\
    (forall i x, (s <= i < trough)%nat -> nth_error (values drawdown) i = Some x ->
                 flt depth x = true) /\
    let ep :=
      {| start_date := nth s (index drawdown) 0%Z;
         trough_date := nth trough (index drawdown) 0%Z;
         end_date := List.last (index drawdown) 0%Z;
         depth_pct := fmul depth fhundred;
         duration_days := (length drawdown - s)%nat;
         start_value := nth s (values cum_returns) NaN;
         trough_value := nth trough (values cum_returns) NaN |} in
    (In ep eps <->
     fge (fabs depth) (fdiv (drawdown_threshold self) fhundred) = true) /\
    (forall ep', In ep' eps -> start_date ep' = start_date ep -> ep' = ep).
Proof.
  intros drawdown cum_returns last Hnodup Hs Hrun.
  assert (Hopen : open_run drawdown s) by (split; auto).
  destruct Hrun as [Hle [Hall Hbd]].
  destruct (@run_trough_spec drawdown s last) as
    [trough [depth [Htr [Hrange [Hdepth [Hmin Hfirst]]]]]]; auto;
    [unfold last; lia|].
  destruct (compute_drawdown_episodes_characterised self returns) as [eps [Heps Hin]].
  fold drawdown cum_returns in Hin.
  exists eps, trough, depth.
  split; [exact Heps|]. split; [exact Hrange|]. split; [exact Hdepth|].
  split; [exact Hmin|]. split; [exact Hfirst|].
  assert (Hrec : run_episode drawdown cum_returns s last trough depth
                 = {| start_date := nth s (index drawdown) 0%Z;
                      trough_date := nth trough (index drawdown) 0%Z;
                      end_date := List.last (index drawdown) 0%Z;
                      depth_pct := fmul depth fhundred;
                      duration_days := (length drawdown - s)%nat;
                      start_value := nth s (values cum_returns) NaN;
                      trough_value := nth trough (values cum_returns) NaN |}).
  { unfold run_episode. f_equal.
    - unfold last. rewrite <- (index_length drawdown).
      destruct (index drawdown) as [|t0 tl] eqn:E using rev_ind; [reflexivity|].
      rewrite last_last, length_app, app_nth2; simpl; [|lia].
      now replace (length tl + 1 - 1 - length tl)%nat with 0%nat by lia.
    - unfold last. lia. }
  rewrite <- Hrec.
  change (let ep := run_episode drawdown cum_returns s last trough depth in
          (In ep eps <-> exceeds_threshold self depth = true) /\
          (forall ep', In ep' eps -> start_date ep' = start_date ep -> ep' = ep)).
  intros ep.
  assert (Hidx : NoDup (index drawdown))
    by (unfold drawdown; now rewrite compute_drawdown_index).
  assert (Hsame : forall s', (s' < length drawdown)%nat ->
            nth s' (index drawdown) 0%Z = nth s (index drawdown) 0%Z -> s' = s).
  { intros s' Hs' E. apply (proj1 (NoDup_nth (index drawdown) 0%Z) Hidx);
      rewrite ?index_length; auto; lia. }
  assert (Hfrom : forall ep', In ep' eps -> start_date ep' = start_date ep ->
            ep' = ep /\ exceeds_threshold self depth = true).
  { intros ep' Hin' Hsd. apply Hin in Hin'.
    destruct Hin' as [[s' [e' [Hc' He']]] | [s' [[Hs' Hopen'] He']]].
    - exfalso. destruct (emitted_for_run_inv _ _ _ _ _ He') as [tr' [d' [_ [_ ->]]]].
      destruct (closed_run_in_range Hc') as [Hle' Hin''].
      assert (s' = s) by (apply Hsame; [lia | exact Hsd]). subst s'.
      destruct Hc' as [_ Hstop].
      assert (Hneg : negative_at drawdown (e' + 1)) by (apply Hall; unfold last; lia).
      unfold negative_at in Hneg. congruence.
    - destruct (emitted_for_run_inv _ _ _ _ _ He') as [tr' [d' [Htr' [Hth' ->]]]].
      assert (s' = s) by (apply Hsame; [lia | exact Hsd]). subst s'.
      fold last in Htr'. rewrite Htr in Htr'. inversion Htr'; subst. auto. }
  split.
  - split.
    + intros Hin'. apply (Hfrom ep Hin' eq_refl).
    + intros Hth. apply Hin. right. exists s. split; auto.
      fold last. unfold emitted_for_run. now rewrite Htr, Hth.
  - intros ep' Hin' Hsd. apply (Hfrom ep' Hin' Hsd).
Qed.

Lemma open_episode_record_witness :
  exists eps,
    compute_drawdown_episodes sample_analyzer sample_returns = Ok eps /\
    exists depth,
      nth_error (values (compute_drawdown sample_returns)) 4 = Some depth /\
      (In {| start_date := 14%Z; trough_date := 14%Z; end_date := 14%Z;
             depth_pct := fmul depth fhundred; duration_days := 1;
             start_value := nth 4 (values (compute_cumulative_returns sample_returns)) NaN;
             trough_value := nth 4 (values (compute_cumulative_returns sample_returns)) NaN |}
          eps
       <-> fge (fabs depth) (fdiv (Fin 5) fhundred) = true).
Proof.
  destruct (@open_episode_record sample_analyzer sample_returns 4)
    as [eps [trough [depth [Heps [Hrange [Hdepth [_ [_ [Hin _]]]]]]]]].
  - repeat constructor; simpl; intuition discriminate.
  - simpl. lia.
  - split; [simpl; lia|]. split.
    + intros i Hi. assert (E : i = 4%nat) by (simpl in Hi; lia).
      subst i. reflexivity.
    + right. simpl. intros H. discriminate H.
  - assert (E : trough = 4%nat) by (simpl in Hrange; lia). subst trough.
    exists eps. split; [exact Heps|]. exists depth. split; [exact Hdepth|].
    rewrite compute_drawdown_index in Hin. exact Hin.
Defined.

(** ** The crash classifier *)

Lemma rolling_windows_length w vs : length (rolling_windows w vs) = length vs.
Proof. unfold rolling_windows. now rewrite length_map, length_seq. Qed.

Lemma rolling_apply_ok window f vs :
  (0 <= window)%Z ->
  rolling_apply window f vs
  = Ok (map (fun win => if (Z.to_nat window <=? count_obs win)%nat then f win else NaN)
            (rolling_windows (Z.to_nat window) vs)).
Proof.
  intros H. unfold rolling_apply, check_window.
  destruct (Z.ltb_spec window 0); [lia | reflexivity].
Qed.

Lemma period_returns_of_ok returns window :
  (1 <= window)%Z ->
  exists period, period_returns_of returns window = Ok period /\
                 length period = length returns.
Proof.
  intros H. unfold period_returns_of.
  destruct (window =? 1)%Z.
  - eexists. split; [reflexivity | apply values_length].
  - rewrite rolling_apply_ok by lia. eexists. split; [reflexivity|].
    now rewrite length_map, rolling_windows_length, length_map, values_length.
Qed.

Lemma eqb_historical_rolling : String.eqb "rolling" "historical" = false.
Proof. reflexivity. Qed.

(** C8.  A method string other than "historical" and "rolling" never
    yields flags: the call raises a ValueError, and for every admissible
    window (1 or more) the error is the one that names the method. *)
Theorem unknown_method_rejected (self : t) (returns : Series) (window : Z)
    (method : string) :
  method <> "historical"%string -> method <> "rolling"%string ->
  (exists msg, identify_crash_events self returns window method
               = Raise (ValueError msg)) /\
  ((1 <= window)%Z ->
   identify_crash_events self returns window method
   = Raise (ValueError ("Unknown method: " ++ method)%string)).
Proof.
  intros Hh Hr.
  assert (Eh : String.eqb method "historical" = false) by now apply String.eqb_neq.
  assert (Er : String.eqb method "rolling" = false) by now apply String.eqb_neq.
  unfold identify_crash_events. split.
  - destruct (period_returns_of returns window) as [period|e] eqn:E; cbn [rbind].
    + rewrite Eh, Er. eauto.
    + unfold period_returns_of in E. destruct (window =? 1)%Z; [discriminate|].
      unfold rolling_apply, check_window in E.
      destruct (window <? 0)%Z; cbn [rbind] in E; [|discriminate].
      inversion E. eauto.
  - intros Hw. destruct (period_returns_of_ok returns Hw) as [period [-> _]].
    cbn [rbind]. now rewrite Eh, Er.
Qed.

Lemma unknown_method_rejected_witness :
  identify_crash_events sample_analyzer sample_returns 5 "expanding"
  = Raise (ValueError "Unknown method: expanding").
Proof.
  apply (@unknown_method_rejected sample_analyzer sample_returns 5 "expanding").
  - discriminate.
  - discriminate.
  - lia.
Defined.

(** ** Quantiles *)

Lemma Qfloor_nat_bounds v :
  0 <= v ->
  inject_Z (Z.of_nat (Qfloor_nat v)) <= v /\
  v < inject_Z (Z.of_nat (Qfloor_nat v)) + 1.
Proof.
  intros Hv. unfold Qfloor_nat.
  assert (H0 : (0 <= Qfloor v)%Z).
  { change 0%Z with (Qfloor 0). now apply Qfloor_resp_le. }
  rewrite Z2Nat.id by exact H0. split.
  - apply Qfloor_le.
  - pose proof (Qlt_floor v) as H. rewrite inject_Z_plus in H. exact H.
Qed.

Lemma inject_Z_of_nat_le a b : (a <= b)%nat <-> inject_Z (Z.of_nat a) <= inject_Z (Z.of_nat b).
Proof. rewrite <- Zle_Qle. lia. Qed.

Lemma inject_Z_of_nat_lt a b : (a < b)%nat <-> inject_Z (Z.of_nat a) < inject_Z (Z.of_nat b).
Proof. rewrite <- Zlt_Qlt. lia. Qed.

Lemma inject_Z_of_nat_S a : inject_Z (Z.of_nat (S a)) == inject_Z (Z.of_nat a) + 1.
Proof. rewrite Nat2Z.inj_succ. unfold Z.succ. now rewrite inject_Z_plus. Qed.

Lemma insert_sorted_Forall (P : float -> Prop) v l :
  P v -> Forall P l -> Forall P (insert_sorted v l).
Proof.
  intros Hv. induction 1 as [|h tl Hh Htl IH]; simpl.
  - auto.
  - destruct (fle v h); repeat constructor; auto.
Qed.

Lemma sort_values_Forall (P : float -> Prop) l :
  Forall P l -> Forall P (sort_values l).
Proof.
  induction 1 as [|h tl Hh _ IH]; simpl; auto.
  now apply insert_sorted_Forall.
Qed.

Lemma insert_sorted_length v l : length (insert_sorted v l) = S (length l).
Proof.
  induction l as [|h tl IH]; simpl; auto.
  destruct (fle v h); simpl; auto.
Qed.

Lemma sort_values_length l : length (sort_values l) = length l.
Proof.
  induction l as [|h tl IH]; simpl; auto.
  now rewrite insert_sorted_length, IH.
Qed.

Lemma dropna_values_finite l :
  Forall finite_or_missing l -> Forall finite (dropna_values l).
Proof.
  induction 1 as [|h tl Hh _ IH]; simpl; auto.
  destruct Hh as [-> | [q ->]]; simpl; auto.
  constructor; auto. now exists q.
Qed.

Lemma finite_nth obs i :
  Forall finite obs -> (i < length obs)%nat -> exists x, nth i obs NaN = Fin x.
Proof.
  intros H Hi. rewrite Forall_forall in H. apply H. now apply nth_In.
Qed.

Lemma valid_crash_quantile p :
  0 <= p -> p <= 100 ->
  valid_quantile (fdiv (Fin p) fhundred) = Some (p / 100) /\
  0 <= p / 100 /\ p / 100 <= 1.
Proof.
  intros H0 H1.
  assert (Hq : 0 <= p / 100 /\ p / 100 <= 1).
  { split.
    - apply Qle_shift_div_l; [reflexivity | lra].
    - apply Qle_shift_div_r; [reflexivity | lra]. }
  split; [|exact Hq]. simpl.
  destruct Hq as [Ha Hb]. apply Qle_bool_iff in Ha, Hb.
  unfold Qdiv in *. now rewrite Ha, Hb.
Qed.

Lemma prep_value_fom l :
  Forall finite_or_missing l -> map prep_value l = l.
Proof.
  induction 1 as [|h tl Hh _ IH]; simpl; auto.
  rewrite IH. f_equal. destruct Hh as [-> | [q ->]]; reflexivity.
Qed.

Lemma in_firstn {A : Type} (x : A) n l : In x (firstn n l) -> In x l.
Proof. intros H. rewrite <- (firstn_skipn n l). apply in_or_app. now left. Qed.

Lemma in_skipn {A : Type} (x : A) n l : In x (skipn n l) -> In x l.
Proof. intros H. rewrite <- (firstn_skipn n l). apply in_or_app. now right. Qed.

Lemma slice_Forall {A : Type} (P : A -> Prop) l a b :
  Forall P l -> Forall P (slice l a b).
Proof.
  intros H. unfold slice. apply Forall_forall. intros x Hx.
  rewrite Forall_forall in H. apply H.
  apply in_firstn in Hx. now apply (in_skipn _ a).
Qed.

Lemma nth_error_map_seq {A : Type} (f : nat -> A) n i :
  (i < n)%nat -> nth_error (map f (seq 0 n)) i = Some (f i).
Proof.
  intros H. rewrite nth_error_map, nth_error_seq.
  destruct (Nat.ltb_spec i n); [reflexivity | lia].
Qed.

Lemma nth_error_combine {A B : Type} (a : list A) (b : list B) i x y :
  nth_error a i = Some x -> nth_error b i = Some y ->
  nth_error (combine a b) i = Some (x, y).
Proof.
  revert b i. induction a as [|x0 a IH]; intros [|y0 b] [|i]; simpl;
    try discriminate; intros Hx Hy.
  - congruence.
  - eauto.
Qed.

Lemma expanding_windows_length vs : length (expanding_windows vs) = length vs.
Proof. unfold expanding_windows. now rewrite length_map, length_seq. Qed.

(** ** The kernels behind the rolling threshold *)

Lemma roll_quantile_at_zero minp w x :
  x == 0 -> roll_quantile_at minp w x = roll_min_at minp w.
Proof.
  intros Hx. unfold roll_quantile_at, roll_min_at. cbv zeta.
  destruct (_ && _); [|reflexivity].
  set (n := length (sort_values (dropna_values w))).
  assert (Hv : x * inject_Z (Z.of_nat (n - 1)) == 0) by (rewrite Hx; ring).
  assert (Hfl : Qfloor_nat (x * inject_Z (Z.of_nat (n - 1))) = 0%nat).
  { unfold Qfloor_nat. now rewrite Hv. }
  rewrite Hfl.
  assert (E : Qeq_bool (x * inject_Z (Z.of_nat (n - 1))) (inject_Z (Z.of_nat 0)) = true).
  { apply Qeq_bool_iff. rewrite Hv. reflexivity. }
  now rewrite E.
Qed.

Lemma roll_quantile_at_one minp w x :
  x == 1 -> roll_quantile_at minp w x = roll_max_at minp w.
Proof.
  intros Hx. unfold roll_quantile_at, roll_max_at. cbv zeta.
  destruct (_ && _); [|reflexivity].
  set (n := length (sort_values (dropna_values w))).
  assert (Hv : x * inject_Z (Z.of_nat (n - 1)) == inject_Z (Z.of_nat (n - 1)))
    by (rewrite Hx; ring).
  assert (Hfl : Qfloor_nat (x * inject_Z (Z.of_nat (n - 1))) = (n - 1)%nat).
  { unfold Qfloor_nat. rewrite Hv, Qfloor_Z. apply Nat2Z.id. }
  rewrite Hfl.
  assert (E : Qeq_bool (x * inject_Z (Z.of_nat (n - 1))) (inject_Z (Z.of_nat (n - 1)))
              = true) by now apply Qeq_bool_iff.
  now rewrite E.
Qed.

(** With an order in [0, 1] the three branches of [expanding().quantile]
    give the interpolating kernel's value. *)
Lemma expanding_quantile_valid vs q x :
  valid_quantile q = Some x ->
  expanding_quantile vs q
  = Ok (map (fun w => roll_quantile_at 1 w x) (expanding_windows vs)).
Proof.
  unfold valid_quantile. destruct q as [| | |y]; try discriminate.
  destruct (Qle_bool 0 y) eqn:E0; [|discriminate].
  destruct (Qle_bool y 1) eqn:E1; [|discriminate].
  cbn [andb]. intros H. inversion H; subst y; clear H.
  apply Qle_bool_iff in E0, E1.
  unfold expanding_quantile. cbv zeta. cbn [feqb fone fzero].
  destruct (Qeq_bool x 1) eqn:Q1.
  { apply Qeq_bool_iff in Q1. f_equal. apply map_ext. intros w.
    symmetry. now apply roll_quantile_at_one. }
  destruct (Qeq_bool x 0) eqn:Q0.
  { apply Qeq_bool_iff in Q0. f_equal. apply map_ext. intros w.
    symmetry. now apply roll_quantile_at_zero. }
  destruct vs as [|v tl]; [reflexivity|].
  unfold roll_quantile. cbn [fle fge fzero fone].
  assert (N1 : ~ x == 1) by (intros C; apply Qeq_bool_iff in C; congruence).
  assert (N0 : ~ x == 0) by (intros C; apply Qeq_bool_iff in C; congruence).
  assert (L0 : Qle_bool x 0 = false).
  { destruct (Qle_bool x 0) eqn:E; [|reflexivity].
    apply Qle_bool_iff in E. exfalso. apply N0. lra. }
  assert (L1 : Qle_bool 1 x = false).
  { destruct (Qle_bool 1 x) eqn:E; [|reflexivity].
    apply Qle_bool_iff in E. exfalso. apply N1. lra. }
  now rewrite L0, L1.
Qed.

Lemma expanding_quantile_length vs q thr :
  expanding_quantile vs q = Ok thr -> length thr = length vs.
Proof.
  unfold expanding_quantile. cbv zeta.
  pose proof (expanding_windows_length vs) as Hl.
  set (ws := expanding_windows vs) in *. clearbody ws.
  destruct (feqb q fone); [intros H; injection H as <-; now rewrite length_map|].
  destruct (feqb q fzero); [intros H; injection H as <-; now rewrite length_map|].
  destruct vs as [|v tl]; [intros H; injection H as <-; reflexivity|].
  unfold roll_quantile. destruct (_ || _); [discriminate|].
  intros H. injection H as <-. now rewrite length_map.
Qed.



(** ** Period returns, row by row *)











(* ================================================================== *)
(** * Facts about the crowding builder *)

Section ZScore.

Variable Qsqrt : Q -> Q.

Lemma rolling_mean_length w minp vs : length (rolling_mean w minp vs) = length vs.
Proof. unfold rolling_mean. now rewrite length_map, rolling_windows_length. Qed.

Lemma rolling_std_length w minp vs : length (rolling_std Qsqrt w minp vs) = length vs.
Proof.
  unfold rolling_std, rolling_var. now rewrite !length_map, rolling_windows_length.
Qed.

Lemma check_rolling_default window :
  (0 <= window)%Z ->
  check_rolling window (window / 2) = Ok (Z.to_nat window, Z.to_nat (window / 2)).
Proof.
  intros H. unfold check_rolling.
  assert (0 <= window / 2)%Z by (apply Z.div_pos; lia).
  assert (window / 2 <= window)%Z by (apply Z.div_le_upper_bound; lia).
  destruct (Z.ltb_spec (window / 2) 0); [lia|].
  destruct (Z.ltb_spec window (window / 2)); [lia | reflexivity].
Qed.

Lemma fdiv_nan_r x : fdiv x NaN = NaN.
Proof. destruct x; reflexivity. Qed.

(** C7.  The z-score never fails with a division by zero; for every
    window of 0 or more it returns a series on the input's index, and at
    every position where the rolling standard deviation (window, minimum
    number of observations [window // 2]) is zero the z-score is NaN. *)
Theorem zero_std_gives_missing (series : Series) (window : Z) :
  (forall min_periods msg,
     compute_zscore Qsqrt series window min_periods <> Raise (ZeroDivisionError msg)) /\
  ((0 <= window)%Z ->
   exists z,
     compute_zscore Qsqrt series window None = Ok z /\
     index z = index series /\
     forall i sd,
       nth_error (rolling_std Qsqrt (Z.to_nat window) (Z.to_nat (window / 2))
                    (values series)) i = Some sd ->
       feqb sd fzero = true ->
       nth_error (values z) i = Some NaN).
Proof.
  split.
  - intros min_periods msg. unfold compute_zscore, check_rolling.
    destruct (_ <? 0)%Z; cbn [rbind]; [discriminate|].
    destruct (_ <? _)%Z; cbn [rbind]; discriminate.
  - intros Hw. unfold compute_zscore. rewrite (check_rolling_default Hw).
    cbn [rbind fst snd].
    set (w := Z.to_nat window). set (m := Z.to_nat (window / 2)).
    assert (Hlen : length (zip_with fdiv
                     (zip_with fsub (values series) (rolling_mean w m (values series)))
                     (map replace_zero_nan (rolling_std Qsqrt w m (values series))))
                   = length series).
    { rewrite !zip_with_length, length_map, rolling_mean_length, rolling_std_length,
        values_length. lia. }
    eexists. split; [reflexivity|]. split.
    + now apply index_with_values.
    + intros i sd Hsd Hz. rewrite values_with_values by exact Hlen.
      assert (Hi : (i < length (values series))%nat).
      { rewrite <- (rolling_std_length w m). apply nth_error_Some. congruence. }
      destruct (nth_error (zip_with fsub (values series)
                             (rolling_mean w m (values series))) i) as [a|] eqn:Ea.
      * rewrite (@nth_error_zip_with fdiv _ _ i a (replace_zero_nan sd) Ea).
        -- unfold replace_zero_nan. rewrite Hz. now rewrite fdiv_nan_r.
        -- rewrite nth_error_map, Hsd. reflexivity.
      * apply nth_error_None in Ea.
        rewrite zip_with_length, rolling_mean_length in Ea. lia.
Qed.

End ZScore.

Lemma zero_std_gives_missing_witness :
  exists z,
    compute_zscore sample_sqrt constant_series 2 None = Ok z /\
    nth_error (values z) 1 = Some NaN.
Proof.
  destruct (proj2 (@zero_std_gives_missing sample_sqrt constant_series 2))
    as [z [Hz [_ Hnan]]].
  - lia.
  - exists z. split; [exact Hz|].
    apply (Hnan 1%nat (Fin 0)); reflexivity.
Defined.

(** ** The co-movement proxy *)

Lemma select_columns_ok (df : DataFrame) names :
  (forall n, In n names -> In n (columns df)) ->
  exists cols, select_columns df names = Ok cols.
Proof.
  induction names as [|n tl IH]; intros H; simpl.
  - eauto.
  - assert (Hn : exists vs, find_column n (df_columns df) = Some vs).
    { specialize (H n (or_introl eq_refl)). unfold columns in H.
      clear -H. induction (df_columns df) as [|[n' vs] cols IHc]; simpl in *; [tauto|].
      destruct (String.eqb_spec n' n); eauto.
      destruct H as [H | H]; [congruence | auto]. }
    destruct Hn as [vs ->].
    destruct IH as [cols ->]; [intros; apply H; now right|].
    simpl. eauto.
Qed.

(** C9.  With fewer than two columns whose name ends in "_ret", the
    co-movement builder raises nothing: it logs the warning and returns
    the table without columns on the input's row labels. *)
Theorem comovement_needs_two_instruments (Qsqrt : Q -> Q) (self : builder)
    (returns : DataFrame) :
  (length (filter (fun col => endswith col "_ret") (columns returns)) < 2)%nat ->
  build_comovement_proxy Qsqrt self returns
  = ([(INFO, "Building co-movement crowding proxy..."%string);
      (WARNING, "Need at least 2 ETFs for correlation proxy"%string)],
     Ok {| df_index := df_index returns; df_columns := [] |}).
Proof.
  intros H. unfold build_comovement_proxy.
  destruct (@select_columns_ok returns
              (filter (fun col => endswith col "_ret") (columns returns)))
    as [cols Hcols].
  { intros n Hn. apply filter_In in Hn. tauto. }
  unfold getitem_list. rewrite Hcols. cbn [rbind].
  destruct (Nat.ltb_spec
              (length (filter (fun col => endswith col "_ret") (columns returns))) 2);
    [reflexivity | lia].
Qed.

Lemma comovement_needs_two_instruments_witness :
  build_comovement_proxy sample_sqrt sample_builder one_etf_table
  = ([(INFO, "Building co-movement crowding proxy..."%string);
      (WARNING, "Need at least 2 ETFs for correlation proxy"%string)],
     Ok {| df_index := [1%Z; 2%Z; 3%Z]; df_columns := [] |}).
Proof.
  apply (@comovement_needs_two_instruments sample_sqrt sample_builder one_etf_table).
  simpl. lia.
Defined.

(** ** Labels, lookups and unions *)

Lemma labels_eqb_eq a b : labels_eqb a b = true <-> a = b.
Proof.
  revert b. induction a as [|x a IH]; intros [|y b]; simpl; split; intros H;
    try discriminate; auto.
  - apply andb_true_iff in H. destruct H as [H1 H2].
    apply Z.eqb_eq in H1. apply IH in H2. congruence.
  - inversion H; subst. rewrite Z.eqb_refl. now apply IH.
Qed.

Lemma mem_label_true t l : mem_label t l = true <-> In t l.
Proof.
  unfold mem_label. rewrite existsb_exists. split.
  - intros [x [Hx E]]. apply Z.eqb_eq in E. now subst.
  - intros H. exists t. split; auto. apply Z.eqb_refl.
Qed.

Lemma has_duplicates_false l : has_duplicates l = false <-> NoDup l.
Proof.
  induction l as [|t tl IH]; simpl.
  - split; [constructor | reflexivity].
  - rewrite orb_false_iff, IH. split.
    + intros [Hm Hn]. constructor; auto.
      intros Hin. apply mem_label_true in Hin. congruence.
    + intros H. inversion H; subst. split; auto.
      destruct (mem_label t tl) eqn:E; auto. apply mem_label_true in E. tauto.
Qed.

Lemma insert_label_perm t l : Permutation (insert_label t l) (t :: l).
Proof.
  induction l as [|h tl IH]; simpl; auto.
  destruct (t <=? h)%Z; auto.
  rewrite IH. apply perm_swap.
Qed.

Lemma sort_labels_perm l : Permutation (sort_labels l) l.
Proof.
  induction l as [|h tl IH]; simpl; auto.
  rewrite insert_label_perm. now constructor.
Qed.

Lemma index_union_in a b t : In t (index_union a b) <-> In t a \/ In t b.
Proof.
  unfold index_union. destruct (labels_eqb a b) eqn:E.
  - apply labels_eqb_eq in E. subst. tauto.
  - split.
    + intros H. apply (Permutation_in _ (sort_labels_perm _)) in H.
      apply in_app_or in H. destruct H as [H | H]; auto.
      apply filter_In in H. tauto.
    + intros H. apply (Permutation_in _ (Permutation_sym (sort_labels_perm _))).
      apply in_or_app. destruct (in_dec Z.eq_dec t a) as [Ha | Ha]; auto.
      destruct H as [H | H]; [tauto|]. right. apply filter_In. split; auto.
      destruct (mem_label t a) eqn:Em; auto. apply mem_label_true in Em. tauto.
Qed.

Lemma index_union_NoDup a b : NoDup a -> NoDup b -> NoDup (index_union a b).
Proof.
  intros Ha Hb. unfold index_union. destruct (labels_eqb a b); auto.
  apply (Permutation_NoDup (Permutation_sym (sort_labels_perm _))).
  apply NoDup_app; auto.
  - now apply NoDup_filter.
  - intros t Hin Hf. apply filter_In in Hf. destruct Hf as [_ Hf].
    apply negb_true_iff in Hf. apply mem_label_true in Hin. congruence.
Qed.

Lemma lookup_absent t (s : Series) : ~ In t (index s) -> lookup t s = NaN.
Proof.
  induction s as [|[t' v] tl IH]; simpl; intros H; auto.
  destruct (Z.eqb_spec t' t); [tauto | auto].
Qed.

Lemma lookup_in (s : Series) t v :
  NoDup (index s) -> In (t, v) s -> lookup t s = v.
Proof.
  induction s as [|[t' v'] tl IH]; simpl; intros Hnd Hin; [tauto|].
  inversion Hnd; subst.
  destruct Hin as [E | Hin].
  - inversion E; subst. now rewrite Z.eqb_refl.
  - destruct (Z.eqb_spec t' t) as [-> | _]; auto.
    exfalso. apply H1. unfold index.
    change t with (fst (t, v)). now apply in_map.
Qed.

Lemma lookup_tabulate (f : Timestamp -> float) l t :
  In t l -> lookup t (map (fun x => (x, f x)) l) = f t.
Proof.
  induction l as [|h tl IH]; simpl; intros H; [tauto|].
  destruct (Z.eqb_spec h t) as [-> | Hne]; auto.
  destruct H as [H | H]; [congruence | auto].
Qed.

Lemma combine_index_values (s : Series) : combine (index s) (values s) = s.
Proof.
  induction s as [|[t v] tl IH]; simpl; auto. now rewrite IH.
Qed.

Lemma index_combine_incl (a : list Timestamp) (b : list float) t :
  In t (index (combine a b)) -> In t a.
Proof.
  unfold index. intros H. apply in_map_iff in H.
  destruct H as [[t' v] [E H]]. simpl in E. subst. now apply in_combine_l in H.
Qed.

Lemma dropna_index_in (s : Series) t :
  NoDup (index s) -> In t (index (dropna s)) -> isnan (lookup t s) = false.
Proof.
  intros Hnd H. unfold index, dropna in H. apply in_map_iff in H.
  destruct H as [[t' v] [E H]]. simpl in E. subst t'.
  apply filter_In in H. destruct H as [Hin Hv]. simpl in Hv.
  rewrite (lookup_in _ _ _ Hnd Hin). unfold notna in Hv.
  now apply negb_true_iff in Hv.
Qed.

Lemma filter_length_all {A : Type} (f : A -> bool) l :
  length (filter f l) = length l -> filter f l = l.
Proof.
  induction l as [|h tl IH]; simpl; auto.
  destruct (f h); simpl; intros H.
  - f_equal. apply IH. lia.
  - pose proof (filter_length_le f tl). lia.
Qed.

Lemma zip_keep_observed vs os :
  Forall (fun v => isnan v = false) vs -> (length vs <= length os)%nat ->
  zip_with (fun v o => if isnan v then o else v) vs os = vs.
Proof.
  intros H. revert os. induction H as [|v vs Hv _ IH]; intros [|o os] Hl; simpl in *;
    auto; try lia.
  rewrite Hv. f_equal. apply IH. lia.
Qed.

(** [combine_first] gives back the caller's values when the other side
    only carries labels at which the caller is observed. *)
Lemma combine_first_keeps_caller (s w out : Series) :
  index w = index (dropna s) ->
  combine_first s w = Ok out ->
  (forall t, In t (index out) <-> In t (index s)) /\
  (forall t, In t (index s) -> lookup t out = lookup t s).
Proof.
  intros Hw. unfold combine_first.
  destruct (labels_eqb (index s) (index w)) eqn:E.
  - apply labels_eqb_eq in E. intros H. inversion H; subst; clear H.
    assert (Hall : dropna s = s).
    { assert (Hl : length (dropna s) = length s).
      { rewrite <- (index_length (dropna s)), <- Hw, <- E. apply index_length. }
      now apply filter_length_all. }
    assert (Hobs : Forall (fun v => isnan v = false) (values s)).
    { apply Forall_forall. intros v Hv. unfold values in Hv.
      apply in_map_iff in Hv. destruct Hv as [[t v'] [Ev Hin]]. simpl in Ev. subst v'.
      rewrite <- Hall in Hin. apply filter_In in Hin. destruct Hin as [_ Hn].
      simpl in Hn. unfold notna in Hn. now apply negb_true_iff in Hn. }
    rewrite zip_keep_observed; auto.
    + rewrite combine_index_values. split; tauto.
    + rewrite !values_length, <- (index_length w), <- E, index_length. lia.
  - destruct (has_duplicates (index s) || has_duplicates (index w)) eqn:Ed;
      [discriminate|].
    apply orb_false_iff in Ed. destruct Ed as [Hs _].
    apply has_duplicates_false in Hs.
    intros H. inversion H; subst; clear H.
    assert (Hsub : forall t, In t (index w) -> In t (index s)).
    { intros t Ht. rewrite Hw in Ht. unfold index, dropna in *.
      apply in_map_iff in Ht. destruct Ht as [r [Er Hr]].
      apply filter_In in Hr. apply in_map_iff. exists r. tauto. }
    assert (Hidx : forall t, In t (index_union (index s) (index w)) <-> In t (index s)).
    { intros t. rewrite index_union_in. split; [intros [?|?]; auto | auto]. }
    split.
    + intros t. rewrite <- Hidx. unfold index at 1. rewrite map_map. simpl.
      now rewrite map_id.
    + intros t Ht. rewrite (lookup_tabulate
        (fun t => if isnan (lookup t s) then lookup t w else lookup t s))
        by now apply Hidx.
      destruct (isnan (lookup t s)) eqn:En; auto.
      rewrite lookup_absent.
      * destruct (lookup t s); simpl in En; congruence.
      * intros Hin. rewrite Hw in Hin.
        rewrite (dropna_index_in _ _ Hs Hin) in En. discriminate.
Qed.

(** ** scipy's winsorize returns, and has the length of its input *)

Lemma insert_by_value_perm p l : Permutation (insert_by_value p l) (p :: l).
Proof.
  induction l as [|h tl IH]; simpl; auto.
  destruct (fle (snd p) (snd h)); auto.
  rewrite IH. apply perm_swap.
Qed.

Lemma argsort_perm a : Permutation (argsort a) (seq 0 (length a)).
Proof.
  unfold argsort.
  assert (H : Permutation (fold_right insert_by_value [] (combine (seq 0 (length a)) a))
                          (combine (seq 0 (length a)) a)).
  { induction (combine (seq 0 (length a)) a) as [|h tl IH]; simpl; auto.
    rewrite insert_by_value_perm. now constructor. }
  rewrite (Permutation_map fst H).
  rewrite map_fst_combine; auto. now rewrite length_seq.
Qed.

Lemma argsort_length a : length (argsort a) = length a.
Proof. rewrite (Permutation_length (argsort_perm a)). apply length_seq. Qed.

Lemma argsort_bound a p : In p (argsort a) -> (p < length a)%nat.
Proof.
  intros H. apply (Permutation_in _ (argsort_perm a)) in H.
  apply in_seq in H. lia.
Qed.

Lemma assign_at_length ps v a : length (assign_at ps v a) = length a.
Proof.
  unfold assign_at. rewrite length_map, length_combine, length_seq. lia.
Qed.

Lemma at_pos_ok {A : Type} (l : list A) i :
  (i < length l)%nat -> exists x, at_pos l i = Ok x /\ In x l.
Proof.
  intros H. unfold at_pos.
  destruct (nth_error l i) as [x|] eqn:E.
  - exists x. split; auto. eapply nth_error_In; eauto.
  - apply nth_error_None in E. lia.
Qed.

Lemma floor_scaled_lt (l : Q) (n : nat) :
  0 <= l -> l < 1 -> (1 <= n)%nat -> (Z.to_nat (Qfloor (l * Qnat n)) < n)%nat.
Proof.
  intros H0 H1 Hn.
  assert (Hq : 0 < Qnat n).
  { unfold Qnat. change 0 with (inject_Z 0). rewrite <- Zlt_Qlt. lia. }
  assert (Hv : 0 <= l * Qnat n) by nra.
  destruct (Qfloor_nat_bounds Hv) as [Hlo _]. unfold Qfloor_nat in Hlo.
  apply inject_Z_of_nat_lt. fold (Qnat n). nra.
Qed.

Lemma floor_scaled_le (u : Q) (n : nat) :
  0 <= u -> u <= 1 -> (Z.to_nat (Qfloor (u * Qnat n)) <= n)%nat.
Proof.
  intros H0 H1.
  assert (Hq : 0 <= Qnat n).
  { unfold Qnat. change 0 with (inject_Z 0). rewrite <- Zle_Qle. lia. }
  assert (Hv : 0 <= u * Qnat n) by nra.
  destruct (Qfloor_nat_bounds Hv) as [Hlo _]. unfold Qfloor_nat in Hlo.
  apply inject_Z_of_nat_le. fold (Qnat n). nra.
Qed.

Lemma check_limit_ok l which :
  0 <= l -> l <= 1 -> check_limit (Fin l) which = Ok tt.
Proof.
  intros H0 H1. unfold check_limit. simpl.
  assert (E1 : Qlt_bool 1 l = false) by now apply Qlt_bool_false_iff.
  assert (E2 : Qlt_bool l 0 = false) by now apply Qlt_bool_false_iff.
  now rewrite E1, E2.
Qed.

Lemma mstats_winsorize_ok (a : list float) (l u : Q) :
  a <> [] -> 0 <= l -> l < 1 -> 0 <= u -> u <= 1 ->
  exists w, mstats_winsorize a (Fin l, Fin u) = Ok w /\ length w = length a.
Proof.
  intros Hne Hl0 Hl1 Hu0 Hu1.
  assert (Hn : (1 <= length a)%nat) by (destruct a; simpl; [congruence | lia]).
  unfold mstats_winsorize.
  rewrite !check_limit_ok by lra. cbn [rbind].
  assert (Hlow : exists a1,
            (if feqb (Fin l) fzero then Ok a
             else rbind (int_of_scaled (Fin l) (length a)) (fun lowidx =>
                  rbind (at_pos (argsort a) lowidx) (fun p =>
                  rbind (at_pos a p) (fun v =>
                  Ok (assign_at (firstn lowidx (argsort a)) v a))))) = Ok a1 /\
            length a1 = length a).
  { destruct (feqb (Fin l) fzero); [eauto|].
    cbn [int_of_scaled rbind].
    destruct (@at_pos_ok _ (argsort a) (Z.to_nat (Qfloor (l * Qnat (length a)))))
      as [p [-> Hp]].
    { rewrite argsort_length. now apply floor_scaled_lt. }
    cbn [rbind].
    destruct (@at_pos_ok _ a p (argsort_bound _ _ Hp)) as [v [-> _]].
    cbn [rbind]. eexists. split; [reflexivity | apply assign_at_length]. }
  destruct Hlow as [a1 [-> Ha1]]. cbn [rbind int_of_scaled].
  pose proof (@floor_scaled_le u (length a) Hu0 Hu1) as Hcut.
  set (cut := Z.to_nat (Qfloor (u * Qnat (length a)))) in *.
  assert (Hpy : exists p, py_index (argsort a) (Z.of_nat (length a - cut) - 1) = Ok p /\
                          In p (argsort a)).
  { unfold py_index. rewrite argsort_length.
    destruct (Z.ltb_spec (Z.of_nat (length a - cut) - 1) 0).
    - destruct (Z.ltb_spec (Z.of_nat (length a - cut) - 1 + Z.of_nat (length a)) 0);
        [lia|].
      apply at_pos_ok. rewrite argsort_length. lia.
    - apply at_pos_ok. rewrite argsort_length. lia. }
  destruct Hpy as [p [-> Hp]]. cbn [rbind].
  destruct (@at_pos_ok _ a1 p) as [v [-> _]].
  { rewrite Ha1. now apply argsort_bound. }
  cbn [rbind]. eexists. split; [reflexivity|].
  now rewrite assign_at_length.
Qed.

Lemma winsorize_limits_usable self :
  usable_percentiles self ->
  exists l u, winsorize_limits self = (Fin l, Fin u) /\
              0 <= l /\ l < 1 /\ 0 <= u /\ u <= 1.
Proof.
  intros [lo [hi [Hlo [Hhi [H0 [H1 [H2 H3]]]]]]].
  exists (lo / 100), ((100 - hi) / 100).
  unfold winsorize_limits. rewrite Hlo, Hhi. split; [reflexivity|].
  repeat split.
  - apply Qle_shift_div_l; [reflexivity | lra].
  - apply Qlt_shift_div_r; [reflexivity | lra].
  - apply Qle_shift_div_l; [reflexivity | lra].
  - apply Qle_shift_div_r; [reflexivity | lra].
Qed.

Lemma NoDup_index_dropna (s : Series) : NoDup (index s) -> NoDup (index (dropna s)).
Proof.
  unfold index, dropna. induction s as [|[t v] tl IH]; simpl; intros H; auto.
  inversion H; subst.
  destruct (notna v); simpl; auto.
  constructor; auto. intros Hin. apply H2.
  apply in_map_iff in Hin. destruct Hin as [r [Er Hr]]. apply filter_In in Hr.
  apply in_map_iff. exists r. tauto.
Qed.

(** Whenever [winsorize_series] returns, every label keeps the value it
    had in the input: [combine_first] prefers the caller, and the caller
    is the series that was not winsorized. *)
Lemma winsorize_series_unchanged (self : builder) (series out : Series) :
  winsorize_series self series = Ok out ->
  (forall t, In t (index out) <-> In t (index series)) /\
  (forall t, In t (index series) -> lookup t out = lookup t series).
Proof.
  unfold winsorize_series, winsorized_part.
  destruct (mstats_winsorize (values (dropna series)) (winsorize_limits self))
    as [w|e] eqn:E; cbn [rbind]; [|discriminate].
  intros H.
  destruct (Nat.eq_dec (length w) (length (dropna series))) as [Hlen | Hlen].
  - apply (@combine_first_keeps_caller series (combine (index (dropna series)) w) out);
      [|exact H].
    apply map_fst_combine. now rewrite index_length.
  - exfalso. clear H. revert E. unfold mstats_winsorize.
    destruct (winsorize_limits self) as [lolim uplim].
    destruct (check_limit lolim "beginning") as [u1|]; cbn [rbind]; [|discriminate].
    destruct (check_limit uplim "end") as [u2|]; cbn [rbind]; [|discriminate].
    set (a := values (dropna series)).
    assert (Ha : length a = length (dropna series)) by apply values_length.
    destruct (feqb lolim fzero).
    + cbn [rbind].
      destruct (int_of_scaled uplim (length a)) as [cut|]; cbn [rbind]; [|discriminate].
      destruct (py_index _ _) as [p|]; cbn [rbind]; [|discriminate].
      destruct (at_pos a p) as [v|]; cbn [rbind]; [|discriminate].
      intros E. inversion E; subst. rewrite assign_at_length in Hlen. lia.
    + destruct (int_of_scaled lolim (length a)) as [lowidx|]; cbn [rbind];
        [|discriminate].
      destruct (at_pos (argsort a) lowidx) as [p0|]; cbn [rbind]; [|discriminate].
      destruct (at_pos a p0) as [v0|]; cbn [rbind]; [|discriminate].
      destruct (int_of_scaled uplim (length a)) as [cut|]; cbn [rbind]; [|discriminate].
      destruct (py_index _ _) as [p|]; cbn [rbind]; [|discriminate].
      destruct (at_pos _ p) as [v|]; cbn [rbind]; [|discriminate].
      intros E. inversion E; subst. rewrite !assign_at_length in Hlen. lia.
Qed.

Lemma winsorize_series_returns (self : builder) (series : Series) :
  usable_percentiles self -> NoDup (index series) -> dropna series <> [] ->
  exists out, winsorize_series self series = Ok out.
Proof.
  intros Hp Hnd Hne.
  destruct (winsorize_limits_usable Hp) as [l [u [Hlim [Hl0 [Hl1 [Hu0 Hu1]]]]]].
  destruct (@mstats_winsorize_ok (values (dropna series)) l u) as [w [Hw Hlen]]; auto.
  { intros C. apply Hne. unfold values in C. now apply map_eq_nil in C. }
  unfold winsorize_series, winsorized_part. rewrite Hlim, Hw. cbn [rbind].
  unfold combine_first.
  destruct (labels_eqb _ _); [eauto|].
  assert (Hi : index (combine (index (dropna series)) w) = index (dropna series)).
  { apply map_fst_combine. now rewrite index_length, Hlen, values_length. }
  rewrite Hi.
  rewrite (proj2 (has_duplicates_false _) Hnd).
  rewrite (proj2 (has_duplicates_false _) (NoDup_index_dropna _ Hnd)).
  simpl. eauto.
Qed.

(** ** Column-wise concatenation and the row mean *)

Lemma position_of_nth_error t l i :
  position_of t l = Some i -> nth_error l i = Some t.
Proof.
  revert i. induction l as [|h tl IH]; intros i; simpl; [discriminate|].
  destruct (Z.eqb_spec h t) as [-> | _].
  - intros H. inversion H. reflexivity.
  - destruct (position_of t tl) as [j|]; simpl; [|discriminate].
    intros H. inversion H. simpl. now apply IH.
Qed.

Lemma position_of_in t l : In t l -> exists i, position_of t l = Some i.
Proof.
  induction l as [|h tl IH]; simpl; [tauto|].
  intros H. destruct (Z.eqb_spec h t) as [-> | Hne]; [eauto|].
  destruct H as [H | H]; [congruence|].
  destruct (IH H) as [i ->]. simpl. eauto.
Qed.

Lemma lookup_combine_position t idx col i :
  position_of t idx = Some i -> lookup t (combine idx col) = nth i col NaN.
Proof.
  revert col i. induction idx as [|h tl IH]; intros col i; simpl; [discriminate|].
  destruct col as [|v col].
  - intros _. simpl. now destruct i.
  - simpl. destruct (Z.eqb_spec h t) as [-> | _].
    + intros H. inversion H. reflexivity.
    + destruct (position_of t tl) as [j|] eqn:E; simpl; [|discriminate].
      intros H. inversion H. simpl. now apply IH.
Qed.

Lemma lookup_combine_tabulate (g : nat -> float) t idx k i :
  position_of t idx = Some i ->
  lookup t (combine idx (map g (seq k (length idx)))) = g (k + i)%nat.
Proof.
  revert k i. induction idx as [|h tl IH]; intros k i; simpl; [discriminate|].
  destruct (Z.eqb_spec h t) as [-> | _].
  - intros H. inversion H. now rewrite Nat.add_0_r.
  - destruct (position_of t tl) as [j|] eqn:E; simpl; [|discriminate].
    intros H. inversion H. rewrite (IH (S k) j eq_refl). f_equal. lia.
Qed.

Lemma map_over_flat_map {A B C : Type} (f : B -> C) (g : A -> list B) l :
  map f (flat_map g l) = flat_map (fun x => map f (g x)) l.
Proof.
  induction l as [|x l IH]; simpl; auto. now rewrite map_app, IH.
Qed.

Lemma flat_map_ext_in {A B : Type} (f g : A -> list B) l :
  (forall x, In x l -> f x = g x) -> flat_map f l = flat_map g l.
Proof.
  induction l as [|x l IH]; simpl; intros H; auto.
  rewrite (H x (or_introl eq_refl)), IH; auto.
Qed.

Lemma concat_union_in a b t : In t (concat_union a b) <-> In t a \/ In t b.
Proof.
  unfold concat_union. rewrite in_app_iff, filter_In. split.
  - intros [H | [H _]]; auto.
  - intros [H | H]; auto.
    destruct (mem_label t a) eqn:Em; [left; now apply mem_label_true | right; auto].
Qed.

Lemma concat_union_NoDup a b : NoDup a -> NoDup b -> NoDup (concat_union a b).
Proof.
  intros Ha Hb. unfold concat_union. apply NoDup_app; auto.
  - now apply NoDup_filter.
  - intros t Hin Hf. apply filter_In in Hf. destruct Hf as [_ Hf].
    apply negb_true_iff in Hf. apply mem_label_true in Hin. congruence.
Qed.

Lemma concat_union_same a : concat_union a a = a.
Proof.
  unfold concat_union.
  assert (E : filter (fun t => negb (mem_label t a)) a = []).
  { generalize (fun t => proj2 (mem_label_true t a)).
    generalize a at 1 4. intros b. induction b as [|h tl IH]; intros H; [reflexivity|].
    cbn [filter]. rewrite (H h) by now left. cbn [negb].
    apply IH. intros t Ht. apply H. now right. }
  rewrite E. apply app_nil_r.
Qed.

Lemma fold_concat_union_in t (L : list (list Timestamp)) a :
  In t (fold_left concat_union L a) <-> In t a \/ exists b, In b L /\ In t b.
Proof.
  revert a. induction L as [|b L IH]; intros a; simpl.
  - split; [auto | intros [H | [b [[] _]]]; auto].
  - rewrite IH, concat_union_in. split.
    + intros [[H | H] | [c [Hc H]]]; eauto.
    + intros [H | [c [[-> | Hc] H]]]; eauto.
Qed.

Lemma fold_concat_union_NoDup (L : list (list Timestamp)) a :
  NoDup a -> Forall (@NoDup Timestamp) L -> NoDup (fold_left concat_union L a).
Proof.
  intros Ha HL. revert a Ha. induction HL as [|b L Hb _ IH]; intros a Ha; simpl; auto.
  apply IH. now apply concat_union_NoDup.
Qed.

Lemma fold_concat_union_same (L : list (list Timestamp)) a :
  Forall (fun b => a = b) L -> fold_left concat_union L a = a.
Proof.
  induction 1 as [|b L Hb _ IH]; simpl; auto.
  subst b. now rewrite concat_union_same.
Qed.

Lemma concat_index_in dfs t :
  In t (concat_index dfs) <-> exists d, In d dfs /\ In t (df_index d).
Proof.
  destruct dfs as [|d tl]; simpl.
  - split; [tauto | intros [d [[] _]]].
  - rewrite fold_concat_union_in. split.
    + intros [H | [b [Hb H]]]; [eauto|].
      apply in_map_iff in Hb. destruct Hb as [d' [<- Hd']]. eauto.
    + intros [d' [[<- | Hd'] H]]; [auto|].
      right. exists (df_index d'). split; auto. now apply in_map.
Qed.

Lemma concat_index_NoDup dfs :
  Forall (fun d => NoDup (df_index d)) dfs -> NoDup (concat_index dfs).
Proof.
  intros H. destruct H as [|d tl Hd Htl]; simpl; [constructor|].
  apply fold_concat_union_NoDup; auto.
  apply Forall_forall. intros b Hb. apply in_map_iff in Hb.
  destruct Hb as [d' [<- Hd']]. rewrite Forall_forall in Htl. auto.
Qed.

Lemma all_same_index_eq dfs :
  all_same_index dfs = true ->
  forall d, In d dfs -> df_index d = concat_index dfs.
Proof.
  destruct dfs as [|d0 tl]; simpl; [tauto|].
  intros H. rewrite forallb_forall in H.
  assert (E : fold_left concat_union (map df_index tl) (df_index d0) = df_index d0).
  { apply fold_concat_union_same. apply Forall_forall. intros b Hb.
    apply in_map_iff in Hb. destruct Hb as [d' [<- Hd']].
    now apply labels_eqb_eq, H. }
  rewrite E. intros d [<- | Hd]; auto.
  symmetry. now apply labels_eqb_eq, H.
Qed.

(** The concatenated table exists, carries the union of the row labels,
    and its row for label [t] lists the cells of all the tables at [t]. *)
Lemma concat_columns_rows dfs :
  dfs <> [] -> Forall (fun d => NoDup (df_index d)) dfs ->
  exists all,
    concat_columns dfs = Ok all /\
    df_index all = concat_index dfs /\
    forall t i, position_of t (concat_index dfs) = Some i ->
                row all i = cells_at dfs t.
Proof.
  intros Hne Hnd. unfold concat_columns.
  destruct dfs as [|d0 tl] eqn:Edfs; [congruence|]. rewrite <- Edfs in *.
  destruct (all_same_index dfs) eqn:Esame.
  - eexists. split; [reflexivity|]. split; [reflexivity|].
    intros t i Hpos. unfold row, cells_at. cbn [df_columns].
    rewrite map_over_flat_map. apply flat_map_ext_in. intros d Hd.
    apply map_ext. intros c.
    rewrite (all_same_index_eq _ Esame d Hd).
    symmetry. now apply lookup_combine_position.
  - assert (Hdup : existsb (fun d => has_duplicates (df_index d)) dfs = false).
    { apply not_true_is_false. intros C. apply existsb_exists in C.
      destruct C as [d [Hd C]]. rewrite Forall_forall in Hnd.
      rewrite (proj2 (has_duplicates_false _) (Hnd d Hd)) in C. discriminate. }
    rewrite Hdup. eexists. split; [reflexivity|]. split; [reflexivity|].
    intros t i Hpos. unfold row, cells_at. cbn [df_columns].
    rewrite map_over_flat_map. apply flat_map_ext_in. intros d Hd.
    unfold reindex_frame. rewrite map_map. apply map_ext. intros c. cbn [snd].
    pose proof (position_of_nth_error _ _ Hpos) as Hn.
    assert (Hi : (i < length (concat_index dfs))%nat)
      by (apply nth_error_Some; congruence).
    rewrite (nth_indep _ NaN (lookup 0%Z (combine (df_index d) (snd c))))
      by now rewrite length_map.
    rewrite (map_nth (fun t0 => lookup t0 (combine (df_index d) (snd c)))).
    f_equal. rewrite (nth_error_nth _ _ _ Hn). reflexivity.
Qed.

Lemma mean_axis1_lookup (df : DataFrame) t i :
  position_of t (df_index df) = Some i ->
  lookup t (mean_axis1 df) = nanmean (row df i).
Proof.
  intros H. unfold mean_axis1.
  now rewrite (lookup_combine_tabulate (fun i => nanmean (row df i)) _ _ 0 H).
Qed.

Lemma mean_axis1_index (df : DataFrame) : index (mean_axis1 df) = df_index df.
Proof.
  unfold mean_axis1, index. apply map_fst_combine.
  now rewrite length_map, length_seq.
Qed.

Lemma nanmean_cases cells :
  let present := dropna_values cells in
  (present = [] -> nanmean cells = NaN) /\
  (present <> [] ->
   nanmean cells = fdiv (fsum present) (Fin (Qnat (length present)))).
Proof.
  intros present. unfold nanmean. fold present.
  destruct present; split; intros H; congruence.
Qed.

(** ** The composite index *)

(** Where the aggregation returns.  For at least one component table,
    each with distinct row labels: the composite index lives on the union
    of the row labels, and at every timestamp its value is the arithmetic
    mean of the component values present there, NaN when none is
    present.  This is what the aggregation returns without
    winsorization; with winsorization the call returns whenever the
    percentiles are usable and some timestamp has a non-missing mean, and
    the values are the same, since [winsorize_series] leaves every value
    as it was. *)
Theorem composite_is_mean_of_present (self : builder) (component_dfs : list DataFrame)
    (winsorize : bool) :
  component_dfs <> [] ->
  Forall (fun d => NoDup (df_index d)) component_dfs ->
  (winsorize = true ->
   usable_percentiles self /\
   exists t, In t (concat_index component_dfs) /\
             isnan (nanmean (cells_at component_dfs t)) = false) ->
  exists log composite,
    build_composite_index self component_dfs winsorize = (log, Ok composite) /\
    (forall t, In t (index composite) <->
               exists d, In d component_dfs /\ In t (df_index d)) /\
    forall t, In t (index composite) ->
      let present := dropna_values (cells_at component_dfs t) in
      (present = [] -> lookup t composite = NaN) /\
      (present <> [] ->
       lookup t composite = fdiv (fsum present) (Fin (Qnat (length present)))).
Proof.
  intros Hne Hnd Hwin.
  destruct (concat_columns_rows Hne Hnd) as [all [Hall [Hidx Hrows]]].
  assert (Hmean : forall t, In t (concat_index component_dfs) ->
            lookup t (mean_axis1 all) = nanmean (cells_at component_dfs t)).
  { intros t Ht. destruct (position_of_in _ _ Ht) as [i Hi].
    rewrite (@mean_axis1_lookup all t i) by now rewrite Hidx.
    now rewrite (Hrows t i Hi). }
  assert (Hmi : index (mean_axis1 all) = concat_index component_dfs)
    by now rewrite mean_axis1_index.
  unfold build_composite_index. rewrite Hall.
  destruct winsorize.
  - destruct (Hwin eq_refl) as [Hp [t0 [Ht0 Hobs]]].
    destruct (@winsorize_series_returns self (mean_axis1 all)) as [out Hout]; auto.
    { rewrite Hmi. now apply concat_index_NoDup. }
    { intros C.
      assert (Hin : In t0 (index (dropna (mean_axis1 all)))).
      { unfold index, dropna.
        assert (Hrow : In (t0, lookup t0 (mean_axis1 all)) (mean_axis1 all)).
        { rewrite <- Hmi in Ht0. unfold index in Ht0. apply in_map_iff in Ht0.
          destruct Ht0 as [[t' v] [E Hin]]. simpl in E. subst t'.
          rewrite (lookup_in (mean_axis1 all) t0 v); auto.
          rewrite Hmi. now apply concat_index_NoDup. }
        apply in_map_iff. exists (t0, lookup t0 (mean_axis1 all)). split; auto.
        apply filter_In. split; auto. simpl. unfold notna.
        now rewrite (Hmean t0 Ht0), Hobs. }
      rewrite C in Hin. exact Hin. }
    rewrite Hout. destruct (winsorize_series_unchanged _ _ Hout) as [Hio Hlo].
    eexists _, out. split; [reflexivity|]. split.
    + intros t. now rewrite Hio, Hmi, concat_index_in.
    + intros t Ht. apply Hio in Ht. rewrite (Hlo t Ht).
      rewrite Hmi in Ht. rewrite (Hmean t Ht). apply nanmean_cases.
  - eexists _, (mean_axis1 all). split; [reflexivity|]. split.
    + intros t. now rewrite Hmi, concat_index_in.
    + intros t Ht. rewrite Hmi in Ht. rewrite (Hmean t Ht). apply nanmean_cases.
Qed.

Lemma composite_is_mean_of_present_witness :
  exists log composite,
    build_composite_index sample_builder sample_components true = (log, Ok composite) /\
    lookup 2%Z composite = fdiv (fsum [Fin 2; Fin 4; Fin 6]) (Fin (Qnat 3)) /\
    lookup 3%Z composite = NaN.
Proof.
  destruct (@composite_is_mean_of_present sample_builder sample_components true)
    as [log [composite [Hrun [Hidx Hval]]]].
  - discriminate.
  - repeat constructor; simpl; intuition discriminate.
  - intros _. split.
    + exists 25, 75. repeat split; try reflexivity; discriminate.
    + exists 2%Z. split; [simpl; auto | reflexivity].
  - exists log, composite. split; [exact Hrun|]. split.
    + refine (proj2 (Hval 2%Z _) _).
      * apply Hidx. eexists. split; [left; reflexivity | simpl; auto].
      * discriminate.
    + refine (proj1 (Hval 3%Z _) _).
      * apply Hidx. eexists. split; [right; left; reflexivity | simpl; auto].
      * reflexivity.
Defined.

(** ** Winsorization *)

(** A series (or a composite) without any observed value: the
    non-missing part handed to scipy is empty, its winsorize indexes the
    empty argsort, and the call raises IndexError.  Without the
    winsorization step the composite of an all-missing table is the
    all-missing series. *)
Example winsorize_series_raises_when_all_missing :
  winsorize_series sample_builder [(1%Z, NaN); (2%Z, NaN)]
  = Raise (IndexError "index out of bounds") /\
  build_composite_index sample_builder [all_missing_table] true
  = ([(INFO, "Building composite crowding index..."%string)],
     Raise (IndexError "index out of bounds")) /\
  build_composite_index sample_builder [all_missing_table] false
  = ([(INFO, "Building composite crowding index..."%string);
      (INFO, "Composite index created from 1 components"%string)],
     Ok [(1%Z, NaN); (2%Z, NaN)]).
Proof. vm_compute. repeat split. Qed.

(** C6, at an input where the code departs from it.  On a table whose
    only component is missing at both timestamps (j = 0 everywhere) the
    row means are missing.  Called without winsorization the aggregation
    returns them, missing at both timestamps, as the claim says; the
    default call hands the empty non-missing part to
    [winsorize_series] and ends in IndexError: no composite is
    returned. *)
Theorem composite_raises_when_all_missing :
  dropna_values (cells_at [all_missing_table] 1%Z) = [] /\
  dropna_values (cells_at [all_missing_table] 2%Z) = [] /\
  snd (build_composite_index sample_builder [all_missing_table] false)
  = Ok [(1%Z, NaN); (2%Z, NaN)] /\
  build_composite_index sample_builder [all_missing_table] true
  = ([(INFO, "Building composite crowding index..."%string)],
     Raise (IndexError "index out of bounds")).
Proof. vm_compute. repeat split. Qed.

(** C1, at an input where the code departs from it.  With percentiles
    (25, 75) and the series 1, 2, 3, 100, scipy caps the non-missing
    values to 2, 2, 3, 3, so the bounds are [2, 3]; the value returned by
    [winsorize_series] is the input itself, 1 and 100 included. *)
Theorem winsorize_series_keeps_outliers :
  winsorized_part sample_builder outlier_series
  = Ok [(1%Z, Fin 2); (2%Z, Fin 2); (3%Z, Fin 3); (4%Z, Fin 3)] /\
  winsorize_series sample_builder outlier_series = Ok outlier_series /\
  lookup 4%Z outlier_series = Fin 100 /\
  fle (Fin 100) (Fin 3) = false.
Proof. vm_compute. repeat split. Qed.

(** ** The flow-attention proxy *)

Section FlowAttention.

Variable Qsqrt : Q -> Q.

Lemma compute_zscore_returns (series : Series) (window : Z) :
  (0 <= window)%Z ->
  exists z, compute_zscore Qsqrt series window None = Ok z /\ index z = index series.
Proof.
  intros Hw. unfold compute_zscore. rewrite (check_rolling_default Hw).
  cbn [rbind fst snd]. eexists. split; [reflexivity|].
  apply index_with_values.
  rewrite !zip_with_length, length_map, rolling_mean_length, rolling_std_length,
    values_length. lia.
Qed.

Lemma find_column_in name cols :
  In name (map fst cols) -> exists vs, find_column name cols = Some vs /\ In (name, vs) cols.
Proof.
  induction cols as [|[n vs] tl IH]; simpl; [tauto|].
  intros H. destruct (String.eqb_spec n name) as [-> | Hne]; [eauto|].
  destruct H as [H | H]; [congruence|].
  destruct (IH H) as [vs' [-> Hin]]. eauto.
Qed.

Lemma getitem_ok (df : DataFrame) name :
  well_formed df -> In name (columns df) ->
  exists s, getitem df name = Ok s /\ index s = df_index df.
Proof.
  intros Hwf Hin. unfold getitem.
  destruct (find_column_in _ _ Hin) as [vs [-> Hvs]].
  eexists. split; [reflexivity|].
  unfold index. apply map_fst_combine.
  unfold well_formed in Hwf. rewrite Forall_forall in Hwf.
  symmetry. apply (Hwf _ Hvs).
Qed.

Lemma set_column_names name vs cols c :
  In c (map fst (set_column name vs cols)) <-> c = name \/ In c (map fst cols).
Proof.
  induction cols as [|[n v] tl IH]; simpl.
  - split; [intros [H | []]; auto | intros [H | []]; auto].
  - destruct (String.eqb_spec n name) as [-> | Hne]; simpl.
    + split; [intros [H | H]; auto | intros [H | [H | H]]; auto].
    + rewrite IH. split; [intros [H | [H | H]]; auto | intros [H | [H | H]]; auto].
Qed.

Lemma setitem_ok (df : DataFrame) name (s : Series) :
  index s = df_index df ->
  exists df', setitem df name s = Ok df' /\
              df_index df' = df_index df /\
              forall c, In c (columns df') <-> c = name \/ In c (columns df).
Proof.
  intros Hidx. unfold setitem, reindex.
  rewrite (proj2 (labels_eqb_eq _ _) Hidx). cbn [rbind].
  eexists. split; [reflexivity|]. split; [reflexivity|].
  intros c. unfold columns. cbn [df_columns]. apply set_column_names.
Qed.

Lemma existsb_eqb_in name names :
  existsb (String.eqb name) names = true <-> In name names.
Proof.
  rewrite existsb_exists. split.
  - intros [x [Hx E]]. apply String.eqb_eq in E. now subst.
  - intros H. exists name. split; auto. apply String.eqb_refl.
Qed.

Variables (self : builder) (returns volumes : DataFrame).
Hypothesis short_ok : (0 <= short_window self)%Z.
Hypothesis medium_ok : (0 <= medium_window self)%Z.
Hypothesis returns_wf : well_formed returns.
Hypothesis volumes_wf : well_formed volumes.
Hypothesis aligned : df_index volumes = df_index returns.

Lemma flow_attention_ticker_ok (components : DataFrame) (ticker : string) :
  df_index components = df_index returns ->
  In ticker (columns returns) ->
  exists components',
    flow_attention_ticker Qsqrt self returns volumes components ticker = Ok components' /\
    df_index components' = df_index returns /\
    forall c, In c (columns components') <->
              In c (columns components) \/ flow_attention_names volumes ticker c.
Proof.
  intros Hidx Hin. unfold flow_attention_ticker, flow_attention_names.
  destruct (endswith ticker "_ret") eqn:Eend.
  2:{ exists components. split; [reflexivity|]. split; [exact Hidx|].
      intros c. split; [auto | intros [H | [H _]]; [auto | discriminate]]. }
  set (name := str_replace ticker "_ret" "").
  (* the optional volume z-score *)
  assert (Hvol : exists components1,
            (if existsb (String.eqb (name ++ "_vol")%string) (columns volumes)
             then rbind (getitem volumes (name ++ "_vol")%string) (fun volume =>
                  rbind (compute_zscore Qsqrt volume (short_window self) None)
                        (fun vol_zscore =>
                  setitem components (name ++ "_vol_zscore")%string vol_zscore))
             else Ok components) = Ok components1 /\
            df_index components1 = df_index returns /\
            forall c, In c (columns components1) <->
                      In c (columns components) \/
                      (c = (name ++ "_vol_zscore")%string /\
                       In (name ++ "_vol")%string (columns volumes))).
  { destruct (existsb (String.eqb (name ++ "_vol")%string) (columns volumes)) eqn:Ev.
    - apply existsb_eqb_in in Ev.
      destruct (@getitem_ok volumes _ volumes_wf Ev) as [volume [-> Hvi]]. cbn [rbind].
      destruct (@compute_zscore_returns volume _ short_ok) as [z [-> Hzi]]. cbn [rbind].
      destruct (@setitem_ok components (name ++ "_vol_zscore")%string z)
        as [c1 [-> [Hc1 Hcols]]]; [congruence|].
      exists c1. split; [reflexivity|]. split; [congruence|].
      intros c. rewrite Hcols. tauto.
    - exists components. split; [reflexivity|]. split; [exact Hidx|].
      intros c. split; [auto | intros [H | [_ H]]; auto].
      apply existsb_eqb_in in H. congruence. }
  destruct Hvol as [components1 [-> [Hidx1 Hcols1]]]. cbn [rbind].
  destruct (@getitem_ok returns _ returns_wf Hin) as [ret [-> Hri]]. cbn [rbind].
  rewrite rolling_apply_ok by exact medium_ok. cbn [rbind].
  set (cum_return := with_values ret _).
  assert (Hci : index cum_return = index ret).
  { apply index_with_values.
    now rewrite length_map, rolling_windows_length, length_map, values_length. }
  destruct (@compute_zscore_returns cum_return _ medium_ok) as [rz [-> Hrz]]. cbn [rbind].
  destruct (@setitem_ok components1 (name ++ "_ret_zscore")%string rz)
    as [components2 [-> [Hidx2 Hcols2]]]; [congruence|]. cbn [rbind].
  assert (Hq : exists thr, series_quantile (values ret) (Fin (5 # 100)) = Ok thr).
  { unfold series_quantile. simpl valid_quantile.
    destruct (dropna_values (values ret)); eauto. }
  destruct Hq as [thr ->]. cbn [rbind].
  unfold check_window. destruct (Z.ltb_spec (short_window self) 0); [lia|].
  cbn [rbind].
  set (crash_freq := with_values ret _).
  assert (Hfi : index crash_freq = index ret).
  { apply index_with_values. unfold rolling_sum.
    now rewrite length_map, rolling_windows_length, length_map, values_length. }
  destruct (@compute_zscore_returns crash_freq _ short_ok) as [cz [-> Hcz]]. cbn [rbind].
  destruct (@setitem_ok components2 (name ++ "_crash_freq")%string cz)
    as [components3 [-> [Hidx3 Hcols3]]]; [congruence|].
  exists components3. split; [reflexivity|]. split; [congruence|].
  intros c. rewrite Hcols3, Hcols2, Hcols1. tauto.
Qed.

Lemma flow_attention_loop_ok (tickers : list string) (components : DataFrame) :
  df_index components = df_index returns ->
  (forall ticker, In ticker tickers -> In ticker (columns returns)) ->
  exists components',
    flow_attention_loop Qsqrt self returns volumes tickers components = Ok components' /\
    df_index components' = df_index returns /\
    forall c, In c (columns components') <->
              In c (columns components) \/
              exists ticker, In ticker tickers /\ flow_attention_names volumes ticker c.
Proof.
  revert components. induction tickers as [|ticker tl IH]; intros components Hidx Hsub.
  - exists components. split; [reflexivity|]. split; [exact Hidx|].
    intros c. split; [auto | intros [H | [t [[] _]]]; auto].
  - simpl.
    destruct (@flow_attention_ticker_ok components ticker Hidx)
      as [c1 [-> [Hidx1 Hcols1]]]; [apply Hsub; now left|]. cbn [rbind].
    destruct (IH c1 Hidx1) as [c2 [-> [Hidx2 Hcols2]]];
      [intros t Ht; apply Hsub; now right|].
    exists c2. split; [reflexivity|]. split; [exact Hidx2|].
    intros c. rewrite Hcols2, Hcols1. split.
    + intros [[H | H] | [t [Ht H]]].
      * now left.
      * right. exists ticker. split; [now left | exact H].
      * right. exists t. split; [now right | exact H].
    + intros [H | [t [[<- | Ht] H]]].
      * left. now left.
      * left. now right.
      * right. exists t. split; assumption.
Qed.

End FlowAttention.

(** C10 as stated fails on the words "a warning is logged": when the
    volume column of an instrument is absent the builder skips the
    volume z-score without writing anything; its log holds the two INFO
    records only. *)
Lemma flow_attention_no_warning_counterexample :
  fst (build_flow_attention_proxy sample_sqrt sample_builder one_etf_table no_volume_table)
  = [(INFO, "Building flow-attention crowding proxy..."%string);
     (INFO, "Flow-attention proxy created with 2 components"%string)] /\
  existsb is_warning
    (fst (build_flow_attention_proxy sample_sqrt sample_builder one_etf_table
            no_volume_table)) = false /\
  In "MTUM_ret"%string (columns one_etf_table) /\
  ~ In "MTUM_vol"%string (columns no_volume_table).
Proof.
  split; [reflexivity|]. split; [reflexivity|]. split; [simpl; auto|].
  simpl. tauto.
Qed.

(** C10, amended.  On aligned, well-formed return and volume tables and
    windows of 0 or more, the flow-attention builder returns a table on
    the rows of the returns whose columns are exactly these: for every
    column of the returns ending in "_ret", the return z-score and the
    crash frequency of that instrument, and its volume z-score exactly
    when the matching volume column is present.  A missing volume column
    therefore removes that one component only, and no warning is logged
    on any input. *)
Theorem flow_attention_skips_missing_volume (Qsqrt : Q -> Q) (self : builder)
    (returns volumes : DataFrame) :
  (0 <= short_window self)%Z -> (0 <= medium_window self)%Z ->
  well_formed returns -> well_formed volumes ->
  df_index volumes = df_index returns ->
  exists log components,
    build_flow_attention_proxy Qsqrt self returns volumes = (log, Ok components) /\
    existsb is_warning log = false /\
    df_index components = df_index returns /\
    forall c, In c (columns components) <->
      exists ticker, In ticker (columns returns) /\
                     flow_attention_names volumes ticker c.
Proof.
  intros Hs Hm Hr Hv Ha.
  destruct (@flow_attention_loop_ok Qsqrt self returns volumes Hs Hm Hr Hv Ha
              (columns returns) (empty_frame (df_index returns)))
    as [components [Hloop [Hidx Hcols]]]; auto.
  unfold build_flow_attention_proxy. rewrite Hloop.
  eexists _, components. split; [reflexivity|]. split; [reflexivity|].
  split; [exact Hidx|].
  intros c. rewrite Hcols. split.
  - intros [[] | H]. exact H.
  - intros H. now right.
Qed.

Lemma flow_attention_skips_missing_volume_witness :
  exists log components,
    build_flow_attention_proxy sample_sqrt sample_builder one_etf_table no_volume_table
    = (log, Ok components) /\
    In "MTUM_ret_zscore"%string (columns components) /\
    In "MTUM_crash_freq"%string (columns components) /\
    ~ In "MTUM_vol_zscore"%string (columns components).
Proof.
  destruct (@flow_attention_skips_missing_volume sample_sqrt sample_builder
              one_etf_table no_volume_table)
    as [log [components [Hrun [_ [_ Hcols]]]]].
  - simpl. lia.
  - simpl. lia.
  - repeat constructor.
  - constructor.
  - reflexivity.
  - exists log, components. split; [exact Hrun|].
    split; [|split].
    + apply Hcols. exists "MTUM_ret"%string. split; [simpl; auto|].
      split; [reflexivity|]. left. reflexivity.
    + apply Hcols. exists "MTUM_ret"%string. split; [simpl; auto|].
      split; [reflexivity|]. right. left. reflexivity.
    + intros H. apply Hcols in H. destruct H as [ticker [Ht [_ Hn]]].
      simpl in Ht. destruct Ht as [<- | [<- | []]]; simpl in Hn;
        destruct Hn as [Hn | [Hn | [_ Hn]]]; try discriminate; exact Hn.
Defined.

(* ================================================================== *)
(** * Further facts: wealth and running peak *)

Import DrawdownAnalyzer.

Lemma cumprod_head (gs : list float) (g : float) :
  nth_error gs 0 = Some g -> nth_error (cumprod gs) 0 = Some g.
Proof.
  destruct gs as [|g0 tl]; [discriminate|].
  cbn [nth_error]. intros H. inversion H; subst g0.
  unfold cumprod. cbn [map np_cumprod zip_with nth_error].
  now destruct g.
Qed.

(** X1.  The wealth index skips missing returns.  On returns that are
    missing or finite and above -1, the wealth is missing exactly where
    the return is missing, and a non-negative value everywhere else: a
    missing return does not make the later wealth missing.  The first
    wealth value is [1 + r] for the first return [r]. *)
Theorem wealth_observed_where_return_is (returns : Series) :
  Forall admissible_return (values returns) ->
  (forall r, nth_error (values returns) 0 = Some r ->
     nth_error (values (compute_cumulative_returns returns)) 0 = Some (fadd fone r)) /\
  (forall i r, nth_error (values returns) i = Some r ->
     exists w,
       nth_error (values (compute_cumulative_returns returns)) i = Some w /\
       (r = NaN -> w = NaN) /\
       (r <> NaN -> isnan w = false /\ fle fzero w = true)).
Proof.
  intros Hadm. rewrite compute_cumulative_returns_values. split.
  - intros r Hr. apply cumprod_head. now rewrite nth_error_map, Hr.
  - intros i r Hr.
    pose proof (cumprod_shape (admissible_growth Hadm)) as Hw.
    assert (Hgi : nth_error (map (fadd fone) (values returns)) i = Some (fadd fone r)).
    { rewrite nth_error_map, Hr. reflexivity. }
    destruct (Forall2_nth_error_left Hw _ Hgi) as [w [Hwi Hrel]].
    exists w. split; [exact Hwi|]. split.
    + intros ->. destruct Hrel as [[_ ->] | [Hne _]]; [reflexivity|].
      exfalso. apply Hne. reflexivity.
    + intros Hne. destruct Hrel as [[Hnan _] | [_ [q [-> Hq]]]].
      * exfalso. destruct r; simpl in Hnan; try discriminate. now apply Hne.
      * split; [reflexivity|]. cbn [fle fzero]. apply Qle_bool_iff. lra.
Qed.

Lemma wealth_observed_where_return_is_witness :
  nth_error (values (compute_cumulative_returns sample_returns)) 0
  = Some (fadd fone (Fin (1 # 10))) /\
  exists w,
    nth_error (values (compute_cumulative_returns sample_returns)) 2 = Some w /\
    isnan w = false /\ fle fzero w = true.
Proof.
  assert (Hadm : Forall admissible_return (values sample_returns)).
  { unfold sample_returns. simpl.
    repeat (apply Forall_cons; [right; eexists; split; reflexivity|]).
    apply Forall_nil. }
  destruct (@wealth_observed_where_return_is sample_returns Hadm) as [Hfirst Hall].
  split.
  - apply Hfirst. reflexivity.
  - destruct (Hall 2%nat (Fin (- (1 # 10))) eq_refl) as [w [Hw [_ Hobs]]].
    exists w. split; [exact Hw|]. apply Hobs. discriminate.
Defined.

Lemma max_skipna_props acc v :
  finite_or_missing acc -> finite_or_missing v ->
  finite_or_missing (max_skipna acc v) /\
  (acc <> NaN -> max_skipna acc v <> NaN /\ fle acc (max_skipna acc v) = true) /\
  (v <> NaN -> max_skipna acc v <> NaN /\ fle v (max_skipna acc v) = true).
Proof.
  intros [-> | [a ->]] [-> | [x ->]]; simpl.
  - split; [now left|]. split; intros H; congruence.
  - split; [right; eauto|]. split; intros H; [congruence|].
    split; [discriminate | apply Qle_bool_iff, Qle_refl].
  - split; [right; eauto|]. split; intros H; [|congruence].
    split; [discriminate | apply Qle_bool_iff, Qle_refl].
  - destruct (Qlt_bool a x) eqn:E.
    + apply Qlt_bool_iff in E.
      split; [right; eauto|]. split; intros _; (split; [discriminate|]);
        apply Qle_bool_iff; lra.
    + apply Qlt_bool_false_iff in E.
      split; [right; eauto|]. split; intros _; (split; [discriminate|]);
        apply Qle_bool_iff; lra.
Qed.

Lemma expanding_max_from_props acc vs :
  finite_or_missing acc -> Forall finite_or_missing vs ->
  forall j m, nth_error (expanding_max_from acc vs) j = Some m ->
    finite_or_missing m /\
    (acc <> NaN -> m <> NaN /\ fle acc m = true) /\
    (forall v, nth_error vs j = Some v -> v <> NaN -> m <> NaN /\ fle v m = true).
Proof.
  intros Hacc Hvs. revert acc Hacc.
  induction Hvs as [|v tl Hv _ IH]; intros acc Hacc j m Hj.
  - destruct j; discriminate.
  - destruct (max_skipna_props Hacc Hv) as [Hf [Ha Hx]].
    destruct j as [|j]; simpl in Hj.
    + inversion Hj; subst m. split; [exact Hf|]. split; [exact Ha|].
      intros v' Hv' Hne. simpl in Hv'. inversion Hv'; subst. now apply Hx.
    + destruct (IH _ Hf j m Hj) as [Hfm [Hm Hvj]].
      split; [exact Hfm|]. split.
      * intros Hne. destruct (Ha Hne) as [Hn1 Hle1].
        destruct (Hm Hn1) as [Hn2 Hle2]. split; auto.
        now apply fle_trans with (max_skipna acc v).
      * intros v' Hv'. simpl in Hv'. now apply Hvj.
Qed.

Lemma expanding_max_from_resume acc vs i mi k :
  nth_error (expanding_max_from acc vs) i = Some mi ->
  nth_error (expanding_max_from acc vs) (S i + k)
  = nth_error (expanding_max_from mi (skipn (S i) vs)) k.
Proof.
  revert acc i. induction vs as [|v tl IH]; intros acc i Hi.
  - destruct i; discriminate.
  - destruct i as [|i]; simpl in Hi.
    + inversion Hi; subst. reflexivity.
    + simpl. now apply IH.
Qed.

Lemma prep_value_fom_all vs : Forall finite_or_missing (map prep_value vs).
Proof.
  induction vs as [|v tl IH]; simpl; constructor; auto.
  destruct v; simpl.
  - now left.
  - now left.
  - now left.
  - right. now exists q.
Qed.

(** X2.  The running peak never decreases.  Once a peak is observed, every
    later peak is observed too and is at least as large. *)
Theorem running_max_monotone (cumulative_returns : Series) (i j : nat) (a b : float) :
  (i <= j)%nat ->
  nth_error (values (compute_running_max cumulative_returns)) i = Some a ->
  nth_error (values (compute_running_max cumulative_returns)) j = Some b ->
  a <> NaN ->
  b <> NaN /\ fle a b = true.
Proof.
  rewrite compute_running_max_values. unfold expanding_max.
  intros Hij Hi Hj Ha.
  pose proof (prep_value_fom_all (values cumulative_returns)) as Hfom.
  destruct (expanding_max_from_props (or_introl eq_refl) Hfom _ Hi) as [Hfa _].
  destruct (Nat.eq_dec i j) as [-> | Hne].
  - rewrite Hi in Hj. inversion Hj; subst b. split; auto.
    apply fle_refl. destruct a; simpl; congruence.
  - replace j with (S i + (j - S i))%nat in Hj by lia.
    rewrite (@expanding_max_from_resume _ _ _ _ (j - S i)%nat Hi) in Hj.
    assert (Hs : Forall finite_or_missing
                   (skipn (S i) (map prep_value (values cumulative_returns)))).
    { apply Forall_forall. intros x Hx. apply in_skipn in Hx.
      rewrite Forall_forall in Hfom. auto. }
    destruct (expanding_max_from_props Hfa Hs _ Hj) as [_ [H _]]. now apply H.
Qed.

Lemma running_max_monotone_witness :
  fle (Fin (11 # 10)) (Fin (11 # 10)) = true.
Proof.
  refine (proj2 (@running_max_monotone
                   [(1%Z, Fin (11 # 10)); (2%Z, Fin (9 # 10))] 0 1
                   (Fin (11 # 10)) (Fin (11 # 10)) _ _ _ _)).
  - lia.
  - reflexivity.
  - reflexivity.
  - discriminate.
Defined.

(** X3.  The running peak dominates the wealth.  At every position with a
    finite wealth the running peak is observed and at least the wealth. *)
Theorem running_max_dominates (cumulative_returns : Series) (i : nat) (q : Q) :
  nth_error (values cumulative_returns) i = Some (Fin q) ->
  exists m,
    nth_error (values (compute_running_max cumulative_returns)) i = Some m /\
    m <> NaN /\ fle (Fin q) m = true.
Proof.
  intros Hi. rewrite compute_running_max_values. unfold expanding_max.
  pose proof (prep_value_fom_all (values cumulative_returns)) as Hfom.
  destruct (nth_error (expanding_max_from NaN (map prep_value (values cumulative_returns))) i)
    as [m|] eqn:Em.
  - exists m. split; [reflexivity|].
    destruct (expanding_max_from_props (or_introl eq_refl) Hfom _ Em) as [_ [_ H]].
    apply (H (Fin q)); [|discriminate].
    rewrite nth_error_map, Hi. reflexivity.
  - apply nth_error_None in Em.
    rewrite expanding_max_from_length, length_map in Em.
    assert (i < length (values cumulative_returns))%nat
      by (apply nth_error_Some; congruence). lia.
Qed.

Lemma running_max_dominates_witness :
  exists m,
    nth_error (values (compute_running_max [(1%Z, Fin (11 # 10)); (2%Z, Fin (9 # 10))])) 1
    = Some m /\ m <> NaN /\ fle (Fin (9 # 10)) m = true.
Proof.
  apply (@running_max_dominates [(1%Z, Fin (11 # 10)); (2%Z, Fin (9 # 10))] 1 (9 # 10)).
  reflexivity.
Defined.

(* ================================================================== *)
(** * Further facts: drawdown and maximum drawdown *)

(** X4.  The derived series keep the timestamps of the input.  Wealth,
    running peak and drawdown have the index of the return series. *)
Theorem derived_series_keep_index (returns : Series) :
  index (compute_cumulative_returns returns) = index returns /\
  index (compute_running_max (compute_cumulative_returns returns)) = index returns /\
  index (compute_drawdown returns) = index returns.
Proof.
  assert (H1 : index (compute_cumulative_returns returns) = index returns).
  { unfold compute_cumulative_returns. apply index_with_values.
    now rewrite cumprod_length, length_map, values_length. }
  split; [exact H1|]. split; [|apply compute_drawdown_index].
  unfold compute_running_max. rewrite index_with_values; [exact H1|].
  now rewrite expanding_max_length, values_length.
Qed.

(** The drawdown at one position, on admissible returns. *)
Lemma drawdown_at (returns : Series) (i : nat) (r : float) :
  Forall admissible_return (values returns) ->
  nth_error (values returns) i = Some r ->
  exists d,
    nth_error (values (compute_drawdown returns)) i = Some d /\
    (r = NaN -> d = NaN) /\
    (r <> NaN -> exists x, d = Fin x /\ -1 < x /\ x <= 0).
Proof.
  intros Hadm Hr.
  pose proof (admissible_growth Hadm) as Hg.
  pose proof (cumprod_shape Hg) as Hw.
  pose proof (wealth_rel_observed Hw) as Hobs.
  assert (Hpk : Forall2 peak_rel (cumprod (map (fadd fone) (values returns)))
                  (expanding_max (cumprod (map (fadd fone) (values returns))))).
  { unfold expanding_max. rewrite (prep_value_observed Hobs).
    apply expanding_max_from_shape; auto. }
  assert (Hgi : nth_error (map (fadd fone) (values returns)) i = Some (fadd fone r)).
  { rewrite nth_error_map, Hr. reflexivity. }
  destruct (Forall2_nth_error_left Hw _ Hgi) as [w [Hwi Hrel]].
  destruct (Forall2_nth_error_left Hpk _ Hwi) as [pk [Hpki Hprel]].
  exists (fdiv (fsub w pk) pk).
  rewrite compute_drawdown_values, compute_cumulative_returns_values. cbv zeta.
  split; [|split].
  - apply nth_error_zip_with; auto. apply nth_error_zip_with; auto.
  - intros ->. destruct Hrel as [[_ ->] | [Hne _]]; [reflexivity|].
    exfalso. apply Hne. reflexivity.
  - intros Hne. destruct Hrel as [[Hnan _] | [_ [q [-> Hq]]]].
    + exfalso. destruct r; simpl in Hnan; try discriminate. now apply Hne.
    + destruct Hprel as [Hbad | [q' [p [Hq' [-> [Hq0 Hqp]]]]]]; [discriminate|].
      inversion Hq'; subst q'.
      destruct (drawdown_value Hq0 Hqp) as [-> [Hle _]].
      eexists. split; [reflexivity|]. split; [|exact Hle].
      apply Qlt_shift_div_l; lra.
Qed.

(** X5.  A drawdown never goes below -100%.  On returns that are missing
    or finite and above -1, the drawdown at every timestamp with an
    observed return is at least -1: wealth does not turn negative, so at
    most the whole peak is lost. *)
Theorem drawdown_within_unit_loss (returns : Series) (i : nat) (r : float) :
  Forall admissible_return (values returns) ->
  nth_error (values returns) i = Some r -> r <> NaN ->
  exists d,
    nth_error (values (compute_drawdown returns)) i = Some d /\
    fle (Fin (-1)) d = true.
Proof.
  intros Hadm Hr Hne.
  destruct (drawdown_at _ _ Hadm Hr) as [d [Hd [_ Hobs]]].
  exists d. split; [exact Hd|].
  destruct (Hobs Hne) as [x [-> [Hlo _]]].
  cbn [fle]. apply Qle_bool_iff. lra.
Qed.

Lemma drawdown_within_unit_loss_witness :
  exists d,
    nth_error (values (compute_drawdown sample_returns)) 2 = Some d /\
    fle (Fin (-1)) d = true.
Proof.
  apply (@drawdown_within_unit_loss sample_returns 2 (Fin (- (1 # 10)))).
  - unfold sample_returns. simpl.
    repeat (apply Forall_cons; [right; eexists; split; reflexivity|]).
    apply Forall_nil.
  - reflexivity.
  - discriminate.
Defined.

(** X6.  The maximum drawdown is the minimum of the drawdown series.  It
    is NaN when the drawdown series has no observed value (in particular
    on an empty series); otherwise it is one of the drawdown values and
    no observed drawdown is below it. *)
Theorem max_drawdown_is_minimum (returns : Series) :
  let drawdown := values (compute_drawdown returns) in
  ((forall d, In d drawdown -> d = NaN) -> compute_max_drawdown returns = NaN) /\
  ((exists d, In d drawdown /\ d <> NaN) ->
   compute_max_drawdown returns <> NaN /\
   In (compute_max_drawdown returns) drawdown /\
   forall d, In d drawdown -> d <> NaN ->
             fle (compute_max_drawdown returns) d = true).
Proof.
  intros drawdown. unfold compute_max_drawdown. fold drawdown. split.
  - intros Hall. destruct (first_min drawdown) as [[j m]|] eqn:E; [|reflexivity].
    destruct (first_min_spec _ E) as [Hn [Hm _]].
    apply nth_error_In in Hn. rewrite (Hall _ Hn) in Hm. discriminate.
  - intros [d [Hd Hne]].
    destruct (@first_min_exists drawdown) as [j [m E]].
    { apply In_nth_error in Hd. destruct Hd as [k Hk]. exists k, d.
      split; auto. destruct d; simpl; congruence. }
    rewrite E. destruct (first_min_spec _ E) as [Hn [Hm [Hmin _]]].
    split; [destruct m; simpl in Hm; congruence|].
    split; [eapply nth_error_In; eauto|].
    intros d' Hd' Hne'. apply In_nth_error in Hd'. destruct Hd' as [k Hk].
    apply (Hmin k d' Hk). destruct d'; simpl; congruence.
Qed.

Lemma max_drawdown_is_minimum_witness :
  compute_max_drawdown [] = NaN /\
  fle (compute_max_drawdown sample_returns) (Fin (- (1 # 10))) = true.
Proof.
  split.
  - apply (proj1 (@max_drawdown_is_minimum [])). intros d [].
  - refine (proj2 (proj2 (proj2 (@max_drawdown_is_minimum sample_returns) _))
              (Fin (- (1188000000 # 11880000000))) _ _).
    + eexists. split; [left; reflexivity | discriminate].
    + vm_compute. right. right. right. right. left. reflexivity.
    + discriminate.
Defined.

(** X7.  The maximum drawdown is never positive.  On returns that are
    missing or finite and above -1, with at least one observed return,
    the maximum drawdown is a number at most 0. *)
Theorem max_drawdown_nonpositive (returns : Series) :
  Forall admissible_return (values returns) ->
  (exists r, In r (values returns) /\ r <> NaN) ->
  fle (compute_max_drawdown returns) fzero = true.
Proof.
  intros Hadm [r [Hr Hne]].
  apply In_nth_error in Hr. destruct Hr as [i Hi].
  destruct (drawdown_at _ _ Hadm Hi) as [d [Hd [_ Hobs]]].
  destruct (Hobs Hne) as [x [-> [_ Hx]]].
  unfold compute_max_drawdown.
  destruct (@first_min_exists (values (compute_drawdown returns))) as [j [m E]].
  { exists i, (Fin x). split; [exact Hd | reflexivity]. }
  rewrite E. destruct (first_min_spec _ E) as [_ [_ [Hmin _]]].
  apply fle_trans with (Fin x).
  - apply (Hmin i (Fin x) Hd). reflexivity.
  - simpl. now apply Qle_bool_iff.
Qed.

Lemma max_drawdown_nonpositive_witness :
  fle (compute_max_drawdown sample_returns) fzero = true.
Proof.
  apply max_drawdown_nonpositive.
  - unfold sample_returns. simpl.
    repeat (apply Forall_cons; [right; eexists; split; reflexivity|]).
    apply Forall_nil.
  - exists (Fin (1 # 10)). split; [left; reflexivity | discriminate].
Defined.

(* ================================================================== *)
(** * Further facts: drawdown episodes *)

Lemma negative_run_first (drawdown : Series) s e :
  negative_run drawdown s e -> negative_at drawdown s.
Proof. intros [Hle [Hall _]]. apply Hall. lia. Qed.

(** X8.  Every record of the output describes a run of negative
    drawdowns.  The call always returns, and each record it returns
    comes from positions [s <= trough <= e] of the series such that the
    drawdown is negative throughout [s..e], the depth is the (negative)
    drawdown at the trough and meets the threshold, and the fields of the
    record are the dates, wealth values, [depth * 100] and
    [e - s + 1] of that run. *)
Theorem every_episode_is_a_run (self : t) (returns : Series) :
  let drawdown := compute_drawdown returns in
  let cum_returns := compute_cumulative_returns returns in
  exists eps,
    compute_drawdown_episodes self returns = Ok eps /\
    forall ep, In ep eps ->
      exists s e trough depth,
        (s <= trough <= e)%nat /\ (e < length returns)%nat /\
        negative_run drawdown s e /\
        nth_error (values drawdown) trough = Some depth /\
        flt depth fzero = true /\
        fge (fabs depth) (fdiv (drawdown_threshold self) fhundred) = true /\
        ep = {| start_date := nth s (index returns) 0%Z;
                trough_date := nth trough (index returns) 0%Z;
                end_date := nth e (index returns) 0%Z;
                depth_pct := fmul depth fhundred;
                duration_days := (e - s + 1)%nat;
                start_value := nth s (values cum_returns) NaN;
                trough_value := nth trough (values cum_returns) NaN |}.
Proof.
  intros drawdown cum_returns.
  destruct (compute_drawdown_episodes_characterised self returns) as [eps [Heps Hin]].
  fold drawdown cum_returns in Hin.
  exists eps. split; [exact Heps|].
  assert (Hlen : length drawdown = length returns) by apply compute_drawdown_length.
  assert (Hrun : forall s e ep, negative_run drawdown s e -> (e < length drawdown)%nat ->
            emitted_for_run self drawdown cum_returns s e = [ep] ->
            exists s0 e0 trough depth,
              (s0 <= trough <= e0)%nat /\ (e0 < length returns)%nat /\
              negative_run drawdown s0 e0 /\
              nth_error (values drawdown) trough = Some depth /\
              flt depth fzero = true /\
              fge (fabs depth) (fdiv (drawdown_threshold self) fhundred) = true /\
              ep = {| start_date := nth s0 (index returns) 0%Z;
                      trough_date := nth trough (index returns) 0%Z;
                      end_date := nth e0 (index returns) 0%Z;
                      depth_pct := fmul depth fhundred;
                      duration_days := (e0 - s0 + 1)%nat;
                      start_value := nth s0 (values cum_returns) NaN;
                      trough_value := nth trough (values cum_returns) NaN |}).
  { intros s e ep Hr He Hem.
    destruct (emitted_for_run_inv _ _ _ _ _ Hem) as [tr [d [Htr [Hth ->]]]].
    destruct Hr as [Hle [Hall Hbd]].
    destruct (@run_trough_spec drawdown s e Hle He Hall)
      as [tr' [d' [Htr' [Hrange [Hd _]]]]].
    rewrite Htr in Htr'. inversion Htr'; subst tr' d'.
    exists s, e, tr, d.
    split; [exact Hrange|]. split; [lia|].
    split; [repeat split; auto|]. split; [exact Hd|]. split.
    - destruct (proj1 (negative_at_value drawdown tr) (Hall tr Hrange)) as [v [Hv Hneg]].
      rewrite Hd in Hv. inversion Hv; subst. exact Hneg.
    - split; [exact Hth|]. unfold run_episode, drawdown.
      now rewrite compute_drawdown_index. }
  intros ep Hep. apply Hin in Hep.
  destruct Hep as [[s [e [Hc He]]] | [s [[Hs Hr] He]]].
  - destruct (closed_run_in_range Hc) as [_ Hlt]. destruct Hc as [Hr _].
    apply (Hrun s e ep Hr); [lia | exact He].
  - apply (Hrun s (length drawdown - 1)%nat ep Hr); [lia | exact He].
Qed.

Lemma fle_threshold_scaled a b :
  a <= b -> fle (fdiv (Fin a) fhundred) (fdiv (Fin b) fhundred) = true.
Proof.
  intros H. simpl. apply Qle_bool_iff. unfold Qdiv.
  apply Qmult_le_compat_r; [exact H | discriminate].
Qed.

(** X9.  Raising the threshold only removes episodes.  With finite
    thresholds [a <= b] on the same returns, every record reported under
    [b] is reported under [a]. *)
Theorem higher_threshold_fewer_episodes (self_a self_b : t) (returns : Series)
    (a b : Q) :
  drawdown_threshold self_a = Fin a -> drawdown_threshold self_b = Fin b ->
  a <= b ->
  exists eps_a eps_b,
    compute_drawdown_episodes self_a returns = Ok eps_a /\
    compute_drawdown_episodes self_b returns = Ok eps_b /\
    forall ep, In ep eps_b -> In ep eps_a.
Proof.
  intros Ha Hb Hab.
  destruct (compute_drawdown_episodes_characterised self_a returns) as [ea [Hea Hina]].
  destruct (compute_drawdown_episodes_characterised self_b returns) as [eb [Heb Hinb]].
  exists ea, eb. split; [exact Hea|]. split; [exact Heb|].
  assert (Hem : forall s e ep,
            emitted_for_run self_b (compute_drawdown returns)
              (compute_cumulative_returns returns) s e = [ep] ->
            emitted_for_run self_a (compute_drawdown returns)
              (compute_cumulative_returns returns) s e = [ep]).
  { intros s e ep H.
    destruct (emitted_for_run_inv _ _ _ _ _ H) as [tr [d [Htr [Hth ->]]]].
    unfold emitted_for_run. rewrite Htr.
    assert (Hth' : exceeds_threshold self_a d = true).
    { unfold exceeds_threshold, fge in *. rewrite Ha. rewrite Hb in Hth.
      eapply fle_trans; [apply (fle_threshold_scaled Hab) | exact Hth]. }
    now rewrite Hth'. }
  intros ep Hep. apply Hina. apply Hinb in Hep.
  destruct Hep as [[s [e [Hc He]]] | [s [Ho He]]].
  - left. exists s, e. split; auto.
  - right. exists s. split; auto.
Qed.

Lemma higher_threshold_fewer_episodes_witness :
  exists eps_a eps_b,
    compute_drawdown_episodes {| crash_percentile := Fin 1; drawdown_threshold := Fin 5 |}
      sample_returns = Ok eps_a /\
    compute_drawdown_episodes {| crash_percentile := Fin 1; drawdown_threshold := Fin 20 |}
      sample_returns = Ok eps_b /\
    forall ep, In ep eps_b -> In ep eps_a.
Proof.
  apply (@higher_threshold_fewer_episodes _ _ sample_returns 5 20).
  - reflexivity.
  - reflexivity.
  - discriminate.
Defined.

(** Growth factors of non-negative or missing returns. *)
Lemma flat_wealth_no_drawdown gs p acc :
  0 < p ->
  (acc = NaN \/ exists a, acc = Fin a /\ 0 < a /\ a <= p) ->
  Forall (fun g => g = NaN \/ exists x, g = Fin x /\ 1 <= x) gs ->
  let ws := zip_with (fun v q => if isnan v then NaN else q) gs
              (np_cumprod_from (Fin p) (map (fillna fone) gs)) in
  let ms := expanding_max_from acc (map prep_value ws) in
  Forall (fun d => flt d fzero = false) (zip_with fdiv (zip_with fsub ws ms) ms).
Proof.
  intros Hp Hacc Hgs. revert p acc Hp Hacc.
  induction Hgs as [|g gs Hg _ IH]; intros p acc Hp Hacc; cbn zeta in *.
  - constructor.
  - destruct Hg as [-> | [x [-> Hx]]].
    + cbn [map fillna isnan np_cumprod_from zip_with prep_value isinf
           expanding_max_from].
      unfold fone. cbn [fmul].
      assert (Hm : max_skipna acc NaN = acc).
      { destruct Hacc as [-> | [a [-> _]]]; reflexivity. }
      rewrite Hm. constructor.
      * destruct acc; reflexivity.
      * apply IH; [nra|].
        destruct Hacc as [-> | [a [-> [Ha0 Ha]]]]; [now left|].
        right. exists a. repeat split; auto. nra.
    + cbn [map fillna isnan np_cumprod_from zip_with prep_value isinf
           expanding_max_from fmul].
      assert (Hpx : 0 < p * x) by nra.
      assert (Hm : exists b, max_skipna acc (Fin (p * x)) = Fin b /\ b == p * x).
      { destruct Hacc as [-> | [a [-> [Ha0 Ha]]]]; simpl.
        - exists (p * x). split; reflexivity.
        - destruct (Qlt_bool a (p * x)) eqn:E.
          + exists (p * x). split; reflexivity.
          + apply Qlt_bool_false_iff in E. exists a. split; [reflexivity|]. nra. }
      destruct Hm as [b [-> Eb]]. constructor.
      * simpl. destruct (b ?= 0) eqn:Ec.
        -- apply Qeq_alt in Ec. nra.
        -- simpl. apply Qlt_bool_false_iff. rewrite Eb.
           setoid_replace (p * x - p * x) with 0 by ring.
           unfold Qdiv. rewrite Qmult_0_l. apply Qle_refl.
        -- simpl. apply Qlt_bool_false_iff. rewrite Eb.
           setoid_replace (p * x - p * x) with 0 by ring.
           unfold Qdiv. rewrite Qmult_0_l. apply Qle_refl.
      * apply IH; [exact Hpx|].
        right. exists b. repeat split; [nra | nra].
Qed.

Lemma nonnegative_returns_no_negative_drawdown (returns : Series) :
  Forall (fun r => r = NaN \/ exists q, r = Fin q /\ 0 <= q) (values returns) ->
  Forall (fun d => flt d fzero = false) (values (compute_drawdown returns)).
Proof.
  intros H. rewrite compute_drawdown_values, compute_cumulative_returns_values.
  cbv zeta. unfold expanding_max, cumprod.
  assert (Hg : Forall (fun g => g = NaN \/ exists x, g = Fin x /\ 1 <= x)
                 (map (fadd fone) (values returns))).
  { clear -H. induction H as [|r rs Hr _ IH]; cbn [map]; constructor; auto.
    destruct Hr as [-> | [q [-> Hq]]]; [now left|].
    right. exists (1 + q). split; [reflexivity | lra]. }
  destruct (map (fadd fone) (values returns)) as [|g gs]; [constructor|].
  inversion Hg as [|? ? Hg0 Hgs]; subst.
  cbn [map np_cumprod zip_with].
  destruct Hg0 as [-> | [x [-> Hx]]].
  - cbn [fillna isnan prep_value isinf expanding_max_from max_skipna].
    constructor; [reflexivity|].
    apply (@flat_wealth_no_drawdown gs 1 NaN); [reflexivity | now left | exact Hgs].
  - cbn [fillna isnan prep_value isinf expanding_max_from max_skipna].
    constructor.
    + simpl. destruct (x ?= 0) eqn:Ec.
      * apply Qeq_alt in Ec. lra.
      * simpl. apply Qlt_bool_false_iff.
        setoid_replace (x - x) with 0 by ring.
        unfold Qdiv. rewrite Qmult_0_l. apply Qle_refl.
      * simpl. apply Qlt_bool_false_iff.
        setoid_replace (x - x) with 0 by ring.
        unfold Qdiv. rewrite Qmult_0_l. apply Qle_refl.
    + apply (@flat_wealth_no_drawdown gs x (Fin x)); [lra | | exact Hgs].
      right. exists x. repeat split; [lra | apply Qle_refl].
Qed.

(** X10.  Without a loss there is no episode.  When every return is missing
    or non-negative (the empty series included), the walk reports no
    episode, whatever the threshold. *)
Theorem nonnegative_returns_no_episode (self : t) (returns : Series) :
  Forall (fun r => r = NaN \/ exists q, r = Fin q /\ 0 <= q) (values returns) ->
  compute_drawdown_episodes self returns = Ok [].
Proof.
  intros H.
  pose proof (@nonnegative_returns_no_negative_drawdown returns H) as Hdd.
  assert (Hno : forall i, ~ negative_at (compute_drawdown returns) i).
  { intros i Hi. apply negative_at_value in Hi. destruct Hi as [v [Hv Hneg]].
    rewrite Forall_forall in Hdd. apply nth_error_In in Hv.
    rewrite (Hdd v Hv) in Hneg. discriminate. }
  destruct (compute_drawdown_episodes_characterised self returns) as [eps [Heps Hin]].
  rewrite Heps. f_equal.
  destruct eps as [|ep eps]; [reflexivity|]. exfalso.
  destruct (proj1 (Hin ep) (or_introl eq_refl)) as [[s [e [[Hr _] _]]] | [s [[_ Hr] _]]];
    apply (Hno s); now apply negative_run_first in Hr.
Qed.

Lemma nonnegative_returns_no_episode_witness :
  compute_drawdown_episodes sample_analyzer
    [(1%Z, Fin (1 # 100)); (2%Z, NaN); (3%Z, Fin 0); (4%Z, Fin (2 # 100))] = Ok [].
Proof.
  apply nonnegative_returns_no_episode. simpl.
  apply Forall_cons; [right; exists (1 # 100); split; [reflexivity | discriminate]|].
  apply Forall_cons; [now left|].
  apply Forall_cons; [right; exists 0; split; [reflexivity | discriminate]|].
  apply Forall_cons; [right; exists (2 # 100); split; [reflexivity | discriminate]|].
  apply Forall_nil.
Defined.

Lemma StronglySorted_snoc {A : Type} (R : A -> A -> Prop) l x :
  StronglySorted R l -> Forall (fun y => R y x) l -> StronglySorted R (l ++ [x]).
Proof.
  induction 1 as [|a l Hs IH Ha]; intros Hx; simpl.
  - repeat constructor.
  - inversion Hx; subst. constructor; auto.
    apply Forall_app. split; auto.
Qed.

Section WalkOrder.

Variables (self : t) (drawdown cum_returns : Series).
Hypothesis same_length : length cum_returns = length drawdown.

Lemma emitted_for_runs_snoc runs s e :
  emitted_for_runs self drawdown cum_returns (runs ++ [(s, e)])
  = emitted_for_runs self drawdown cum_returns runs
    ++ emitted_for_run self drawdown cum_returns s e.
Proof.
  unfold emitted_for_runs. rewrite flat_map_app. simpl. now rewrite app_nil_r.
Qed.

Lemma walk_step_runs i st runs :
  (i < length drawdown)%nat ->
  walk_inv self drawdown cum_returns i st ->
  runs_inv self drawdown cum_returns i st runs ->
  exists st' runs',
    walk_step self drawdown cum_returns st i = Ok st' /\
    walk_inv self drawdown cum_returns (S i) st' /\
    runs_inv self drawdown cum_returns (S i) st' runs'.
Proof.
  intros Hi Hinv [Hep [Hord [Hall Hcomp]]].
  destruct (@walk_step_inv self drawdown cum_returns same_length i st Hi Hinv)
    as [st' [Hstep Hinv']].
  destruct Hinv as [Hstart _].
  assert (Hb : exists b, nth_error (in_drawdown_of drawdown) i = Some b).
  { destruct (nth_error (in_drawdown_of drawdown) i) eqn:E; eauto.
    apply nth_error_None in E. rewrite in_drawdown_length in E. lia. }
  destruct Hb as [b Hb].
  assert (Hweaken : Forall (fun r => closed_run drawdown (fst r) (snd r) /\
                                     (snd r + 1 < S i)%nat) runs).
  { eapply Forall_impl; [|exact Hall]. intros r [H1 H2]. split; auto. }
  assert (Hkeep : episodes st' = episodes st ->
            (forall s e, closed_run drawdown s e -> e = (i - 1)%nat -> (1 <= i)%nat -> False) ->
            runs_inv self drawdown cum_returns (S i) st' runs).
  { intros E Hnone. split; [now rewrite E|]. split; [exact Hord|].
    split; [exact Hweaken|].
    intros s e Hc Hlt. destruct (Nat.eq_dec (e + 1) i) as [Heq|].
    - exfalso. apply (Hnone s e Hc); lia.
    - apply Hcomp; auto. lia. }
  revert Hstep. unfold walk_step, at_pos. rewrite Hb. cbn [rbind].
  destruct (start_idx st) as [s|] eqn:Es; destruct b.
  - intros H. inversion H; subst st'. exists st, runs. split; [reflexivity|].
    split; [exact Hinv'|]. apply Hkeep; auto.
    intros s' e [_ Hc] -> Hi1. replace (i - 1 + 1)%nat with i in Hc by lia. congruence.
  - destruct Hstart as [Hlt Hrun].
    destruct Hrun as [Hle [Hneg Hbd]].
    rewrite record_episode_run by (auto; lia). cbn [rbind].
    intros H. inversion H; subst st'. clear H.
    assert (Hrun : negative_run drawdown s (i - 1)) by (repeat split; auto).
    assert (Hclosed : closed_run drawdown s (i - 1)).
    { split; auto. now replace (i - 1 + 1)%nat with i by lia. }
    eexists _, (runs ++ [(s, (i - 1)%nat)]). split; [reflexivity|].
    split; [exact Hinv'|]. split; [|split; [|split]].
    + cbn [episodes]. now rewrite emitted_for_runs_snoc, Hep.
    + apply StronglySorted_snoc; [exact Hord|].
      eapply Forall_impl; [|exact Hall]. intros [s' e'] [[_ Hc] Hlt']. cbn [fst snd] in *.
      destruct (Nat.lt_ge_cases (e' + 1) s) as [|Hge]; [assumption|].
      exfalso. assert (Hn : negative_at drawdown (e' + 1)) by (apply Hneg; lia).
      unfold negative_at in Hn. congruence.
    + apply Forall_app. split; [exact Hweaken|].
      constructor; [|constructor]. cbn [fst snd]. split; [exact Hclosed | lia].
    + intros s' e Hc Hlt'. apply in_or_app.
      destruct (Nat.eq_dec (e + 1) i) as [Heq|].
      * right. left. assert (e = (i - 1)%nat) by lia. subst e.
        destruct Hc as [Hr' _].
        now rewrite (@negative_run_start_unique drawdown cum_returns same_length _ _ _ Hrun Hr').
      * left. apply Hcomp; auto. lia.
  - intros H. inversion H; subst st'. eexists _, runs. split; [reflexivity|].
    split; [exact Hinv'|]. apply Hkeep; [reflexivity|].
    intros s' e [_ Hc] -> Hi1. replace (i - 1 + 1)%nat with i in Hc by lia. congruence.
  - intros H. inversion H; subst st'. exists st, runs. split; [reflexivity|].
    split; [exact Hinv'|]. apply Hkeep; auto.
    intros s' e [[Hle [Hneg _]] _] -> Hi1.
    destruct Hstart as [-> | Hn]; [lia|]. apply Hn, Hneg. lia.
Qed.

Lemma walk_loop_runs i :
  (i <= length drawdown)%nat ->
  exists st runs,
    walk_loop self drawdown cum_returns (seq 0 i)
      {| start_idx := None; episodes := [] |} = Ok st /\
    walk_inv self drawdown cum_returns i st /\
    runs_inv self drawdown cum_returns i st runs.
Proof.
  induction i as [|i IH]; intros Hi.
  - eexists _, []. split; [reflexivity|]. split.
    + split; simpl; auto.
      intros ep. split; [intros [] | intros [s [e [_ [H _]]]]; lia].
    + split; [reflexivity|]. split; [constructor|]. split; [constructor|].
      intros s e _ H. lia.
  - destruct IH as [st [runs [Hloop [Hinv Hruns]]]]; [lia|].
    destruct (@walk_step_runs i st runs) as [st' [runs' [Hstep [Hinv' Hruns']]]]; auto.
    exists st', runs'. split; auto.
    rewrite seq_S, walk_loop_app, Hloop. simpl. now rewrite Hstep.
Qed.

Lemma segment_in_order :
  exists runs,
    segment self drawdown cum_returns
    = Ok (emitted_for_runs self drawdown cum_returns runs) /\
    runs_in_order runs /\
    Forall (fun r => negative_run drawdown (fst r) (snd r) /\
                     (snd r < length drawdown)%nat) runs /\
    forall s e, closed_run drawdown s e \/
                (open_run drawdown s /\ e = (length drawdown - 1)%nat) ->
                In (s, e) runs.
Proof.
  destruct (@walk_loop_runs (length drawdown)) as
    [st [runs [Hloop [[Hstart _] [Hep [Hord [Hall Hcomp]]]]]]]; auto.
  unfold segment. rewrite in_drawdown_length, Hloop. cbn [rbind].
  unfold walk_finish.
  assert (Hall' : Forall (fun r => negative_run drawdown (fst r) (snd r) /\
                                   (snd r < length drawdown)%nat) runs).
  { eapply Forall_impl; [|exact Hall]. intros r [[Hr _] Hlt]. split; auto. lia. }
  assert (Hclosed_in : forall s e, closed_run drawdown s e ->
                                   (e + 1 < length drawdown)%nat).
  { intros s e [_ Hc]. rewrite <- in_drawdown_length. apply nth_error_Some. congruence. }
  destruct (start_idx st) as [s|] eqn:Es.
  - destruct Hstart as [Hlt Hrun].
    assert (Hrec := @record_episode_run self drawdown cum_returns same_length
                      s (length drawdown - 1)).
    replace (length drawdown - 1 + 1)%nat with (length drawdown) in Hrec by lia.
    assert (Hslice : slice (values drawdown) s (length drawdown)
                     = skipn s (values drawdown)).
    { rewrite <- (values_length drawdown). apply slice_to_end. }
    rewrite Hslice in Hrec.
    replace (length drawdown - 1 - s + 1)%nat with (length drawdown - s)%nat in Hrec by lia.
    assert (Hlast : last_label drawdown = at_pos (index drawdown) (length drawdown - 1)).
    { unfold last_label. destruct (length drawdown) eqn:E; [lia|].
      now replace (S n - 1)%nat with n by lia. }
    rewrite Hlast, Hrec; try lia; [|apply Hrun].
    cbn [rbind].
    exists (runs ++ [(s, (length drawdown - 1)%nat)]).
    split; [now rewrite emitted_for_runs_snoc, Hep|]. split; [|split].
    + apply StronglySorted_snoc; [exact Hord|].
      eapply Forall_impl; [|exact Hall]. intros [s' e'] [[_ Hc] Hlt']. cbn [fst snd] in *.
      destruct (Nat.lt_ge_cases (e' + 1) s) as [|Hge]; [assumption|].
      exfalso. destruct Hrun as [_ [Hneg _]].
      assert (Hn : negative_at drawdown (e' + 1)) by (apply Hneg; lia).
      unfold negative_at in Hn. congruence.
    + apply Forall_app. split; [exact Hall'|].
      constructor; [|constructor]. cbn [fst snd]. split; [exact Hrun | lia].
    + intros s' e [Hc | [[_ Hr'] ->]]; apply in_or_app.
      * left. apply Hcomp; [exact Hc | eapply Hclosed_in; eauto].
      * right. left. now rewrite (@negative_run_start_unique drawdown cum_returns same_length _ _ _ Hrun Hr').
  - exists runs. split; [now rewrite Hep|]. split; [exact Hord|].
    split; [exact Hall'|].
    intros s' e [Hc | [[Hlt [_ [Hneg _]]] _]].
    + apply Hcomp; [exact Hc | eapply Hclosed_in; eauto].
    + exfalso. destruct Hstart as [H0 | Hn]; [lia|]. apply Hn, Hneg. lia.
Qed.

End WalkOrder.

(** X11.  Episodes come out in chronological order and never overlap.  The
    output is what the maximal runs of negative drawdown emit, taken in
    increasing order of position: each run gives its record or nothing,
    a later run starts at least two positions after an earlier one ends,
    and every maximal run (closed inside the series or still open at its
    end) is in the list. *)
Theorem episodes_follow_runs_in_order (self : t) (returns : Series) :
  let drawdown := compute_drawdown returns in
  let cum_returns := compute_cumulative_returns returns in
  exists runs,
    compute_drawdown_episodes self returns
    = Ok (emitted_for_runs self drawdown cum_returns runs) /\
    runs_in_order runs /\
    Forall (fun r => negative_run drawdown (fst r) (snd r) /\
                     (snd r < length returns)%nat) runs /\
    forall s e, closed_run drawdown s e \/
                (open_run drawdown s /\ e = (length returns - 1)%nat) ->
                In (s, e) runs.
Proof.
  intros drawdown cum_returns. unfold compute_drawdown_episodes.
  fold drawdown cum_returns.
  destruct (@segment_in_order self drawdown cum_returns) as [runs H].
  { subst drawdown cum_returns.
    now rewrite compute_cumulative_returns_length, compute_drawdown_length. }
  exists runs.
  assert (Hlen : length drawdown = length returns) by apply compute_drawdown_length.
  rewrite !Hlen in H. exact H.
Qed.

(* ================================================================== *)
(** * Further facts: the crash classifier *)

Lemma firstn_seq_le s n len : (n <= len)%nat -> firstn n (seq s len) = seq s n.
Proof.
  revert s len. induction n as [|n IH]; intros s len H; [reflexivity|].
  destruct len as [|len]; [lia|]. simpl. f_equal. apply IH. lia.
Qed.

Lemma slice_firstn {A : Type} (l : list A) n a b :
  (b <= n)%nat -> slice (firstn n l) a b = slice l a b.
Proof.
  intros H. unfold slice. rewrite skipn_firstn_comm, firstn_firstn.
  f_equal. lia.
Qed.

Lemma rolling_windows_prefix w vs n :
  (n <= length vs)%nat ->
  rolling_windows w (firstn n vs) = firstn n (rolling_windows w vs).
Proof.
  intros H. unfold rolling_windows.
  rewrite firstn_map, firstn_seq_le by exact H.
  rewrite length_firstn, Nat.min_l by exact H.
  apply map_ext_in. intros t Ht. apply in_seq in Ht.
  rewrite <- firstn_map. apply slice_firstn. lia.
Qed.

Lemma expanding_windows_prefix vs n :
  (n <= length vs)%nat ->
  expanding_windows (firstn n vs) = firstn n (expanding_windows vs).
Proof.
  intros H. unfold expanding_windows.
  rewrite firstn_map, firstn_seq_le by exact H.
  rewrite length_firstn, Nat.min_l by exact H.
  apply map_ext_in. intros t Ht. apply in_seq in Ht.
  rewrite <- firstn_map, firstn_firstn. f_equal. lia.
Qed.

Lemma values_firstn (s : Series) n : values (firstn n s) = firstn n (values s).
Proof. unfold values. now rewrite firstn_map. Qed.

Lemma index_firstn (s : Series) n : index (firstn n s) = firstn n (index s).
Proof. unfold index. now rewrite firstn_map. Qed.

Lemma period_returns_prefix (returns : Series) window period n :
  (n <= length returns)%nat ->
  period_returns_of returns window = Ok period ->
  period_returns_of (firstn n returns) window = Ok (firstn n period).
Proof.
  intros Hn. unfold period_returns_of.
  destruct (window =? 1)%Z.
  - intros H. inversion H; subst. now rewrite values_firstn.
  - unfold rolling_apply. destruct (check_window window) as [w|e]; cbn [rbind];
      [|discriminate].
    intros H. inversion H; subst. f_equal.
    rewrite values_firstn, <- firstn_map, rolling_windows_prefix, firstn_map.
    + reflexivity.
    + now rewrite length_map, values_length.
Qed.

Lemma period_returns_length (returns : Series) window period :
  period_returns_of returns window = Ok period -> length period = length returns.
Proof.
  unfold period_returns_of. destruct (window =? 1)%Z.
  - intros H. inversion H. apply values_length.
  - unfold rolling_apply. destruct (check_window window) as [w|e]; cbn [rbind];
      [|discriminate].
    intros H. inversion H.
    now rewrite length_map, rolling_windows_length, length_map, values_length.
Qed.

Lemma expanding_quantile_prefix vs q thr n :
  (n <= length vs)%nat ->
  expanding_quantile vs q = Ok thr ->
  expanding_quantile (firstn n vs) q = Ok (firstn n thr).
Proof.
  intros Hn. unfold expanding_quantile. cbv zeta.
  rewrite (expanding_windows_prefix _ Hn).
  remember (expanding_windows vs) as ws eqn:Ews. clear Ews.
  destruct (feqb q fone); [intros H; injection H as <-; now rewrite firstn_map|].
  destruct (feqb q fzero); [intros H; injection H as <-; now rewrite firstn_map|].
  destruct vs as [|v tl].
  - intros H. injection H as <-. now rewrite !firstn_nil.
  - destruct n as [|n].
    + intros _. reflexivity.
    + change (firstn (S n) (v :: tl)) with (v :: firstn n tl). cbv iota.
      unfold roll_quantile. destruct (_ || _); [discriminate|].
      intros H. injection H as <-. now rewrite firstn_map.
Qed.

(** X12.  The "rolling" flags never look ahead.  Cutting the return series
    after any number of rows cuts the flag series at the same place and
    changes nothing before: the flag at a timestamp depends on the
    returns up to that timestamp only. *)
Theorem rolling_flags_are_prefix_closed (self : t) (returns : Series) (window : Z)
    (flags : list (Timestamp * bool)) (n : nat) :
  identify_crash_events self returns window "rolling" = Ok flags ->
  identify_crash_events self (firstn n returns) window "rolling" = Ok (firstn n flags).
Proof.
  destruct (Nat.le_gt_cases (length returns) n) as [Hbig | Hn].
  { intros H. rewrite (firstn_all2 returns Hbig), H. f_equal. symmetry.
    apply firstn_all2.
    revert H. unfold identify_crash_events.
    destruct (period_returns_of returns window) as [period|] eqn:Ep; cbn [rbind];
      [|discriminate].
    change (String.eqb "rolling" "historical") with false.
    change (String.eqb "rolling" "rolling") with true. cbv iota.
    destruct (expanding_quantile period _) as [thr|]; cbn [rbind]; [|discriminate].
    intros H. inversion H. rewrite length_combine, index_length. lia. }
  assert (Hle : (n <= length returns)%nat) by lia.
  unfold identify_crash_events.
  destruct (period_returns_of returns window) as [period|] eqn:Ep; cbn [rbind];
    [|discriminate].
  rewrite (period_returns_prefix _ _ Hle Ep). cbn [rbind].
  change (String.eqb "rolling" "historical") with false.
  change (String.eqb "rolling" "rolling") with true. cbv iota.
  destruct (expanding_quantile period _) as [thr|] eqn:Eq; cbn [rbind]; [|discriminate].
  assert (Hlp : (n <= length period)%nat)
    by (rewrite (period_returns_length _ _ Ep); exact Hle).
  rewrite (@expanding_quantile_prefix _ _ _ _ Hlp Eq). cbn [rbind].
  intros H. inversion H; subst flags. f_equal.
  rewrite combine_firstn, index_firstn. f_equal.
  now rewrite firstn_map, combine_firstn.
Qed.

Lemma rolling_flags_are_prefix_closed_witness :
  identify_crash_events sample_analyzer (firstn 3 sample_returns) 2 "rolling"
  = Ok [(10%Z, false); (11%Z, false); (12%Z, true)].
Proof.
  apply (@rolling_flags_are_prefix_closed sample_analyzer sample_returns 2
           [(10%Z, false); (11%Z, false); (12%Z, true); (13%Z, false); (14%Z, false)] 3).
  reflexivity.
Defined.

Lemma invalid_quantile cp :
  ~ (exists p, cp = Fin p /\ 0 <= p /\ p <= 100) ->
  valid_quantile (fdiv cp fhundred) = None.
Proof.
  intros H. destruct cp as [| | |p]; try reflexivity.
  change (fdiv (Fin p) fhundred) with (Fin (p / 100)). unfold valid_quantile.
  destruct (Qle_bool 0 (p / 100)) eqn:E0; [|reflexivity].
  destruct (Qle_bool (p / 100) 1) eqn:E1; [|reflexivity].
  exfalso. apply H. exists p. split; [reflexivity|].
  apply Qle_bool_iff in E0, E1.
  assert (E : p == p / 100 * 100) by (field; discriminate).
  split; rewrite E; nra.
Qed.

Lemma out_of_range_invalid cp :
  cp = NaN \/ percentile_out_of_range cp ->
  ~ (exists p, cp = Fin p /\ 0 <= p /\ p <= 100).
Proof.
  intros H [p [-> [H0 H1]]].
  destruct H as [C | [C | [C | [q [E [Hq | Hq]]]]]]; try discriminate;
    inversion E; subst q; lra.
Qed.

(** The expanding quantile refuses an order out of range as soon as
    there is a value to look at. *)
Lemma expanding_quantile_rejects (vs : list float) (cp : float) :
  percentile_out_of_range cp -> vs <> [] ->
  exists msg, expanding_quantile vs (fdiv cp fhundred) = Raise (ValueError msg).
Proof.
  intros Hcp Hne. unfold expanding_quantile. cbv zeta.
  destruct vs as [|v tl]; [congruence|].
  destruct Hcp as [-> | [-> | [p [-> Hp]]]].
  - cbn. eauto.
  - cbn. eauto.
  - change (fdiv (Fin p) fhundred) with (Fin (p / 100)). cbn [feqb fone fzero].
    assert (E : p == p / 100 * 100) by (field; discriminate).
    assert (Hq : p / 100 < 0 \/ 1 < p / 100) by (destruct Hp; [left | right]; nra).
    assert (Q1 : Qeq_bool (p / 100) 1 = false).
    { destruct (Qeq_bool (p / 100) 1) eqn:C; [|reflexivity].
      apply Qeq_bool_iff in C. lra. }
    assert (Q0 : Qeq_bool (p / 100) 0 = false).
    { destruct (Qeq_bool (p / 100) 0) eqn:C; [|reflexivity].
      apply Qeq_bool_iff in C. lra. }
    rewrite Q1, Q0. unfold roll_quantile. cbn [fle fge fzero fone].
    assert (B : Qle_bool (p / 100) 0 || Qle_bool 1 (p / 100) = true).
    { apply orb_true_iff. destruct Hq; [left | right]; apply Qle_bool_iff; lra. }
    rewrite B. eauto.
Qed.

Lemma in_sort_values (r : float) (l : list float) :
  In r (sort_values l) -> In r l.
Proof.
  induction l as [|h tl IH]; [tauto|].
  cbn [sort_values fold_right]. fold (sort_values tl).
  generalize dependent (sort_values tl). intros sorted IH.
  induction sorted as [|x xs IHx]; cbn [insert_sorted].
  - intros [<- | []]. now left.
  - destruct (fle h x).
    + intros [<- | H]; [now left | right; now apply IH].
    + intros [<- | H]; [right; apply IH; now left|].
      cbn [In] in *. destruct (IHx (fun H' => IH (or_intror H')) H) as [<- | H'];
        [now left | now right].
Qed.

Lemma flt_irrefl (r : float) : flt r r = false.
Proof.
  destruct r; try reflexivity. cbn [flt]. apply Qlt_bool_false_iff. apply Qle_refl.
Qed.

(** With a NaN order the kernel's value is missing or the only value
    observed, and nothing observed is strictly below that. *)
Lemma nothing_below_nan_order (window : list float) (r : float) :
  In r window -> flt r (roll_quantile_nan_at 1 window) = false.
Proof.
  intros Hr. unfold roll_quantile_nan_at. cbv zeta.
  destruct (isnan r) eqn:En; [now destruct r|].
  destruct (_ && _) eqn:E; [|now destruct r].
  apply andb_true_iff in E. destruct E as [_ E]. apply Nat.eqb_eq in E.
  destruct (sort_values (dropna_values window)) as [|m [|m' rest]] eqn:Es;
    try discriminate.
  cbn [nth].
  assert (Hin : In m (dropna_values window)).
  { apply in_sort_values. rewrite Es. now left. }
  assert (Hlen : length (dropna_values window) = 1%nat).
  { rewrite <- sort_values_length, Es. reflexivity. }
  assert (Hrin : In r (dropna_values window)).
  { apply filter_In. split; [exact Hr|]. unfold notna. now rewrite En. }
  destruct (dropna_values window) as [|x [|x' tl]]; try discriminate.
  destruct Hin as [<- | []]. destruct Hrin as [<- | []]. apply flt_irrefl.
Qed.

Lemma firstn_S_last {A : Type} (l : list A) (i : nat) (r : A) :
  nth_error l i = Some r -> In r (firstn (S i) l).
Proof.
  revert i. induction l as [|a l IH]; intros [|i] H; try discriminate.
  - inversion H. now left.
  - right. now apply IH.
Qed.

(** X13.  Arguments outside their domain.  A negative window is refused
    with a ValueError whatever the method.  A crash percentile that is
    infinite, -1 or less, or above 100 is refused with a ValueError under
    "historical", and under "rolling" as soon as the series has a row;
    NaN is refused under "historical" as well.  Under "rolling" a NaN
    percentile is not refused: for a window of 1 or more flags come back
    on the index of the returns, and with a window of 1 and returns free
    of infinities none of them is set. *)
Theorem crash_arguments_validated (self : t) (returns : Series) (window : Z)
    (method : string) :
  ((window < 0)%Z ->
   identify_crash_events self returns window method
   = Raise (ValueError "window must be an integer 0 or greater")) /\
  (crash_percentile self = NaN \/ percentile_out_of_range (crash_percentile self) ->
   exists msg, identify_crash_events self returns window "historical"
               = Raise (ValueError msg)) /\
  (percentile_out_of_range (crash_percentile self) -> returns <> [] ->
   exists msg, identify_crash_events self returns window "rolling"
               = Raise (ValueError msg)) /\
  (crash_percentile self = NaN -> (1 <= window)%Z ->
   exists flags,
     identify_crash_events self returns window "rolling" = Ok flags /\
     map fst flags = index returns /\
     (window = 1%Z -> Forall finite_or_missing (values returns) ->
      forall b, In b (map snd flags) -> b = false)).
Proof.
  assert (Hneg : forall e, period_returns_of returns window = Raise e ->
                           exists msg, e = ValueError msg).
  { intros e Ep. unfold period_returns_of in Ep.
    destruct (window =? 1)%Z; [discriminate|].
    unfold rolling_apply, check_window in Ep.
    destruct (window <? 0)%Z; cbn [rbind] in Ep; [|discriminate].
    inversion Ep. eauto. }
  split; [|split; [|split]].
  - intros Hw. unfold identify_crash_events, period_returns_of.
    destruct (Z.eqb_spec window 1); [lia|].
    unfold rolling_apply, check_window.
    destruct (Z.ltb_spec window 0); [reflexivity | lia].
  - intros Hp. pose proof (invalid_quantile (out_of_range_invalid Hp)) as Hq.
    unfold identify_crash_events.
    destruct (period_returns_of returns window) as [period|e] eqn:Ep; cbn [rbind].
    + change (String.eqb "historical" "historical") with true. cbv iota.
      unfold series_quantile. rewrite Hq. cbn [rbind]. eauto.
    + destruct (Hneg e eq_refl) as [msg ->]. eauto.
  - intros Hp Hne. unfold identify_crash_events.
    destruct (period_returns_of returns window) as [period|e] eqn:Ep; cbn [rbind].
    + change (String.eqb "rolling" "historical") with false.
      change (String.eqb "rolling" "rolling") with true. cbv iota.
      destruct (@expanding_quantile_rejects period _ Hp) as [msg ->].
      { intros C. apply Hne. apply period_returns_length in Ep.
        rewrite C in Ep. destruct returns; [reflexivity | discriminate]. }
      cbn [rbind]. eauto.
    + destruct (Hneg e eq_refl) as [msg ->]. eauto.
  - intros Hp Hw. unfold identify_crash_events.
    assert (Hperiod : exists period, period_returns_of returns window = Ok period /\
                                     length period = length returns /\
                                     (window = 1%Z -> period = values returns)).
    { unfold period_returns_of. destruct (Z.eqb_spec window 1) as [E | E].
      - eexists. split; [reflexivity|]. split; [apply values_length | auto].
      - rewrite rolling_apply_ok by lia. eexists. split; [reflexivity|].
        split; [|intros C; contradiction].
        now rewrite length_map, rolling_windows_length, length_map, values_length. }
    destruct Hperiod as [period [-> [Hlen Hone]]]. cbn [rbind]. rewrite Hp.
    change (String.eqb "rolling" "historical") with false.
    change (String.eqb "rolling" "rolling") with true. cbv iota.
    change (fdiv NaN fhundred) with NaN.
    assert (Hthr : expanding_quantile period NaN
                   = Ok (map (roll_quantile_nan_at 1) (expanding_windows period))).
    { unfold expanding_quantile. cbv zeta. cbn [feqb].
      destruct period; reflexivity. }
    rewrite Hthr. cbn [rbind].
    set (thresholds := map (roll_quantile_nan_at 1) (expanding_windows period)).
    assert (Hth : length thresholds = length period).
    { unfold thresholds. now rewrite length_map, expanding_windows_length. }
    assert (Hcmp : length (map (fun rt : float * float => flt (fst rt) (snd rt))
                               (combine period thresholds)) = length returns).
    { rewrite length_map, length_combine, Hth, Hlen. lia. }
    eexists. split; [reflexivity|]. split.
    + apply map_fst_combine. now rewrite index_length, Hcmp.
    + intros Hw1 Hfom b Hb.
      rewrite map_snd_combine in Hb by now rewrite index_length, Hcmp.
      apply in_map_iff in Hb. destruct Hb as [[r thr] [<- Hr]].
      apply In_nth_error in Hr. destruct Hr as [i Hi]. cbn [fst snd].
      assert (Hri : nth_error period i = Some r /\ nth_error thresholds i = Some thr).
      { clear -Hi. revert i Hi. generalize thresholds.
        induction period as [|a l IH]; intros [|b l'] [|i] Hi; simpl in *;
          try discriminate.
        - inversion Hi. auto.
        - auto. }
      destruct Hri as [Hr Ht].
      assert (Hil : (i < length period)%nat) by (apply nth_error_Some; congruence).
      unfold thresholds, expanding_windows in Ht. rewrite map_map in Ht.
      rewrite nth_error_map_seq in Ht by exact Hil.
      assert (Et : thr = roll_quantile_nan_at 1 (firstn (S i) (map prep_value period)))
        by congruence.
      rewrite Et. rewrite (Hone Hw1) in *. rewrite (prep_value_fom Hfom).
      apply nothing_below_nan_order. now apply firstn_S_last.
Qed.

Lemma crash_arguments_validated_witness :
  identify_crash_events sample_analyzer sample_returns (-5) "historical"
  = Raise (ValueError "window must be an integer 0 or greater") /\
  (exists msg,
     identify_crash_events {| crash_percentile := Fin 150; drawdown_threshold := Fin 5 |}
       sample_returns 1 "rolling" = Raise (ValueError msg)) /\
  exists flags,
    identify_crash_events {| crash_percentile := NaN; drawdown_threshold := Fin 5 |}
      sample_returns 1 "rolling" = Ok flags /\
    map snd flags = [false; false; false; false; false].
Proof.
  split; [|split].
  - apply (proj1 (@crash_arguments_validated sample_analyzer sample_returns (-5)
                    "historical")). lia.
  - apply (proj1 (proj2 (proj2 (@crash_arguments_validated
                    {| crash_percentile := Fin 150; drawdown_threshold := Fin 5 |}
                    sample_returns 1 "rolling")))).
    + right. right. exists 150. split; [reflexivity|]. right. reflexivity.
    + discriminate.
  - destruct (proj2 (proj2 (proj2 (@crash_arguments_validated
                    {| crash_percentile := NaN; drawdown_threshold := Fin 5 |}
                    sample_returns 1 "rolling"))) eq_refl ltac:(lia))
      as [flags [Hrun _]].
    exists flags. split; [exact Hrun|].
    vm_compute in Hrun. inversion Hrun. reflexivity.
Defined.

(** X14.  A crash needs a full window.  With a window of [w >= 2] periods
    the first [w - 1] timestamps have no period return and are never
    flagged, under either method. *)
Theorem warmup_never_flagged (self : t) (returns : Series) (window : Z)
    (method : string) (flags : list (Timestamp * bool)) (i : nat) :
  (2 <= window)%Z ->
  identify_crash_events self returns window method = Ok flags ->
  (i < length returns)%nat -> (Z.of_nat i + 1 < window)%Z ->
  nth_error (map snd flags) i = Some false.
Proof.
  intros Hw Hrun Hi Hwarm.
  assert (Hperiod : exists period,
            period_returns_of returns window = Ok period /\
            length period = length returns /\
            nth_error period i = Some NaN).
  { unfold period_returns_of.
    destruct (Z.eqb_spec window 1); [lia|].
    rewrite rolling_apply_ok by lia. eexists. split; [reflexivity|].
    split.
    - now rewrite length_map, rolling_windows_length, length_map, values_length.
    - unfold rolling_windows. rewrite map_map.
      rewrite nth_error_map_seq by now rewrite length_map, values_length.
      f_equal.
      set (win := slice _ _ _).
      assert (Hc : (count_obs win <= S i)%nat).
      { unfold count_obs, dropna_values.
        etransitivity; [apply filter_length_le|].
        unfold win, slice. rewrite length_firstn. lia. }
      destruct (Nat.leb_spec (Z.to_nat window) (count_obs win)); [lia | reflexivity]. }
  destruct Hperiod as [period [Hp [Hlen Hnan]]].
  revert Hrun. unfold identify_crash_events. rewrite Hp. cbn [rbind].
  assert (Hgen : forall cmp : list bool,
            length cmp = length returns -> nth_error cmp i = Some false ->
            nth_error (map snd (combine (index returns) cmp)) i = Some false).
  { intros cmp Hl Hc. rewrite map_snd_combine; auto. now rewrite index_length. }
  destruct (String.eqb method "historical").
  - destruct (series_quantile period _) as [thr|]; cbn [rbind]; [|discriminate].
    intros H. inversion H; subst flags. apply Hgen.
    + now rewrite length_map.
    + rewrite nth_error_map, Hnan. reflexivity.
  - destruct (String.eqb method "rolling"); [|discriminate].
    destruct (expanding_quantile period _) as [thr|] eqn:Eq; cbn [rbind]; [|discriminate].
    intros H. inversion H; subst flags.
    assert (Hthr : length thr = length period).
    { now apply expanding_quantile_length in Eq. }
    apply Hgen.
    + rewrite length_map, length_combine, Hthr, Hlen. lia.
    + rewrite nth_error_map.
      destruct (nth_error thr i) as [x|] eqn:Ex.
      * rewrite (nth_error_combine _ _ _ Hnan Ex). reflexivity.
      * apply nth_error_None in Ex. lia.
Qed.

Lemma warmup_never_flagged_witness :
  nth_error [false; false; true; false; false] 1 = Some false.
Proof.
  apply (@warmup_never_flagged sample_analyzer sample_returns 3 "historical"
           [(10%Z, false); (11%Z, false); (12%Z, true); (13%Z, false); (14%Z, false)] 1).
  - lia.
  - reflexivity.
  - simpl. lia.
  - lia.
Defined.

Lemma sort_values_head (l : list float) :
  Forall finite l -> l <> [] ->
  exists m rest, sort_values l = m :: rest /\ finite m /\
                 Forall (fun x => fle m x = true) l.
Proof.
  induction 1 as [|v tl Hv Htl IH]; intros Hne; [congruence|].
  assert (Hvn : isnan v = false) by (destruct Hv as [q ->]; reflexivity).
  simpl. destruct tl as [|v' tl'].
  - simpl. exists v, []. split; [reflexivity|]. split; [exact Hv|].
    constructor; [now apply fle_refl | constructor].
  - destruct IH as [m [rest [Hs [Hm Hall]]]]; [discriminate|].
    change (fold_right insert_sorted [] (v' :: tl')) with (sort_values (v' :: tl')).
    rewrite Hs. simpl.
    assert (Hmn : isnan m = false) by (destruct Hm as [q ->]; reflexivity).
    destruct (fle v m) eqn:E.
    + exists v, (m :: rest). split; [reflexivity|]. split; [exact Hv|].
      constructor; [now apply fle_refl|].
      eapply Forall_impl; [|exact Hall]. intros x Hx. now apply fle_trans with m.
    + exists m, (insert_sorted v rest). split; [reflexivity|]. split; [exact Hm|].
      constructor; [|exact Hall]. apply flt_fle. now apply fle_false_flt.
Qed.

(** Nothing is strictly below the quantile of order 0. *)
Lemma nothing_below_quantile_zero (window : list float) (x : Q) (r : float) :
  Forall finite_or_missing window -> x == 0 -> In r window ->
  flt r (match dropna_values window with
         | [] => NaN
         | obs => np_quantile_linear (sort_values obs) x
         end) = false.
Proof.
  intros Hw Hx Hr.
  pose proof (dropna_values_finite Hw) as Hfin.
  destruct (dropna_values window) as [|o obs] eqn:E; [now destruct r|].
  rewrite <- E in *.
  destruct (@sort_values_head (dropna_values window) Hfin) as [m [rest [Hs [[qm ->] Hall]]]].
  { rewrite E. discriminate. }
  unfold np_quantile_linear. rewrite Hs.
  set (n := length (Fin qm :: rest)).
  assert (Hv : x * inject_Z (Z.of_nat (n - 1)) == 0) by (rewrite Hx; ring).
  assert (Hfl : Qfloor_nat (x * inject_Z (Z.of_nat (n - 1))) = 0%nat).
  { unfold Qfloor_nat. now rewrite Hv. }
  cbv zeta. rewrite Hfl.
  assert (Hnext : exists y, nth (Nat.min 1 (n - 1)) (Fin qm :: rest) NaN = Fin y).
  { apply finite_nth.
    - rewrite <- Hs. now apply sort_values_Forall.
    - fold n. subst n. cbn [length]. lia. }
  destruct Hnext as [y ->]. cbn [nth]. unfold np_lerp.
  destruct (Qle_bool (1 # 2) (x * inject_Z (Z.of_nat (n - 1)) - inject_Z (Z.of_nat 0)))
    eqn:Eh.
  { apply Qle_bool_iff in Eh. rewrite Hv in Eh. exfalso.
    change (inject_Z (Z.of_nat 0)) with 0 in Eh. lra. }
  cbn [fsub fmul fadd].
  destruct r as [| | |q]; try reflexivity.
  - (* r = -inf cannot be in a window without infinities *)
    rewrite Forall_forall in Hw. destruct (Hw _ Hr) as [C | [q C]]; discriminate.
  - cbn [flt]. apply Qlt_bool_false_iff.
    assert (Hq : fle (Fin qm) (Fin q) = true).
    { rewrite Forall_forall in Hall. apply Hall.
      unfold dropna_values. apply filter_In. split; [exact Hr | reflexivity]. }
    simpl in Hq. apply Qle_bool_iff in Hq.
    assert (Eq0 : qm + (y - qm) * (x * inject_Z (Z.of_nat (n - 1)) - inject_Z (Z.of_nat 0))
                == qm).
    { setoid_rewrite Hv. change (inject_Z (Z.of_nat 0)) with 0. ring. }
    eapply Qle_trans; [|exact Hq]. setoid_rewrite Eq0. apply Qle_refl.
Qed.

(** Nothing observed is strictly below the smallest observation. *)
Lemma nothing_below_roll_min (window : list float) (r : float) :
  Forall finite_or_missing window -> In r window ->
  flt r (roll_min_at 1 window) = false.
Proof.
  intros Hw Hr. unfold roll_min_at. cbv zeta.
  pose proof (dropna_values_finite Hw) as Hfin.
  destruct (dropna_values window) as [|o obs] eqn:E; [now destruct r|].
  rewrite <- E in *.
  destruct (@sort_values_head (dropna_values window) Hfin) as [m [rest [Hs [[qm ->] Hall]]]].
  { rewrite E. discriminate. }
  rewrite Hs. cbn [length Nat.leb Nat.eqb andb negb nth].
  destruct r as [| | |q]; try reflexivity.
  - rewrite Forall_forall in Hw. destruct (Hw _ Hr) as [C | [q C]]; discriminate.
  - assert (Hq : fle (Fin qm) (Fin q) = true).
    { rewrite Forall_forall in Hall. apply Hall.
      unfold dropna_values. apply filter_In. split; [exact Hr | reflexivity]. }
    cbn [fle] in Hq. cbn [flt]. unfold Qlt_bool. now rewrite Hq.
Qed.

(** X15.  A crash percentile of 0 flags nothing on daily returns.  With a
    window of 1 and returns free of infinities the threshold is the
    smallest return (of the whole series, or seen so far), and the
    comparison is strict, so no timestamp is flagged under either
    method. *)
Theorem zero_percentile_flags_nothing (self : t) (returns : Series)
    (method : string) (p : Q) :
  crash_percentile self = Fin p -> p == 0 ->
  Forall finite_or_missing (values returns) ->
  method = "historical"%string \/ method = "rolling"%string ->
  exists flags,
    identify_crash_events self returns 1 method = Ok flags /\
    map fst flags = index returns /\
    forall b, In b (map snd flags) -> b = false.
Proof.
  intros Hp Hp0 Hpf Hm.
  pose proof (values_length returns) as Hlen.
  assert (H0 : 0 <= p) by (rewrite Hp0; apply Qle_refl).
  assert (H1 : p <= 100) by (rewrite Hp0; discriminate).
  destruct (valid_crash_quantile H0 H1) as [Hvalid _].
  assert (Hx : p / 100 == 0) by (rewrite Hp0; reflexivity).
  unfold identify_crash_events, period_returns_of.
  change (1 =? 1)%Z with true. cbv iota. rewrite Hp. cbn [rbind].
  set (period := values returns) in *.
  destruct Hm as [-> | ->].
  - change (String.eqb "historical" "historical") with true. cbv iota.
    unfold series_quantile. rewrite Hvalid.
    set (thr := match dropna_values period with
                | [] => NaN
                | _ => np_quantile_linear (sort_values (dropna_values period)) (p / 100)
                end).
    assert (Hthr : (match dropna_values period with
                    | [] => Ok NaN
                    | o :: obs => Ok (np_quantile_linear (sort_values (o :: obs)) (p / 100))
                    end) = Ok thr).
    { unfold thr. destruct (dropna_values period); reflexivity. }
    rewrite Hthr. cbn [rbind]. eexists. split; [reflexivity|]. split.
    + apply map_fst_combine. now rewrite index_length, length_map.
    + rewrite map_snd_combine by now rewrite index_length, length_map.
      intros b Hb. apply in_map_iff in Hb. destruct Hb as [r [<- Hr]].
      pose proof (nothing_below_quantile_zero r Hpf Hx Hr) as H.
      unfold thr. destruct (dropna_values period); exact H.
  - change (String.eqb "rolling" "historical") with false.
    change (String.eqb "rolling" "rolling") with true. cbv iota.
    rewrite (@expanding_quantile_valid _ _ _ Hvalid). cbn [rbind].
    set (thresholds := map (fun w => roll_quantile_at 1 w (p / 100))
                           (expanding_windows period)).
    assert (Hth : length thresholds = length period).
    { unfold thresholds. now rewrite length_map, expanding_windows_length. }
    eexists. split; [reflexivity|]. split.
    + apply map_fst_combine.
      rewrite index_length, length_map, length_combine, Hth, Hlen. lia.
    + rewrite map_snd_combine
        by (rewrite index_length, length_map, length_combine, Hth, Hlen; lia).
      intros b Hb. apply in_map_iff in Hb. destruct Hb as [[r thr] [<- Hr]].
      apply In_nth_error in Hr. destruct Hr as [i Hi]. cbn [fst snd].
      assert (Hri : nth_error period i = Some r /\ nth_error thresholds i = Some thr).
      { clear -Hi. revert i Hi. generalize thresholds.
        induction period as [|a l IH]; intros [|b l'] [|i] Hi; simpl in *;
          try discriminate.
        - inversion Hi. auto.
        - auto. }
      destruct Hri as [Hr Ht].
      assert (Hil : (i < length period)%nat) by (apply nth_error_Some; congruence).
      unfold thresholds, expanding_windows in Ht. rewrite map_map in Ht.
      rewrite nth_error_map_seq in Ht by exact Hil.
      assert (Et : thr = roll_quantile_at 1 (firstn (S i) (map prep_value period)) (p / 100))
        by congruence.
      rewrite Et, (prep_value_fom Hpf), (roll_quantile_at_zero _ _ Hx).
      clear Et Ht Hi.
      apply nothing_below_roll_min.
      * apply Forall_forall. intros v Hv. apply in_firstn in Hv.
        rewrite Forall_forall in Hpf. auto.
      * clear -Hr. revert i Hr. induction period as [|a l IH]; intros [|i] Hr;
          simpl in *; try discriminate.
        -- inversion Hr. now left.
        -- right. now apply IH.
Qed.

Lemma zero_percentile_flags_nothing_witness :
  exists flags,
    identify_crash_events {| crash_percentile := Fin 0; drawdown_threshold := Fin 5 |}
      sample_returns 1 "rolling" = Ok flags /\
    map fst flags = index sample_returns /\
    forall b, In b (map snd flags) -> b = false.
Proof.
  apply (@zero_percentile_flags_nothing _ sample_returns "rolling" 0).
  - reflexivity.
  - reflexivity.
  - unfold sample_returns. simpl.
    repeat (apply Forall_cons; [right; eexists; reflexivity|]). apply Forall_nil.
  - now right.
Defined.

(* ================================================================== *)
(** * Further facts: the rolling z-score *)

Section ZScoreValues.

Variable Qsqrt : Q -> Q.

(** The trailing window the rolling kernels see at position [i]. *)
Lemma rolling_window_at w vs i :
  (i < length vs)%nat ->
  nth_error (rolling_windows w vs) i
  = Some (slice (map prep_value vs) (S i - w) (S i)).
Proof.
  intros H. unfold rolling_windows.
  now rewrite (nth_error_map_seq (fun t => slice (map prep_value vs) (S t - w) (S t)) H).
Qed.

(** The z-score at one position, read off [compute_zscore]. *)
Lemma compute_zscore_at (series z : Series) (window : Z) (min_periods : option Z)
    (i : nat) (x : float) :
  compute_zscore Qsqrt series window min_periods = Ok z ->
  nth_error (values series) i = Some x ->
  exists w m,
    check_rolling window (match min_periods with
                          | None => (window / 2)%Z
                          | Some m => m
                          end) = Ok (w, m) /\
    index z = index series /\
    let win := slice (map prep_value (values series)) (S i - w) (S i) in
    nth_error (values z) i
    = Some (fdiv (fsub x (roll_mean_at m win))
                 (replace_zero_nan (zsqrt Qsqrt (roll_var_at m win)))).
Proof.
  unfold compute_zscore. intros Hz Hx.
  destruct (check_rolling window _) as [[w m]|e] eqn:Ec; cbn [rbind fst snd] in Hz;
    [|discriminate].
  exists w, m. split; [reflexivity|].
  assert (Hlen : length (zip_with fdiv
                   (zip_with fsub (values series) (rolling_mean w m (values series)))
                   (map replace_zero_nan (rolling_std Qsqrt w m (values series))))
                 = length series).
  { rewrite !zip_with_length, length_map, rolling_mean_length, rolling_std_length,
      values_length. lia. }
  inversion Hz; subst z; clear Hz. split; [now apply index_with_values|].
  cbv zeta. rewrite values_with_values by exact Hlen.
  assert (Hi : (i < length (values series))%nat) by (apply nth_error_Some; congruence).
  apply nth_error_zip_with.
  - apply nth_error_zip_with; [exact Hx|].
    unfold rolling_mean. rewrite nth_error_map, (rolling_window_at w _ Hi). reflexivity.
  - unfold rolling_std, rolling_var.
    rewrite !nth_error_map, (rolling_window_at w _ Hi). reflexivity.
Qed.

Lemma count_obs_le (l : list float) : (length (dropna_values l) <= length l)%nat.
Proof. unfold dropna_values. apply filter_length_le. Qed.

Lemma window_length_le {A : Type} (l : list A) a b : (length (slice l a b) <= b - a)%nat.
Proof. unfold slice. rewrite length_firstn. lia. Qed.

Lemma fsub_nan_r x : fsub x NaN = NaN.
Proof. destruct x; reflexivity. Qed.

Lemma fdiv_nan_l x : fdiv NaN x = NaN.
Proof. reflexivity. Qed.

(** X16.  The arguments of the rolling windows are checked before anything
    is computed: a negative window with the default minimum number of
    observations ([window // 2], negative as well), a negative minimum,
    or a minimum above the window make [compute_zscore] raise ValueError;
    every other choice returns a series on the index of the input. *)
Theorem zscore_arguments_validated (series : Series) (window : Z) :
  ((window < 0)%Z ->
   exists msg, compute_zscore Qsqrt series window None = Raise (ValueError msg)) /\
  (forall m, (m < 0 \/ window < m)%Z ->
   exists msg, compute_zscore Qsqrt series window (Some m) = Raise (ValueError msg)) /\
  (forall m, (0 <= m <= window)%Z ->
   exists z, compute_zscore Qsqrt series window (Some m) = Ok z /\
             index z = index series).
Proof.
  split; [|split].
  - intros Hw. unfold compute_zscore, check_rolling.
    assert (window / 2 < 0)%Z by (apply Z.div_lt_upper_bound; lia).
    destruct (Z.ltb_spec (window / 2) 0); [|lia]. cbn [rbind]. eauto.
  - intros m Hm. unfold compute_zscore, check_rolling.
    destruct (Z.ltb_spec m 0); cbn [rbind]; [eauto|].
    destruct (Z.ltb_spec window m); cbn [rbind]; [eauto | lia].
  - intros m Hm. unfold compute_zscore, check_rolling.
    destruct (Z.ltb_spec m 0); [lia|].
    destruct (Z.ltb_spec window m); [lia|]. cbn [rbind fst snd].
    eexists. split; [reflexivity|]. apply index_with_values.
    rewrite !zip_with_length, length_map, rolling_mean_length, rolling_std_length,
      values_length. lia.
Qed.

(** X17.  Warm-up: wherever the trailing window holds fewer non-missing
    values than the minimum number of observations, the z-score is
    missing.  In particular the first [window // 2 - 1] positions of the
    default call are missing whatever the data. *)
Theorem zscore_warmup_missing (series z : Series) (window : Z)
    (min_periods : option Z) (i : nat) :
  compute_zscore Qsqrt series window min_periods = Ok z ->
  (i < length series)%nat ->
  (Z.of_nat (count_obs (slice (map prep_value (values series))
                          (S i - Z.to_nat window) (S i)))
   < match min_periods with None => window / 2 | Some m => m end)%Z ->
  nth_error (values z) i = Some NaN.
Proof.
  intros Hz Hi Hc.
  destruct (nth_error (values series) i) as [x|] eqn:Hx.
  2:{ apply nth_error_None in Hx. rewrite values_length in Hx. lia. }
  destruct (@compute_zscore_at series z window min_periods i x Hz Hx) as [w [m [Hc' [_ Hv]]]].
  cbv zeta in Hv. rewrite Hv. f_equal.
  set (mp := match min_periods with None => (window / 2)%Z | Some m0 => m0 end) in *.
  unfold check_rolling in Hc'.
  destruct (Z.ltb_spec mp 0); [discriminate|].
  destruct (Z.ltb_spec window mp); [discriminate|].
  inversion Hc'; subst w m; clear Hc'.
  unfold roll_mean_at. unfold count_obs in Hc.
  destruct (Nat.leb_spec (Z.to_nat mp)
              (length (dropna_values (slice (map prep_value (values series))
                                        (S i - Z.to_nat window) (S i))))) as [Hle|Hlt].
  - lia.
  - cbn [andb]. now rewrite fsub_nan_r.
Qed.

End ZScoreValues.

Lemma zscore_arguments_validated_witness :
  exists msg, compute_zscore sample_sqrt constant_series (-1) None
              = Raise (ValueError msg).
Proof.
  apply (proj1 (@zscore_arguments_validated sample_sqrt constant_series (-1))).
  lia.
Defined.

Lemma zscore_warmup_missing_witness :
  exists z, compute_zscore sample_sqrt constant_series 4 None = Ok z /\
            nth_error (values z) 0 = Some NaN.
Proof.
  eexists. split; [vm_compute; reflexivity|].
  apply (@zscore_warmup_missing sample_sqrt constant_series _ 4 None 0).
  - vm_compute. reflexivity.
  - simpl. lia.
  - vm_compute. reflexivity.
Defined.

(** ** The z-score of a series that does not vary *)

Lemma Qnat_S n : Qnat (S n) == Qnat n + 1.
Proof. unfold Qnat. apply inject_Z_of_nat_S. Qed.

Lemma Qnat_pos n : (0 < n)%nat -> 0 < Qnat n.
Proof.
  intros H. unfold Qnat. change 0 with (inject_Z (Z.of_nat 0)).
  now apply inject_Z_of_nat_lt.
Qed.

Lemma fdiv_by_count s n :
  (0 < n)%nat -> fdiv (Fin s) (Fin (Qnat n)) = Fin (s / Qnat n).
Proof.
  intros H. apply Qnat_pos in H. cbn [fdiv].
  apply Qgt_alt in H. now rewrite H.
Qed.

Lemma fsum_from_constant c obs :
  Forall (fun v => v = Fin c) obs ->
  forall a, exists s, fold_left fadd obs (Fin a) = Fin s /\
                      s == a + Qnat (length obs) * c.
Proof.
  induction 1 as [|v tl Hv _ IH]; intros a.
  - exists a. split; [reflexivity|]. cbn [length]. unfold Qnat. simpl. ring.
  - subst v. cbn [fold_left fadd].
    destruct (IH (a + c)) as [s [Hs Es]]. exists s. split; [exact Hs|].
    rewrite Es. cbn [length]. rewrite Qnat_S. ring.
Qed.

Lemma fsum_from_zeros obs :
  Forall (fun v => exists q, v = Fin q /\ q == 0) obs ->
  forall a, exists s, fold_left fadd obs (Fin a) = Fin s /\ s == a.
Proof.
  induction 1 as [|v tl [q [-> Hq]] _ IH]; intros a.
  - exists a. split; reflexivity.
  - cbn [fold_left fadd].
    destruct (IH (a + q)) as [s [Hs Es]]. exists s. split; [exact Hs|].
    rewrite Es, Hq. ring.
Qed.

Section ConstantSeries.

Variable Qsqrt : Q -> Q.
Hypothesis sqrt_zero : forall q, q == 0 -> Qsqrt q == 0.

(** Over a window whose observed values are all [c], the rolling
    standard deviation is zero or missing, so the divisor of the z-score
    is missing. *)
Lemma constant_window_divisor c m (win : list float) :
  Forall (fun v => v = NaN \/ v = Fin c) win ->
  replace_zero_nan (zsqrt Qsqrt (roll_var_at m win)) = NaN.
Proof.
  intros Hwin. unfold roll_var_at.
  set (obs := dropna_values win).
  assert (Hobs : Forall (fun v => v = Fin c) obs).
  { apply Forall_forall. intros v Hv. unfold obs, dropna_values in Hv.
    apply filter_In in Hv. destruct Hv as [Hin Hn].
    rewrite Forall_forall in Hwin. destruct (Hwin _ Hin) as [-> | ->];
      [discriminate | reflexivity]. }
  cbv zeta.
  destruct ((m <=? length obs)%nat && (1 <? length obs)%nat) eqn:E; [|reflexivity].
  apply andb_true_iff in E. destruct E as [_ E]. apply Nat.ltb_lt in E.
  destruct (fsum_from_constant Hobs 0) as [s [Hs Es]].
  unfold fsum, fzero. rewrite Hs.
  rewrite fdiv_by_count by lia.
  assert (Emu : s / Qnat (length obs) == c).
  { rewrite Es. field. intros C.
    assert (0 < Qnat (length obs)) by (apply Qnat_pos; lia). lra. }
  assert (Hdev : Forall (fun v => exists q, v = Fin q /\ q == 0)
                   (map (fun x => fmul (fsub x (Fin (s / Qnat (length obs))))
                                       (fsub x (Fin (s / Qnat (length obs))))) obs)).
  { apply Forall_forall. intros v Hv. apply in_map_iff in Hv.
    destruct Hv as [x [<- Hx]]. rewrite Forall_forall in Hobs.
    rewrite (Hobs _ Hx). cbn [fsub fmul]. eexists. split; [reflexivity|].
    rewrite Emu. ring. }
  destruct (fsum_from_zeros Hdev 0) as [d [Hd Ed]]. rewrite Hd.
  rewrite fdiv_by_count by lia.
  assert (Evar : d / Qnat (length obs - 1) == 0).
  { rewrite Ed. unfold Qdiv. ring. }
  unfold zsqrt.
  assert (Hneg : Qlt_bool (d / Qnat (length obs - 1)) 0 = false).
  { apply Qlt_bool_false_iff. rewrite Evar. apply Qle_refl. }
  rewrite Hneg. unfold replace_zero_nan, fzero. cbn [feqb].
  assert (Hz : Qeq_bool (Qsqrt (d / Qnat (length obs - 1))) 0 = true).
  { apply Qeq_bool_iff. now apply sqrt_zero. }
  now rewrite Hz.
Qed.

(** X18.  A series that does not vary has no z-score: when every observed
    value of the input equals the same number, every rolling standard
    deviation is zero or missing, and the z-score returned is missing at
    every timestamp. *)
Theorem zscore_of_constant_is_missing (series z : Series) (window : Z)
    (min_periods : option Z) (c : Q) :
  Forall (fun v => v = NaN \/ v = Fin c) (values series) ->
  compute_zscore Qsqrt series window min_periods = Ok z ->
  index z = index series /\
  Forall (fun v => v = NaN) (values z).
Proof.
  intros Hc Hz.
  assert (Hidx : index z = index series).
  { revert Hz. unfold compute_zscore.
    destruct (check_rolling window _) as [wm|e]; cbn [rbind]; [|discriminate].
    intros Hz. inversion Hz. apply index_with_values.
    rewrite !zip_with_length, length_map, rolling_mean_length, rolling_std_length,
      values_length. lia. }
  split; [exact Hidx|].
  apply Forall_forall. intros v Hv. apply In_nth_error in Hv. destruct Hv as [i Hi].
  assert (Hil : (i < length (values series))%nat).
  { rewrite values_length, <- (index_length series), <- Hidx, index_length,
      <- (values_length z). apply nth_error_Some. congruence. }
  destruct (nth_error (values series) i) as [x|] eqn:Hx.
  2:{ apply nth_error_None in Hx. lia. }
  destruct (@compute_zscore_at Qsqrt series z window min_periods i x Hz Hx)
    as [w [m [_ [_ Hv]]]].
  cbv zeta in Hv. rewrite Hv in Hi. inversion Hi; subst v; clear Hi.
  rewrite (@constant_window_divisor c).
  - apply fdiv_nan_r.
  - apply slice_Forall. apply Forall_forall. intros u Hu.
    apply in_map_iff in Hu. destruct Hu as [u0 [<- Hu0]].
    rewrite Forall_forall in Hc. destruct (Hc _ Hu0) as [-> | ->]; auto.
Qed.

End ConstantSeries.

Lemma zscore_of_constant_is_missing_witness :
  exists z, compute_zscore sample_sqrt constant_series 2 None = Ok z /\
            Forall (fun v => v = NaN) (values z).
Proof.
  eexists. split; [vm_compute; reflexivity|].
  apply (@zscore_of_constant_is_missing sample_sqrt) with (window := 2%Z)
    (min_periods := @None Z) (c := 3) (series := constant_series).
  - intros q Hq. unfold sample_sqrt. apply Qeq_bool_iff in Hq. now rewrite Hq.
  - unfold constant_series. simpl.
    repeat (apply Forall_cons; [right; reflexivity|]). apply Forall_nil.
  - vm_compute. reflexivity.
Defined.

(* ================================================================== *)
(** * Further facts: winsorize_series *)

Lemma StronglySorted_lt_NoDup (l : list Timestamp) :
  StronglySorted Z.lt l -> NoDup l.
Proof.
  induction 1 as [|t l _ IH Hall]; constructor; auto.
  intros Hin. rewrite Forall_forall in Hall. specialize (Hall _ Hin). lia.
Qed.

Lemma sort_labels_sorted (l : list Timestamp) :
  StronglySorted Z.lt l -> sort_labels l = l.
Proof.
  induction 1 as [|t l _ IH Hall]; [reflexivity|].
  unfold sort_labels in *. cbn [fold_right]. rewrite IH.
  destruct l as [|h tl]; [reflexivity|]. cbn [insert_label].
  inversion Hall; subst.
  destruct (Z.leb_spec t h); [reflexivity | lia].
Qed.

Lemma filter_known_labels (a b : list Timestamp) :
  (forall t, In t b -> In t a) ->
  filter (fun t => negb (mem_label t a)) b = [].
Proof.
  intros H. induction b as [|h tl IH]; [reflexivity|].
  cbn [filter].
  assert (Hh : mem_label h a = true) by (apply mem_label_true, H; now left).
  rewrite Hh. cbn [negb]. apply IH. intros t Ht. apply H. now right.
Qed.

Lemma tabulate_rows (f : Timestamp -> float) (s : Series) :
  (forall t v, In (t, v) s -> f t = v) ->
  map (fun t => (t, f t)) (index s) = s.
Proof.
  induction s as [|[t v] tl IH]; intros H; [reflexivity|].
  cbn [index map fst]. rewrite (H t v) by now left.
  f_equal. apply IH. intros t' v' Hin. apply H. now right.
Qed.

(** On a strictly increasing index, [combine_first] with a series that
    lives on the caller's observed labels gives back the caller. *)
Lemma combine_first_returns_caller (s w : Series) :
  StronglySorted Z.lt (index s) ->
  index w = index (dropna s) ->
  combine_first s w = Ok s.
Proof.
  intros Hsorted Hw.
  pose proof (StronglySorted_lt_NoDup Hsorted) as Hnd.
  unfold combine_first.
  destruct (labels_eqb (index s) (index w)) eqn:E.
  - apply labels_eqb_eq in E.
    assert (Hall : dropna s = s).
    { assert (Hl : length (dropna s) = length s).
      { rewrite <- (index_length (dropna s)), <- Hw, <- E. apply index_length. }
      now apply filter_length_all. }
    assert (Hobs : Forall (fun v => isnan v = false) (values s)).
    { apply Forall_forall. intros v Hv. unfold values in Hv.
      apply in_map_iff in Hv. destruct Hv as [[t v'] [Ev Hin]]. simpl in Ev. subst v'.
      rewrite <- Hall in Hin. apply filter_In in Hin. destruct Hin as [_ Hn].
      simpl in Hn. unfold notna in Hn. now apply negb_true_iff in Hn. }
    rewrite zip_keep_observed; auto.
    + now rewrite combine_index_values.
    + rewrite !values_length, <- (index_length w), <- E, index_length. lia.
  - rewrite (proj2 (has_duplicates_false _) Hnd).
    assert (Hndw : NoDup (index w)) by (rewrite Hw; now apply NoDup_index_dropna).
    rewrite (proj2 (has_duplicates_false _) Hndw). cbn [orb].
    assert (Hsub : forall t, In t (index w) -> In t (index s)).
    { intros t Ht. rewrite Hw in Ht. unfold index, dropna in *.
      apply in_map_iff in Ht. destruct Ht as [r [Er Hr]].
      apply filter_In in Hr. apply in_map_iff. exists r. tauto. }
    unfold index_union. rewrite E, (filter_known_labels _ _ Hsub), app_nil_r.
    rewrite (sort_labels_sorted Hsorted). f_equal.
    apply tabulate_rows. intros t v Hin.
    rewrite (lookup_in s t v Hnd Hin).
    destruct (isnan v) eqn:Ev; [|reflexivity].
    rewrite lookup_absent; [destruct v; simpl in Ev; congruence|].
    intros Hin'. rewrite Hw in Hin'.
    pose proof (dropna_index_in _ _ Hnd Hin') as Hobs.
    rewrite (lookup_in s t v Hnd Hin) in Hobs. congruence.
Qed.

(** X19.  On a series with strictly increasing timestamps and at least one
    observed value, under usable percentiles, [winsorize_series] returns
    the series it was given: the winsorized values only fill the slots
    that are missing in the input, and there are none on the labels they
    carry. *)
Theorem winsorize_series_returns_input (self : builder) (series : Series) :
  usable_percentiles self ->
  StronglySorted Z.lt (index series) ->
  dropna series <> [] ->
  winsorize_series self series = Ok series.
Proof.
  intros Hp Hsorted Hne.
  destruct (winsorize_limits_usable Hp) as [l [u [Hlim [Hl0 [Hl1 [Hu0 Hu1]]]]]].
  destruct (@mstats_winsorize_ok (values (dropna series)) l u) as [w [Hw Hlen]]; auto.
  { intros C. apply Hne. unfold values in C. now apply map_eq_nil in C. }
  unfold winsorize_series, winsorized_part. rewrite Hlim, Hw. cbn [rbind].
  apply combine_first_returns_caller; [exact Hsorted|].
  apply map_fst_combine. now rewrite index_length, Hlen, values_length.
Qed.

Lemma winsorize_series_returns_input_witness :
  winsorize_series sample_builder outlier_series = Ok outlier_series.
Proof.
  apply winsorize_series_returns_input.
  - exists 25, 75. repeat split; try reflexivity; discriminate.
  - unfold outlier_series. simpl.
    repeat (apply SSorted_cons; [|repeat (apply Forall_cons; [lia|]); apply Forall_nil]).
    apply SSorted_nil.
  - discriminate.
Defined.

Lemma winsorize_limits_in_range (self : builder) lo hi :
  winsorize_lower self = Fin lo -> winsorize_upper self = Fin hi ->
  0 <= lo -> lo <= 100 -> 0 <= hi -> hi <= 100 ->
  exists l u, winsorize_limits self = (Fin l, Fin u) /\
              0 <= l /\ l <= 1 /\ 0 <= u /\ u <= 1.
Proof.
  intros Hlo Hhi H0 H1 H2 H3.
  exists (lo / 100), ((100 - hi) / 100).
  unfold winsorize_limits. rewrite Hlo, Hhi. split; [reflexivity|].
  repeat split.
  - apply Qle_shift_div_l; [reflexivity | lra].
  - apply Qle_shift_div_r; [reflexivity | lra].
  - apply Qle_shift_div_l; [reflexivity | lra].
  - apply Qle_shift_div_r; [reflexivity | lra].
Qed.

(** scipy's winsorize on an empty array: the limits pass the checks and
    the empty argsort is indexed. *)
Lemma mstats_winsorize_nothing (l u : Q) :
  0 <= l -> l <= 1 -> 0 <= u -> u <= 1 ->
  exists msg, mstats_winsorize [] (Fin l, Fin u) = Raise (IndexError msg).
Proof.
  intros Hl0 Hl1 Hu0 Hu1. unfold mstats_winsorize.
  rewrite !check_limit_ok by assumption. cbn [rbind length].
  change (argsort []) with (@nil nat).
  assert (Hcut : forall x, Z.to_nat (Qfloor (x * Qnat 0)) = 0%nat).
  { intros x. assert (E : x * Qnat 0 == 0) by (unfold Qnat; simpl; ring).
    now rewrite E. }
  destruct (feqb (Fin l) fzero).
  - cbn [rbind int_of_scaled]. rewrite Hcut. cbn. eauto.
  - cbn [rbind int_of_scaled]. rewrite Hcut. cbn. eauto.
Qed.

(** X20.  A series without any observed value cannot be winsorized: with
    percentiles in [0, 100] the limits pass scipy's checks, the
    non-missing part handed over is empty, and indexing its empty
    argsort raises IndexError.  So does [build_composite_index] with
    winsorization whenever the row means are all missing. *)
Theorem winsorize_series_needs_an_observation (self : builder) (series : Series)
    (lo hi : Q) :
  winsorize_lower self = Fin lo -> winsorize_upper self = Fin hi ->
  0 <= lo -> lo <= 100 -> 0 <= hi -> hi <= 100 ->
  dropna series = [] ->
  exists msg, winsorize_series self series = Raise (IndexError msg).
Proof.
  intros Hlo Hhi H0 H1 H2 H3 Hempty.
  destruct (winsorize_limits_in_range self Hlo Hhi H0 H1 H2 H3)
    as [l [u [Hlim [Hl0 [Hl1 [Hu0 Hu1]]]]]].
  unfold winsorize_series, winsorized_part. rewrite Hlim, Hempty.
  change (values []) with (@nil float).
  destruct (mstats_winsorize_nothing Hl0 Hl1 Hu0 Hu1) as [msg ->].
  cbn [rbind]. eauto.
Qed.

Lemma winsorize_series_needs_an_observation_witness :
  exists msg, winsorize_series sample_builder [(1%Z, NaN); (2%Z, NaN)]
              = Raise (IndexError msg).
Proof.
  apply (@winsorize_series_needs_an_observation sample_builder _ 25 75);
    try reflexivity; discriminate.
Defined.

Lemma check_limit_rejects l which :
  l < 0 \/ 1 < l ->
  exists msg, check_limit (Fin l) which = Raise (ValueError msg).
Proof.
  intros H. unfold check_limit. cbn [flt fone fzero].
  destruct (Qlt_bool 1 l) eqn:E1; cbn [orb]; [eauto|].
  destruct (Qlt_bool l 0) eqn:E2; [eauto|].
  apply Qlt_bool_false_iff in E1. apply Qlt_bool_false_iff in E2. lra.
Qed.

(** X21.  Percentiles out of range are refused before any value is looked
    at: with a lower or upper percentile of -1 or less, or above 100, the
    proportion to cut on that side is negative or above 1, and
    [winsorize_series] raises ValueError whatever the series. *)
Theorem winsorize_percentiles_validated (self : builder) (series : Series)
    (lo hi : Q) :
  winsorize_lower self = Fin lo -> winsorize_upper self = Fin hi ->
  lo <= -1 \/ 100 < lo \/ hi <= -1 \/ 100 < hi ->
  exists msg, winsorize_series self series = Raise (ValueError msg).
Proof.
  intros Hlo Hhi Hout.
  unfold winsorize_series, winsorized_part, winsorize_limits, mstats_winsorize.
  rewrite Hlo, Hhi. cbn [fdiv fsub fhundred].
  change (100 ?= 0) with Gt. cbv iota.
  destruct (Qlt_le_dec (lo / 100) 0) as [Hl | Hl].
  { destruct (@check_limit_rejects (lo / 100) "beginning") as [msg ->]; [now left|].
    cbn [rbind]. eauto. }
  destruct (Qlt_le_dec 1 (lo / 100)) as [Hl' | Hl'].
  { destruct (@check_limit_rejects (lo / 100) "beginning") as [msg ->]; [now right|].
    cbn [rbind]. eauto. }
  rewrite check_limit_ok by assumption. cbn [rbind].
  assert (Hlo01 : 0 <= lo /\ lo <= 100).
  { assert (E : lo == lo / 100 * 100) by (field; discriminate).
    split; rewrite E; nra. }
  destruct (@check_limit_rejects ((100 - hi) / 100) "end") as [msg ->].
  { assert (E : 100 - hi == (100 - hi) / 100 * 100) by (field; discriminate).
    destruct Hout as [H | [H | [H | H]]];
      first [ lra
            | right; apply Qlt_shift_div_l; [reflexivity | lra]
            | left; apply Qlt_shift_div_r; [reflexivity | lra] ]. }
  cbn [rbind]. eauto.
Qed.

Lemma winsorize_percentiles_validated_witness :
  exists msg,
    winsorize_series {| short_window := 2; medium_window := 2; long_window := 4;
                        winsorize_lower := Fin 1; winsorize_upper := Fin 101 |}
      outlier_series = Raise (ValueError msg).
Proof.
  apply (@winsorize_percentiles_validated _ outlier_series 1 101);
    try reflexivity.
  right. right. right. reflexivity.
Defined.

(* ================================================================== *)
(** * Further facts: the co-movement proxy with two or more instruments *)

Lemma rolling_var_length w minp vs : length (rolling_var w minp vs) = length vs.
Proof. unfold rolling_var. now rewrite length_map, rolling_windows_length. Qed.

Lemma rolling_sum_length w minp vs : length (rolling_sum w minp vs) = length vs.
Proof. unfold rolling_sum. now rewrite length_map, rolling_windows_length. Qed.

Lemma rolling_corr_length (Qsqrt : Q -> Q) w x y :
  length x = length y -> length (rolling_corr Qsqrt w x y) = length x.
Proof.
  intros H. unfold rolling_corr.
  repeat (rewrite ?zip_with_length, ?length_map, ?rolling_mean_length,
            ?rolling_var_length, ?rolling_sum_length).
  lia.
Qed.

Lemma find_column_some name cols vs :
  find_column name cols = Some vs -> In (name, vs) cols.
Proof.
  induction cols as [|[n v] tl IH]; simpl; [discriminate|].
  destruct (String.eqb_spec n name) as [-> | _].
  - intros H. inversion H. now left.
  - intros H. right. auto.
Qed.

Lemma find_column_set_same name vs cols :
  find_column name (set_column name vs cols) = Some vs.
Proof.
  induction cols as [|[n v] tl IH]; simpl.
  - now rewrite String.eqb_refl.
  - destruct (String.eqb_spec n name) as [-> | Hne]; simpl.
    + now rewrite String.eqb_refl.
    + destruct (String.eqb_spec n name); [congruence | exact IH].
Qed.

Lemma find_column_set_other name other vs cols :
  other <> name ->
  find_column other (set_column name vs cols) = find_column other cols.
Proof.
  intros Hne. induction cols as [|[n v] tl IH]; simpl.
  - destruct (String.eqb_spec name other); [congruence | reflexivity].
  - destruct (String.eqb_spec n name) as [-> | Hn]; simpl.
    + destruct (String.eqb_spec name other); [congruence | reflexivity].
    + destruct (String.eqb_spec n other); [reflexivity | exact IH].
Qed.

Lemma select_columns_spec (df : DataFrame) names cols :
  select_columns df names = Ok cols ->
  map fst cols = names /\
  Forall2 (fun n c => find_column n (df_columns df) = Some (snd c)) names cols.
Proof.
  revert cols. induction names as [|n tl IH]; intros cols; simpl.
  - intros H. inversion H. split; [reflexivity | constructor].
  - destruct (find_column n (df_columns df)) as [vs|] eqn:E; [|discriminate].
    destruct (select_columns df tl) as [rest|e]; cbn [rbind]; [|discriminate].
    intros H. inversion H; subst. destruct (IH rest eq_refl) as [Hn Hf].
    split; [simpl; now rewrite Hn | constructor; [exact E | exact Hf]].
Qed.

Lemma select_columns_well_formed (df : DataFrame) names cols :
  well_formed df -> select_columns df names = Ok cols ->
  well_formed {| df_index := df_index df; df_columns := cols |}.
Proof.
  intros Hwf H. destruct (@select_columns_spec df names cols H) as [_ Hf].
  unfold well_formed in *. cbn [df_index df_columns].
  rewrite Forall_forall in Hwf. clear H.
  induction Hf as [|n c names' cols' Hc _ IH]; constructor; [|exact IH].
  apply find_column_some in Hc. apply (Hwf _ Hc).
Qed.

Lemma pair_name_not_avg col1 col2 : pair_name col1 col2 <> "avg_corr"%string.
Proof. unfold pair_name. cbn [append]. discriminate. Qed.

Section Comovement.

Variable Qsqrt : Q -> Q.
Variables (self : builder) (returns etf_returns : DataFrame).
Hypothesis medium_ok : (0 <= medium_window self)%Z.
Hypothesis etf_wf : well_formed etf_returns.
Hypothesis etf_rows : df_index etf_returns = df_index returns.

Lemma comovement_pair_ok (col1 col2 : string) (st : pair_state) :
  In col1 (columns etf_returns) -> In col2 (columns etf_returns) ->
  df_index (fst st) = df_index returns ->
  exists components,
    comovement_pair Qsqrt self etf_returns col1 col2 st
    = Ok (components, snd st ++ [pair_name col1 col2]) /\
    df_index components = df_index returns /\
    forall c, In c (columns components) <->
              c = pair_name col1 col2 \/ In c (columns (fst st)).
Proof.
  intros H1 H2 Hidx. unfold comovement_pair.
  destruct (@getitem_ok etf_returns col1 etf_wf H1) as [x [-> Hx]]. cbn [rbind].
  unfold check_window. destruct (Z.ltb_spec (medium_window self) 0); [lia|].
  cbn [rbind].
  destruct (@getitem_ok etf_returns col2 etf_wf H2) as [y [-> Hy]]. cbn [rbind].
  unfold reindex. rewrite (proj2 (labels_eqb_eq (index y) (index x))) by congruence.
  cbn [rbind].
  assert (Hlen : length (values x) = length (values y)).
  { rewrite !values_length, <- (index_length x), <- (index_length y). congruence. }
  destruct (@setitem_ok (fst st) (pair_name col1 col2)
              (with_values x (rolling_corr Qsqrt (Z.to_nat (medium_window self))
                                (values x) (values y))))
    as [components [Hset [Hci Hcols]]].
  { rewrite index_with_values; [congruence|].
    now rewrite rolling_corr_length, values_length. }
  fold (pair_name col1 col2). rewrite Hset. cbn [rbind].
  exists components. split; [reflexivity|]. split; [congruence | exact Hcols].
Qed.

Lemma comovement_inner_ok (col1 : string) (rest : list string) (st : pair_state) :
  In col1 (columns etf_returns) ->
  (forall c, In c rest -> In c (columns etf_returns)) ->
  df_index (fst st) = df_index returns ->
  exists components,
    comovement_inner Qsqrt self etf_returns col1 rest st
    = Ok (components, snd st ++ map (pair_name col1) rest) /\
    df_index components = df_index returns /\
    forall c, In c (columns components) <->
              In c (map (pair_name col1) rest) \/ In c (columns (fst st)).
Proof.
  intros H1. revert st. induction rest as [|col2 tl IH]; intros st Hsub Hidx.
  - exists (fst st). cbn [comovement_inner map]. rewrite app_nil_r.
    split; [now destruct st|]. split; [exact Hidx|].
    intros c. split; [auto | intros [[] | H]; exact H].
  - cbn [comovement_inner].
    destruct (@comovement_pair_ok col1 col2 st H1 (Hsub _ (or_introl eq_refl)) Hidx)
      as [c1 [-> [Hi1 Hc1]]]. cbn [rbind].
    destruct (IH (c1, snd st ++ [pair_name col1 col2])) as [c2 [-> [Hi2 Hc2]]].
    + intros c Hc. apply Hsub. now right.
    + exact Hi1.
    + exists c2. cbn [fst snd map]. rewrite <- app_assoc. split; [reflexivity|].
      split; [exact Hi2|].
      intros c. rewrite Hc2. cbn [fst]. rewrite Hc1. cbn [In]. intuition.
Qed.

Lemma comovement_outer_ok (etf_cols : list string) (st : pair_state) :
  (forall c, In c etf_cols -> In c (columns etf_returns)) ->
  df_index (fst st) = df_index returns ->
  exists components,
    comovement_outer Qsqrt self etf_returns etf_cols st
    = Ok (components, snd st ++ pair_names etf_cols) /\
    df_index components = df_index returns /\
    forall c, In c (columns components) <->
              In c (pair_names etf_cols) \/ In c (columns (fst st)).
Proof.
  revert st. induction etf_cols as [|col1 rest IH]; intros st Hsub Hidx.
  - exists (fst st). cbn [comovement_outer pair_names]. rewrite app_nil_r.
    split; [now destruct st|]. split; [exact Hidx|].
    intros c. split; [auto | intros [[] | H]; exact H].
  - cbn [comovement_outer pair_names].
    destruct (@comovement_inner_ok col1 rest st) as [c1 [-> [Hi1 Hc1]]].
    + apply Hsub. now left.
    + intros c Hc. apply Hsub. now right.
    + exact Hidx.
    + cbn [rbind].
      destruct (IH (c1, snd st ++ map (pair_name col1) rest)) as [c2 [-> [Hi2 Hc2]]].
      * intros c Hc. apply Hsub. now right.
      * exact Hi1.
      * exists c2. cbn [fst snd]. rewrite <- app_assoc. split; [reflexivity|].
        split; [exact Hi2|].
        intros c. rewrite Hc2. cbn [fst]. rewrite Hc1, in_app_iff. intuition.
Qed.

End Comovement.

Lemma pair_names_nonempty (etf_cols : list string) :
  (2 <= length etf_cols)%nat -> pair_names etf_cols <> [].
Proof.
  destruct etf_cols as [|a [|b tl]]; simpl; try lia. discriminate.
Qed.

(** The whole run of the builder on two or more instruments. *)
Lemma build_comovement_proxy_run (Qsqrt : Q -> Q) (self : builder)
    (returns : DataFrame) :
  (0 <= medium_window self)%Z -> well_formed returns ->
  let etf_cols := filter (fun col => endswith col "_ret") (columns returns) in
  (2 <= length etf_cols)%nat ->
  exists pairs_table selected,
    df_index pairs_table = df_index returns /\
    (forall c, In c (columns pairs_table) <-> In c (pair_names etf_cols)) /\
    select_columns pairs_table (pair_names etf_cols) = Ok selected /\
    let components :=
      {| df_index := df_index pairs_table;
         df_columns :=
           set_column "avg_corr"
             (values (mean_axis1 {| df_index := df_index pairs_table;
                                    df_columns := selected |}))
             (df_columns pairs_table) |} in
    build_comovement_proxy Qsqrt self returns
    = ([(INFO, "Building co-movement crowding proxy..."%string);
        (INFO, ("Co-movement proxy created with "
                 ++ string_of_nat (length (columns components))
                 ++ " components")%string)],
       Ok components).
Proof.
  intros Hm Hwf etf_cols Hlen. unfold build_comovement_proxy. fold etf_cols.
  assert (Hsub : forall n, In n etf_cols -> In n (columns returns)).
  { intros n Hn. apply filter_In in Hn. tauto. }
  destruct (@select_columns_ok returns etf_cols Hsub) as [cols Hcols].
  unfold getitem_list at 1. rewrite Hcols. cbn [rbind].
  destruct (Nat.ltb_spec (length etf_cols) 2); [lia|].
  set (etf_returns := {| df_index := df_index returns; df_columns := cols |}).
  assert (Hewf : well_formed etf_returns) by exact (@select_columns_well_formed returns etf_cols cols Hwf Hcols).
  assert (Hecols : columns etf_returns = etf_cols).
  { unfold columns, etf_returns. cbn [df_columns].
    exact (proj1 (@select_columns_spec returns etf_cols cols Hcols)). }
  destruct (@comovement_outer_ok Qsqrt self returns etf_returns Hm Hewf eq_refl
              etf_cols (empty_frame (df_index returns), []))
    as [pt [Hout [Hpi Hpc]]].
  { intros c Hc. now rewrite Hecols. }
  { reflexivity. }
  cbn [snd app] in Hout. rewrite Hout. cbn [rbind fst snd].
  assert (Hpc' : forall c, In c (columns pt) <-> In c (pair_names etf_cols)).
  { intros c. rewrite Hpc. cbn. tauto. }
  destruct (@select_columns_ok pt (pair_names etf_cols)) as [selected Hsel].
  { intros n Hn. now apply Hpc'. }
  exists pt, selected. split; [exact Hpi|]. split; [exact Hpc'|]. split; [exact Hsel|].
  destruct (pair_names etf_cols) as [|p ps] eqn:Ep.
  { exfalso. now apply (@pair_names_nonempty etf_cols). }
  unfold getitem_list. rewrite Hsel. cbn [rbind].
  unfold setitem, reindex.
  assert (Hmi : index (mean_axis1 {| df_index := df_index pt; df_columns := selected |})
                = df_index pt)
    by exact (mean_axis1_index {| df_index := df_index pt; df_columns := selected |}).
  rewrite (proj2 (labels_eqb_eq _ _) Hmi).
  cbn [rbind]. reflexivity.
Qed.

(** X22.  With two or more columns ending in "_ret" (uniquely named,
    well-formed table, medium window of 0 or more) the co-movement
    builder never warns and never fails: it returns a table on the rows
    of the returns whose columns are exactly the correlations of the
    pairs [(col1, col2)], [col1] standing before [col2] among those
    columns, named "corr_<ticker1>_<ticker2>", and the column
    "avg_corr". *)
Theorem comovement_columns (Qsqrt : Q -> Q) (self : builder) (returns : DataFrame) :
  (0 <= medium_window self)%Z -> well_formed returns -> NoDup (columns returns) ->
  (2 <= length (filter (fun col => endswith col "_ret") (columns returns)))%nat ->
  exists log components,
    build_comovement_proxy Qsqrt self returns = (log, Ok components) /\
    existsb is_warning log = false /\
    df_index components = df_index returns /\
    forall c, In c (columns components) <->
      c = "avg_corr"%string \/
      In c (pair_names (filter (fun col => endswith col "_ret") (columns returns))).
Proof.
  intros Hm Hwf _ Hlen.
  destruct (@build_comovement_proxy_run Qsqrt self returns Hm Hwf Hlen)
    as [pt [selected [Hpi [Hpc [_ Hrun]]]]].
  cbv zeta in Hrun. rewrite Hrun. eexists _, _. split; [reflexivity|]. split; [reflexivity|].
  split; [exact Hpi|].
  intros c. unfold columns at 1. cbn [df_columns]. rewrite set_column_names.
  fold (columns pt). now rewrite Hpc.
Qed.

Lemma comovement_columns_witness :
  exists log components,
    build_comovement_proxy sample_sqrt sample_builder two_etf_table
    = (log, Ok components) /\
    In "corr_MTUM_VLUE"%string (columns components) /\
    In "avg_corr"%string (columns components).
Proof.
  destruct (@comovement_columns sample_sqrt sample_builder two_etf_table)
    as [log [components [Hrun [_ [_ Hcols]]]]].
  - simpl. lia.
  - repeat constructor.
  - repeat constructor; simpl; intuition discriminate.
  - simpl. lia.
  - exists log, components. split; [exact Hrun|]. split.
    + apply Hcols. right. simpl. now left.
    + apply Hcols. now left.
Defined.

Lemma row_selected (df : DataFrame) names cols i :
  select_columns df names = Ok cols ->
  row {| df_index := df_index df; df_columns := cols |} i
  = map (fun n => cell df n i) names.
Proof.
  intros H. destruct (@select_columns_spec df names cols H) as [_ Hf].
  unfold row. cbn [df_columns]. clear H.
  induction Hf as [|n c names' cols' Hc _ IH]; [reflexivity|].
  cbn [map]. rewrite IH. f_equal. unfold cell. now rewrite Hc.
Qed.

(** X23.  The average correlation is the row mean of the pair
    correlations that are present: at every row, "avg_corr" holds the
    mean of the non-missing values of the pair columns at that row, and
    is missing when all of them are. *)
Theorem comovement_average_is_row_mean (Qsqrt : Q -> Q) (self : builder)
    (returns : DataFrame) (i : nat) :
  (0 <= medium_window self)%Z -> well_formed returns -> NoDup (columns returns) ->
  (2 <= length (filter (fun col => endswith col "_ret") (columns returns)))%nat ->
  (i < length (df_index returns))%nat ->
  exists log components,
    build_comovement_proxy Qsqrt self returns = (log, Ok components) /\
    cell components "avg_corr" i
    = nanmean (map (fun p => cell components p i)
                   (pair_names (filter (fun col => endswith col "_ret")
                                       (columns returns)))).
Proof.
  intros Hm Hwf _ Hlen Hi.
  destruct (@build_comovement_proxy_run Qsqrt self returns Hm Hwf Hlen)
    as [pt [selected [Hpi [Hpc [Hsel Hrun]]]]].
  cbv zeta in Hrun. rewrite Hrun. eexists _, _. split; [reflexivity|].
  unfold cell at 1. cbn [df_columns]. rewrite find_column_set_same.
  unfold mean_axis1. cbn [df_index]. rewrite Hpi.
  unfold values. rewrite map_snd_combine by now rewrite length_map, length_seq.
  rewrite (nth_indep _ NaN (nanmean (row {| df_index := df_index returns;
                                            df_columns := selected |} i)))
    by now rewrite length_map, length_seq.
  rewrite (map_nth (fun i => nanmean (row {| df_index := df_index returns;
                                             df_columns := selected |} i))),
    seq_nth by exact Hi.
  cbn [plus]. rewrite <- Hpi, (@row_selected pt _ selected i Hsel). f_equal.
  apply map_ext_in. intros p Hp. unfold cell. cbn [df_columns].
  rewrite find_column_set_other; [reflexivity|].
  clear -Hp. revert Hp.
  generalize (filter (fun col => endswith col "_ret") (columns returns)).
  induction l as [|a l IH]; cbn [pair_names]; [intros []|].
  rewrite in_app_iff, in_map_iff. intros [[b [<- _]] | H]; [|auto].
  apply pair_name_not_avg.
Qed.

Lemma comovement_average_is_row_mean_witness :
  exists log components,
    build_comovement_proxy sample_sqrt sample_builder two_etf_table
    = (log, Ok components) /\
    cell components "avg_corr" 1
    = nanmean [cell components "corr_MTUM_VLUE" 1].
Proof.
  apply (@comovement_average_is_row_mean sample_sqrt sample_builder two_etf_table 1).
  - simpl. lia.
  - repeat constructor.
  - repeat constructor; simpl; intuition discriminate.
  - simpl. lia.
  - simpl. lia.
Defined.

(* ================================================================== *)
(** * Further facts: warm-up rows of the rolling statistics *)

Lemma unobserved_window w (vs : list float) i :
  (S i < w)%nat ->
  (count_obs (slice (map prep_value vs) (S i - w) (S i)) < w)%nat.
Proof.
  intros H. unfold count_obs.
  pose proof (count_obs_le (slice (map prep_value vs) (S i - w) (S i))).
  pose proof (window_length_le (map prep_value vs) (S i - w) (S i)). lia.
Qed.

Lemma rolling_std_warmup (Qsqrt : Q -> Q) w vs i :
  (i < length vs)%nat -> (S i < w)%nat ->
  nth_error (rolling_std Qsqrt w w vs) i = Some NaN.
Proof.
  intros Hi Hw. unfold rolling_std, rolling_var.
  rewrite !nth_error_map, (rolling_window_at w _ Hi). cbn [option_map].
  unfold roll_var_at. pose proof (@unobserved_window w vs i Hw) as Hc.
  unfold count_obs in Hc.
  destruct (Nat.leb_spec w (length (dropna_values
              (slice (map prep_value vs) (S i - w) (S i))))); [lia | reflexivity].
Qed.

Lemma rolling_sum_warmup w vs i :
  (i < length vs)%nat -> (S i < w)%nat ->
  nth_error (rolling_sum w w vs) i = Some NaN.
Proof.
  intros Hi Hw. unfold rolling_sum.
  rewrite nth_error_map, (rolling_window_at w _ Hi). cbn [option_map].
  unfold roll_sum_at. pose proof (@unobserved_window w vs i Hw) as Hc.
  unfold count_obs in Hc.
  destruct (Nat.leb_spec w (length (dropna_values
              (slice (map prep_value vs) (S i - w) (S i))))); [lia | reflexivity].
Qed.

Lemma rolling_apply_warmup window f vs i :
  (0 <= window)%Z -> (i < length vs)%nat -> (Z.of_nat (S i) < window)%Z ->
  exists out, rolling_apply window f vs = Ok out /\
              length out = length vs /\
              nth_error out i = Some NaN.
Proof.
  intros H0 Hi Hw. rewrite rolling_apply_ok by exact H0.
  eexists. split; [reflexivity|]. split.
  - now rewrite length_map, rolling_windows_length.
  - rewrite nth_error_map, (rolling_window_at _ _ Hi). cbn [option_map].
    assert (Hlt : (S i < Z.to_nat window)%nat) by lia.
    pose proof (@unobserved_window (Z.to_nat window) vs i Hlt) as Hc.
    destruct (Nat.leb_spec (Z.to_nat window)
                (count_obs (slice (map prep_value vs) (S i - Z.to_nat window) (S i))));
      [lia | reflexivity].
Qed.

Lemma nth_of_nth_error {A : Type} (l : list A) i d x :
  nth_error l i = Some x -> nth i l d = x.
Proof. intros H. now apply nth_error_nth. Qed.

(** A missing input gives a missing z-score. *)
Lemma zscore_of_missing (Qsqrt : Q -> Q) (series z : Series) window min_periods i :
  compute_zscore Qsqrt series window min_periods = Ok z ->
  nth_error (values series) i = Some NaN ->
  nth i (values z) NaN = NaN.
Proof.
  intros Hz Hx.
  destruct (@compute_zscore_at Qsqrt series z window min_periods i NaN Hz Hx)
    as [w [m [_ [_ Hv]]]].
  cbv zeta in Hv. now rewrite (@nth_of_nth_error _ _ i NaN _ Hv).
Qed.

(** The default z-score before [window // 2] rows have been seen. *)
Lemma zscore_early_rows (Qsqrt : Q -> Q) (series z : Series) window i :
  compute_zscore Qsqrt series window None = Ok z ->
  (i < length series)%nat -> (Z.of_nat (S i) < window / 2)%Z ->
  nth i (values z) NaN = NaN.
Proof.
  intros Hz Hi Hw.
  destruct (nth_error (values series) i) as [x|] eqn:Hx.
  2:{ apply nth_error_None in Hx. rewrite values_length in Hx. lia. }
  destruct (@compute_zscore_at Qsqrt series z window None i x Hz Hx)
    as [w [m [Hc [_ Hv]]]].
  cbv zeta in Hv. rewrite (@nth_of_nth_error _ _ i NaN _ Hv).
  unfold check_rolling in Hc.
  destruct (Z.ltb_spec (window / 2) 0); [discriminate|].
  destruct (Z.ltb_spec window (window / 2)); [discriminate|].
  inversion Hc; subst w m; clear Hc.
  unfold roll_mean_at.
  pose proof (count_obs_le (slice (map prep_value (values series))
                              (S i - Z.to_nat window) (S i))).
  pose proof (window_length_le (map prep_value (values series))
                (S i - Z.to_nat window) (S i)).
  destruct (Nat.leb_spec (Z.to_nat (window / 2))
              (length (dropna_values (slice (map prep_value (values series))
                                        (S i - Z.to_nat window) (S i))))); [lia|].
  cbn [andb]. now rewrite fsub_nan_r.
Qed.

(** ** Assigning a column *)

Lemma setitem_run (df : DataFrame) name (s : Series) :
  index s = df_index df ->
  setitem df name s
  = Ok {| df_index := df_index df;
          df_columns := set_column name (values s) (df_columns df) |}.
Proof.
  intros Hidx. unfold setitem, reindex.
  now rewrite (proj2 (labels_eqb_eq _ _) Hidx).
Qed.

Lemma missing_row_set (df : DataFrame) name vs i :
  missing_row df i -> nth i vs NaN = NaN ->
  missing_row {| df_index := df_index df;
                 df_columns := set_column name vs (df_columns df) |} i.
Proof.
  unfold missing_row. cbn [df_columns]. intros Hrow Hv.
  induction Hrow as [|[n v] tl Hc Hrow IH]; cbn [set_column].
  - constructor; [exact Hv | constructor].
  - destruct (String.eqb n name).
    + constructor; [exact Hv | exact Hrow].
    + constructor; [exact Hc | exact IH].
Qed.

Lemma missing_row_empty idx i : missing_row (empty_frame idx) i.
Proof. constructor. Qed.

Lemma missing_row_cell (df : DataFrame) i c :
  missing_row df i -> In c (columns df) -> cell df c i = NaN.
Proof.
  intros Hrow Hc. unfold cell.
  destruct (find_column_in _ _ Hc) as [vs [-> Hin]].
  unfold missing_row in Hrow. rewrite Forall_forall in Hrow.
  exact (Hrow _ Hin).
Qed.

(* ================================================================== *)
(** * Further facts: the factor-side proxy *)

Section FactorSideFacts.

Variable Qsqrt : Q -> Q.
Variables (self : builder) (factor_returns : DataFrame).
Hypothesis short_ok : (0 <= short_window self)%Z.
Hypothesis medium_ok : (0 <= medium_window self)%Z.
Hypothesis factors_wf : well_formed factor_returns.

Lemma factor_side_factor_ok (components : DataFrame) (factor : string) :
  df_index components = df_index factor_returns ->
  In factor (columns factor_returns) ->
  exists components',
    factor_side_factor Qsqrt self factor_returns components factor = Ok components' /\
    df_index components' = df_index factor_returns /\
    (forall c, In c (columns components') <->
               In c (columns components) \/ factor_side_names factor c) /\
    (forall i, (i < length (df_index factor_returns))%nat ->
               (Z.of_nat (S i) < short_window self)%Z ->
               missing_row components i -> missing_row components' i).
Proof.
  intros Hidx Hin. unfold factor_side_factor, factor_side_names.
  destruct (String.eqb_spec factor "RF") as [-> | Hrf].
  { exists components. split; [reflexivity|]. split; [exact Hidx|]. split.
    - intros c. split; [auto | intros [H | [H _]]; [auto | congruence]].
    - auto. }
  destruct (@getitem_ok factor_returns _ factors_wf Hin) as [ret [-> Hri]].
  cbn [rbind].
  unfold check_window. destruct (Z.ltb_spec (short_window self) 0); [lia|].
  cbn [rbind].
  set (w := Z.to_nat (short_window self)).
  set (rolling_vol := with_values ret (rolling_std Qsqrt w w (values ret))).
  assert (Hlv : length (rolling_std Qsqrt w w (values ret)) = length ret)
    by now rewrite rolling_std_length, values_length.
  assert (Hvi : index rolling_vol = index ret) by now apply index_with_values.
  destruct (@compute_zscore_returns Qsqrt rolling_vol _ medium_ok) as [vz [Hvz Hvzi]].
  rewrite Hvz. cbn [rbind].
  rewrite setitem_run by congruence. cbn [rbind].
  set (components1 := {| df_index := df_index components;
                         df_columns := set_column (factor ++ "_vol_zscore")
                                         (values vz) (df_columns components) |}).
  rewrite rolling_apply_ok by exact short_ok. cbn [rbind]. fold w.
  set (ac := map (fun win => if (w <=? count_obs win)%nat then autocorr Qsqrt win else NaN)
                 (rolling_windows w (values ret))).
  assert (Hla : length ac = length ret)
    by (unfold ac; now rewrite length_map, rolling_windows_length, values_length).
  set (rolling_autocorr := with_values ret ac).
  assert (Hai : index rolling_autocorr = index ret) by now apply index_with_values.
  destruct (@compute_zscore_returns Qsqrt rolling_autocorr _ medium_ok)
    as [az [Haz Hazi]].
  rewrite Haz. cbn [rbind].
  rewrite setitem_run by (cbn [df_index components1]; congruence).
  eexists. split; [reflexivity|]. cbn [df_index components1]. split; [exact Hidx|].
  split.
  - intros c. unfold columns at 1. cbn [df_columns]. rewrite set_column_names.
    unfold components1. cbn [df_columns]. rewrite set_column_names.
    fold (columns components). intuition.
  - intros i Hi Hw Hrow.
    assert (Hir : (i < length (values ret))%nat).
    { rewrite values_length, <- (index_length ret), Hri. exact Hi. }
    assert (Hsw : (S i < w)%nat) by (unfold w; lia).
    apply (@missing_row_set components1); [apply missing_row_set; [exact Hrow|]|].
    + apply (@zscore_of_missing Qsqrt rolling_vol vz _ None i Hvz).
      unfold rolling_vol. rewrite values_with_values by exact Hlv.
      now apply rolling_std_warmup.
    + apply (@zscore_of_missing Qsqrt rolling_autocorr az _ None i Haz).
      unfold rolling_autocorr. rewrite values_with_values by exact Hla.
      unfold ac. rewrite nth_error_map, (rolling_window_at w _ Hir). cbn [option_map].
      pose proof (@unobserved_window w (values ret) i Hsw) as Hc.
      destruct (Nat.leb_spec w (count_obs (slice (map prep_value (values ret))
                                              (S i - w) (S i)))); [lia | reflexivity].
Qed.

Lemma factor_side_loop_ok (factors : list string) (components : DataFrame) :
  df_index components = df_index factor_returns ->
  (forall factor, In factor factors -> In factor (columns factor_returns)) ->
  exists components',
    factor_side_loop Qsqrt self factor_returns factors components = Ok components' /\
    df_index components' = df_index factor_returns /\
    (forall c, In c (columns components') <->
               In c (columns components) \/
               exists factor, In factor factors /\ factor_side_names factor c) /\
    (forall i, (i < length (df_index factor_returns))%nat ->
               (Z.of_nat (S i) < short_window self)%Z ->
               missing_row components i -> missing_row components' i).
Proof.
  revert components. induction factors as [|factor tl IH]; intros components Hidx Hsub.
  - exists components. split; [reflexivity|]. split; [exact Hidx|]. split.
    + intros c. split; [auto | intros [H | [t [[] _]]]; auto].
    + auto.
  - cbn [factor_side_loop].
    destruct (@factor_side_factor_ok components factor Hidx)
      as [c1 [-> [Hidx1 [Hcols1 Hrow1]]]]; [apply Hsub; now left|]. cbn [rbind].
    destruct (IH c1 Hidx1) as [c2 [-> [Hidx2 [Hcols2 Hrow2]]]];
      [intros t Ht; apply Hsub; now right|].
    exists c2. split; [reflexivity|]. split; [exact Hidx2|]. split.
    + intros c. rewrite Hcols2, Hcols1. split.
      * intros [[H | H] | [t [Ht H]]].
        -- now left.
        -- right. exists factor. split; [now left | exact H].
        -- right. exists t. split; [now right | exact H].
      * intros [H | [t [[<- | Ht] H]]].
        -- left. now left.
        -- left. now right.
        -- right. exists t. split; assumption.
    + intros i Hi Hw Hrow. apply Hrow2; auto.
Qed.

(** The whole run of the factor-side builder. *)
Lemma build_factor_side_proxy_run :
  exists components,
    build_factor_side_proxy Qsqrt self factor_returns
    = ([(INFO, "Building factor-side crowding proxy..."%string);
        (INFO, ("Factor-side proxy created with "
                 ++ string_of_nat (length (columns components))
                 ++ " components")%string)],
       Ok components) /\
    df_index components = df_index factor_returns /\
    (forall c, In c (columns components) <->
               exists factor, In factor (columns factor_returns) /\
                              factor_side_names factor c) /\
    (forall i, (i < length (df_index factor_returns))%nat ->
               (Z.of_nat (S i) < short_window self)%Z ->
               missing_row components i).
Proof.
  destruct (@factor_side_loop_ok (columns factor_returns)
              (empty_frame (df_index factor_returns)))
    as [components [Hloop [Hidx [Hcols Hrow]]]]; auto.
  unfold build_factor_side_proxy. rewrite Hloop.
  exists components. split; [reflexivity|]. split; [exact Hidx|]. split.
  - intros c. rewrite Hcols. split.
    + intros [[] | H]. exact H.
    + intros H. now right.
  - intros i Hi Hw. apply Hrow; auto. apply missing_row_empty.
Qed.

End FactorSideFacts.

(** X24.  On a well-formed table of uniquely named factor returns and
    windows of 0 or more, the factor-side builder logs no warning and
    returns a table on the rows of the input whose columns are exactly
    these: for every column other than "RF", its volatility z-score
    "<factor>_vol_zscore" and its autocorrelation z-score
    "<factor>_autocorr_zscore".  The risk-free column contributes
    nothing. *)
Theorem factor_side_skips_risk_free (Qsqrt : Q -> Q) (self : builder)
    (factor_returns : DataFrame) :
  (0 <= short_window self)%Z -> (0 <= medium_window self)%Z ->
  well_formed factor_returns -> NoDup (columns factor_returns) ->
  exists log components,
    build_factor_side_proxy Qsqrt self factor_returns = (log, Ok components) /\
    existsb is_warning log = false /\
    df_index components = df_index factor_returns /\
    forall c, In c (columns components) <->
      exists factor, In factor (columns factor_returns) /\ factor <> "RF"%string /\
        (c = (factor ++ "_vol_zscore")%string \/
         c = (factor ++ "_autocorr_zscore")%string).
Proof.
  intros Hs Hm Hwf _.
  destruct (@build_factor_side_proxy_run Qsqrt self factor_returns Hs Hm Hwf)
    as [components [Hrun [Hidx [Hcols _]]]].
  rewrite Hrun. eexists _, components. split; [reflexivity|].
  split; [reflexivity|]. split; [exact Hidx|].
  intros c. rewrite Hcols. unfold factor_side_names. reflexivity.
Qed.

Lemma factor_side_skips_risk_free_witness :
  exists log components,
    build_factor_side_proxy sample_sqrt sample_builder factor_table
    = (log, Ok components) /\
    In "Mom_vol_zscore"%string (columns components) /\
    ~ In "RF_vol_zscore"%string (columns components).
Proof.
  destruct (@factor_side_skips_risk_free sample_sqrt sample_builder factor_table)
    as [log [components [Hrun [_ [_ Hcols]]]]].
  - simpl. lia.
  - simpl. lia.
  - repeat constructor.
  - repeat constructor; simpl; intuition discriminate.
  - exists log, components. split; [exact Hrun|]. split.
    + apply Hcols. exists "Mom"%string. split; [simpl; auto|].
      split; [discriminate | left; reflexivity].
    + intros H. apply Hcols in H. destruct H as [factor [Hf [Hrf Hn]]].
      simpl in Hf. destruct Hf as [<- | [<- | []]]; [|congruence].
      destruct Hn as [Hn | Hn]; discriminate.
Defined.

(** X25.  Warm-up of the factor-side proxy: every component is missing on
    the first [short_window - 1] rows, where the rolling volatility and
    the rolling autocorrelation do not have a full window yet. *)
Theorem factor_side_warmup (Qsqrt : Q -> Q) (self : builder)
    (factor_returns : DataFrame) :
  (0 <= short_window self)%Z -> (0 <= medium_window self)%Z ->
  well_formed factor_returns -> NoDup (columns factor_returns) ->
  exists log components,
    build_factor_side_proxy Qsqrt self factor_returns = (log, Ok components) /\
    forall c i, In c (columns components) ->
      (i < length (df_index factor_returns))%nat ->
      (Z.of_nat (S i) < short_window self)%Z ->
      cell components c i = NaN.
Proof.
  intros Hs Hm Hwf _.
  destruct (@build_factor_side_proxy_run Qsqrt self factor_returns Hs Hm Hwf)
    as [components [Hrun [_ [_ Hrow]]]].
  rewrite Hrun. eexists _, components. split; [reflexivity|].
  intros c i Hc Hi Hw. exact (@missing_row_cell components i c (Hrow i Hi Hw) Hc).
Qed.

Lemma factor_side_warmup_witness :
  exists log components,
    build_factor_side_proxy sample_sqrt sample_builder factor_table
    = (log, Ok components) /\
    cell components "Mom_autocorr_zscore" 0 = NaN.
Proof.
  destruct (@factor_side_warmup sample_sqrt sample_builder factor_table)
    as [log [components [Hrun Hrow]]].
  - simpl. lia.
  - simpl. lia.
  - repeat constructor.
  - repeat constructor; simpl; intuition discriminate.
  - exists log, components. split; [exact Hrun|].
    apply Hrow.
    + vm_compute in Hrun. inversion Hrun. simpl. auto.
    + simpl. lia.
    + simpl. lia.
Defined.

(* ================================================================== *)
(** * Further facts: warm-up rows of the flow-attention proxy *)

Section FlowAttentionWarmup.

Variable Qsqrt : Q -> Q.
Variables (self : builder) (returns volumes : DataFrame).
Hypothesis short_ok : (0 <= short_window self)%Z.
Hypothesis medium_ok : (0 <= medium_window self)%Z.
Hypothesis returns_wf : well_formed returns.
Hypothesis volumes_wf : well_formed volumes.
Hypothesis aligned : df_index volumes = df_index returns.

Variable i : nat.
Hypothesis in_range : (i < length (df_index returns))%nat.
Hypothesis before_short : (Z.of_nat (S i) < short_window self / 2)%Z.
Hypothesis before_medium : (Z.of_nat (S i) < medium_window self)%Z.

Lemma flow_attention_ticker_missing (components : DataFrame) (ticker : string) :
  df_index components = df_index returns ->
  In ticker (columns returns) ->
  missing_row components i ->
  exists components',
    flow_attention_ticker Qsqrt self returns volumes components ticker = Ok components' /\
    df_index components' = df_index returns /\
    missing_row components' i.
Proof.
  intros Hidx Hin Hrow. unfold flow_attention_ticker.
  destruct (endswith ticker "_ret") eqn:Eend; [|eauto].
  set (name := str_replace ticker "_ret" "").
  assert (Hshort : (Z.of_nat (S i) < short_window self)%Z).
  { assert (short_window self / 2 <= short_window self)%Z
      by (apply Z.div_le_upper_bound; lia). lia. }
  assert (Hvol : exists components1,
            (if existsb (String.eqb (name ++ "_vol")%string) (columns volumes)
             then rbind (getitem volumes (name ++ "_vol")%string) (fun volume =>
                  rbind (compute_zscore Qsqrt volume (short_window self) None)
                        (fun vol_zscore =>
                  setitem components (name ++ "_vol_zscore")%string vol_zscore))
             else Ok components) = Ok components1 /\
            df_index components1 = df_index returns /\
            missing_row components1 i).
  { destruct (existsb (String.eqb (name ++ "_vol")%string) (columns volumes)) eqn:Ev;
      [|eauto].
    apply existsb_eqb_in in Ev.
    destruct (@getitem_ok volumes _ volumes_wf Ev) as [volume [-> Hvi]]. cbn [rbind].
    destruct (@compute_zscore_returns Qsqrt volume _ short_ok) as [z [Hz Hzi]].
    rewrite Hz. cbn [rbind].
    rewrite setitem_run by congruence.
    eexists. split; [reflexivity|]. split; [exact Hidx|].
    apply missing_row_set; [exact Hrow|].
    apply (@zscore_early_rows Qsqrt volume z _ i Hz); [|exact before_short].
    rewrite <- (index_length volume), Hvi, aligned. exact in_range. }
  destruct Hvol as [components1 [-> [Hidx1 Hrow1]]]. cbn [rbind].
  destruct (@getitem_ok returns _ returns_wf Hin) as [ret [-> Hri]]. cbn [rbind].
  assert (Hir : (i < length (values ret))%nat).
  { rewrite values_length, <- (index_length ret), Hri. exact in_range. }
  assert (Hig : (i < length (map (fadd fone) (values ret)))%nat)
    by now rewrite length_map.
  destruct (@rolling_apply_warmup (medium_window self)
              (fun x => fsub (fprod x) fone) (map (fadd fone) (values ret)) i
              medium_ok Hig before_medium) as [cum [-> [Hlc Hcum]]].
  cbn [rbind].
  assert (Hlc' : length cum = length ret) by now rewrite Hlc, length_map, values_length.
  set (cum_return := with_values ret cum).
  assert (Hci : index cum_return = index ret) by now apply index_with_values.
  destruct (@compute_zscore_returns Qsqrt cum_return _ medium_ok) as [rz [Hrz Hrzi]].
  rewrite Hrz. cbn [rbind].
  rewrite setitem_run by congruence. cbn [rbind].
  assert (Hq : exists thr, series_quantile (values ret) (Fin (5 # 100)) = Ok thr).
  { unfold series_quantile. simpl valid_quantile.
    destruct (dropna_values (values ret)); eauto. }
  destruct Hq as [thr ->]. cbn [rbind].
  unfold check_window. destruct (Z.ltb_spec (short_window self) 0); [lia|].
  cbn [rbind].
  set (w := Z.to_nat (short_window self)).
  set (crash_days := map (fun v => if flt v thr then fone else fzero) (values ret)).
  set (crash_freq := with_values ret (rolling_sum w w crash_days)).
  assert (Hlf : length (rolling_sum w w crash_days) = length ret).
  { unfold crash_days. now rewrite rolling_sum_length, length_map, values_length. }
  assert (Hfi : index crash_freq = index ret) by now apply index_with_values.
  destruct (@compute_zscore_returns Qsqrt crash_freq _ short_ok) as [cz [Hcz Hczi]].
  rewrite Hcz. cbn [rbind].
  rewrite setitem_run by (cbn [df_index]; congruence).
  eexists. split; [reflexivity|]. cbn [df_index]. split; [exact Hidx1|].
  apply (@missing_row_set
           {| df_index := df_index components1;
              df_columns := set_column (name ++ "_ret_zscore") (values rz)
                              (df_columns components1) |}).
  - apply missing_row_set; [exact Hrow1|].
    apply (@zscore_of_missing Qsqrt cum_return rz _ None i Hrz).
    unfold cum_return. now rewrite values_with_values.
  - apply (@zscore_of_missing Qsqrt crash_freq cz _ None i Hcz).
    unfold crash_freq. rewrite values_with_values by exact Hlf.
    apply rolling_sum_warmup; [|unfold w; lia].
    unfold crash_days. now rewrite length_map.
Qed.

Lemma flow_attention_loop_missing (tickers : list string) (components : DataFrame) :
  df_index components = df_index returns ->
  (forall ticker, In ticker tickers -> In ticker (columns returns)) ->
  missing_row components i ->
  exists components',
    flow_attention_loop Qsqrt self returns volumes tickers components = Ok components' /\
    df_index components' = df_index returns /\
    missing_row components' i.
Proof.
  revert components. induction tickers as [|ticker tl IH];
    intros components Hidx Hsub Hrow.
  - exists components. split; [reflexivity|]. split; assumption.
  - cbn [flow_attention_loop].
    destruct (@flow_attention_ticker_missing components ticker Hidx)
      as [c1 [-> [Hidx1 Hrow1]]]; [apply Hsub; now left | exact Hrow |].
    cbn [rbind]. apply IH; auto. intros t Ht. apply Hsub. now right.
Qed.

End FlowAttentionWarmup.

(** X26.  Warm-up of the flow-attention proxy: on aligned, well-formed
    tables, every component is missing at every row that comes before
    both [short_window // 2] and [medium_window] rows have been seen:
    the volume z-score lacks its minimum number of observations, and
    the run-up and the crash frequency lack a full window. *)
Theorem flow_attention_warmup (Qsqrt : Q -> Q) (self : builder)
    (returns volumes : DataFrame) (i : nat) :
  (0 <= short_window self)%Z -> (0 <= medium_window self)%Z ->
  well_formed returns -> well_formed volumes ->
  df_index volumes = df_index returns ->
  (i < length (df_index returns))%nat ->
  (Z.of_nat (S i) < short_window self / 2)%Z ->
  (Z.of_nat (S i) < medium_window self)%Z ->
  exists log components,
    build_flow_attention_proxy Qsqrt self returns volumes = (log, Ok components) /\
    forall c, In c (columns components) -> cell components c i = NaN.
Proof.
  intros Hs Hm Hr Hv Ha Hi H1 H2.
  destruct (@flow_attention_loop_missing Qsqrt self returns volumes Hs Hm Hr Hv Ha
              i Hi H1 H2 (columns returns) (empty_frame (df_index returns)))
    as [components [Hloop [_ Hrow]]]; auto.
  { apply missing_row_empty. }
  unfold build_flow_attention_proxy. rewrite Hloop.
  eexists _, components. split; [reflexivity|].
  intros c Hc. exact (@missing_row_cell components i c Hrow Hc).
Qed.

Lemma flow_attention_warmup_witness :
  exists log components,
    build_flow_attention_proxy sample_sqrt
      {| short_window := 4; medium_window := 2; long_window := 4;
         winsorize_lower := Fin 25; winsorize_upper := Fin 75 |}
      one_etf_table no_volume_table = (log, Ok components) /\
    forall c, In c (columns components) -> cell components c 0 = NaN.
Proof.
  apply (@flow_attention_warmup sample_sqrt _ one_etf_table no_volume_table 0).
  - simpl. lia.
  - simpl. lia.
  - repeat constructor.
  - constructor.
  - reflexivity.
  - simpl. lia.
  - vm_compute. reflexivity.
  - simpl. lia.
Defined.

(* ================================================================== *)
(** * Further facts: building all the indices *)

Lemma snd_lbind {A B : Type} (m : logged A) (k : A -> logged B) :
  snd (lbind m k)
  = match snd m with
    | Raise e => Raise e
    | Ok a => snd (k a)
    end.
Proof. unfold lbind. destruct (snd m); reflexivity. Qed.

Lemma getitem_list_run (df : DataFrame) names :
  well_formed df -> (forall n, In n names -> In n (columns df)) ->
  exists cols,
    getitem_list df names = Ok {| df_index := df_index df; df_columns := cols |} /\
    map fst cols = names /\
    well_formed {| df_index := df_index df; df_columns := cols |}.
Proof.
  intros Hwf Hsub. destruct (@select_columns_ok df names Hsub) as [cols Hcols].
  exists cols. unfold getitem_list. rewrite Hcols. split; [reflexivity|]. split.
  - exact (proj1 (@select_columns_spec df names cols Hcols)).
  - exact (@select_columns_well_formed df names cols Hwf Hcols).
Qed.

(** The co-movement builder returns on every well-formed table. *)
Lemma build_comovement_proxy_returns (Qsqrt : Q -> Q) (self : builder)
    (returns : DataFrame) :
  (0 <= medium_window self)%Z -> well_formed returns ->
  exists log components,
    build_comovement_proxy Qsqrt self returns = (log, Ok components) /\
    df_index components = df_index returns.
Proof.
  intros Hm Hwf.
  destruct (Nat.ltb_spec
              (length (filter (fun col => endswith col "_ret") (columns returns))) 2)
    as [Hlt | Hge].
  - unfold build_comovement_proxy.
    destruct (@select_columns_ok returns
                (filter (fun col => endswith col "_ret") (columns returns)))
      as [cols Hcols].
    { intros n Hn. apply filter_In in Hn. tauto. }
    unfold getitem_list. rewrite Hcols. cbn [rbind].
    destruct (Nat.ltb_spec
                (length (filter (fun col => endswith col "_ret") (columns returns))) 2);
      [|lia].
    eexists _, _. split; reflexivity.
  - destruct (@build_comovement_proxy_run Qsqrt self returns Hm Hwf Hge)
      as [pt [selected [Hpi [_ [_ Hrun]]]]].
    cbv zeta in Hrun. rewrite Hrun. eexists _, _. split; [reflexivity | exact Hpi].
Qed.

Lemma dropna_all_missing (idx : list Timestamp) (vs : list float) :
  Forall (fun v => v = NaN) vs -> dropna (combine idx vs) = [].
Proof.
  intros H. revert idx. induction H as [|v tl -> _ IH]; intros [|t idx];
    try reflexivity.
  cbn [combine dropna filter snd notna isnan negb]. apply IH.
Qed.

Lemma nanmean_of_missing (cells : list float) :
  Forall (fun v => v = NaN) cells -> nanmean cells = NaN.
Proof.
  intros H. unfold nanmean.
  assert (E : dropna_values cells = []).
  { induction H as [|v tl -> _ IH]; [reflexivity | exact IH]. }
  now rewrite E.
Qed.

(** A table whose cells are all missing has no composite: the row means
    are all missing and the winsorization fails on them. *)
Lemma composite_of_missing_table (self : builder) (df : DataFrame) (lo hi : Q) :
  winsorize_lower self = Fin lo -> winsorize_upper self = Fin hi ->
  0 <= lo -> lo <= 100 -> 0 <= hi -> hi <= 100 ->
  (forall i, (i < length (df_index df))%nat -> missing_row df i) ->
  exists msg, snd (build_composite_index self [df] true) = Raise (IndexError msg).
Proof.
  intros Hlo Hhi H0 H1 H2 H3 Hrows.
  destruct (winsorize_limits_in_range self Hlo Hhi H0 H1 H2 H3)
    as [l [u [Hlim [Hl0 [Hl1 [Hu0 Hu1]]]]]].
  unfold build_composite_index, concat_columns.
  cbn [all_same_index forallb concat_index map fold_left flat_map].
  rewrite app_nil_r.
  assert (Hnone : dropna (mean_axis1 {| df_index := df_index df;
                                        df_columns := df_columns df |}) = []).
  { unfold mean_axis1. cbn [df_index]. apply dropna_all_missing.
    apply Forall_forall. intros v Hv. apply in_map_iff in Hv.
    destruct Hv as [i [<- Hi]]. apply in_seq in Hi.
    apply nanmean_of_missing. unfold row. cbn [df_columns].
    apply Forall_forall. intros x Hx. apply in_map_iff in Hx.
    destruct Hx as [c [<- Hc]].
    assert (Hrow : missing_row df i) by (apply Hrows; lia).
    unfold missing_row in Hrow. rewrite Forall_forall in Hrow. exact (Hrow c Hc). }
  unfold winsorize_series, winsorized_part. rewrite Hlim, Hnone.
  change (values []) with (@nil float).
  destruct (mstats_winsorize_nothing Hl0 Hl1 Hu0 Hu1) as [msg ->].
  cbn [rbind snd]. eauto.
Qed.

Lemma is_empty_false (df : DataFrame) :
  (0 < length (df_index df))%nat -> columns df <> [] -> is_empty df = false.
Proof.
  intros Hr Hc. unfold is_empty.
  destruct (Nat.eqb_spec (length (df_index df)) 0); [lia|].
  destruct (Nat.eqb_spec (length (df_columns df)) 0) as [E|]; [|reflexivity].
  exfalso. apply Hc. unfold columns. destruct (df_columns df); [reflexivity|].
  discriminate.
Qed.

(** X27.  A history shorter than the windows cannot be processed: on a
    well-formed table with at least one "_ret" and one "_vol" column and
    at least one row, but fewer rows than both [short_window // 2] and
    [medium_window], every flow-attention component is missing on every
    row, its composite has no observed value, and
    [build_all_crowding_indices] raises IndexError out of the
    winsorization of "crowding_index_a". *)
Theorem build_all_needs_history (Qsqrt : Q -> Q) (self : builder)
    (master_data : DataFrame) (lo hi : Q) :
  (0 <= short_window self)%Z -> (0 <= medium_window self)%Z ->
  winsorize_lower self = Fin lo -> winsorize_upper self = Fin hi ->
  0 <= lo -> lo <= 100 -> 0 <= hi -> hi <= 100 ->
  well_formed master_data -> NoDup (columns master_data) ->
  (exists col, In col (columns master_data) /\ endswith col "_ret" = true) ->
  (exists col, In col (columns master_data) /\ endswith col "_vol" = true) ->
  (0 < length (df_index master_data))%nat ->
  (Z.of_nat (length (df_index master_data)) < short_window self / 2)%Z ->
  (Z.of_nat (length (df_index master_data)) < medium_window self)%Z ->
  exists msg,
    snd (build_all_crowding_indices Qsqrt self master_data) = Raise (IndexError msg).
Proof.
  intros Hs Hm Hlo Hhi H0 H1 H2 H3 Hwf _ [rc [Hrc Erc]] [vc [Hvc Evc]] Hrows Hshort Hmed.
  unfold build_all_crowding_indices.
  rewrite snd_lbind. cbn [llog snd].
  (* the three selections *)
  destruct (@getitem_list_run master_data
              (filter (fun col => endswith col "_ret") (columns master_data)) Hwf)
    as [rcols [Hrsel [Hrnames Hrwf]]].
  { intros n Hn. apply filter_In in Hn. tauto. }
  destruct (@getitem_list_run master_data
              (filter (fun col => endswith col "_vol") (columns master_data)) Hwf)
    as [vcols [Hvsel [Hvnames Hvwf]]].
  { intros n Hn. apply filter_In in Hn. tauto. }
  destruct (@getitem_list_run master_data
              (filter (fun col => existsb (String.eqb col) (columns master_data))
                      factor_cols) Hwf)
    as [fcols [Hfsel [Hfnames Hfwf]]].
  { intros n Hn. apply filter_In in Hn. destruct Hn as [_ Hn].
    now apply existsb_eqb_in in Hn. }
  rewrite snd_lbind, Hrsel. cbn [llift snd].
  rewrite snd_lbind, Hvsel. cbn [llift snd].
  rewrite snd_lbind, Hfsel. cbn [llift snd].
  set (etf_returns := {| df_index := df_index master_data; df_columns := rcols |}) in *.
  set (etf_volumes := {| df_index := df_index master_data; df_columns := vcols |}) in *.
  set (factor_returns := {| df_index := df_index master_data; df_columns := fcols |}) in *.
  assert (Hrin : In rc (columns etf_returns)).
  { unfold columns, etf_returns. cbn [df_columns]. rewrite Hrnames.
    apply filter_In. now split. }
  assert (Hvin : In vc (columns etf_volumes)).
  { unfold columns, etf_volumes. cbn [df_columns]. rewrite Hvnames.
    apply filter_In. now split. }
  assert (Hre : is_empty etf_returns = false).
  { apply is_empty_false; [exact Hrows|]. intros C. rewrite C in Hrin. exact Hrin. }
  assert (Hve : is_empty etf_volumes = false).
  { apply is_empty_false; [exact Hrows|]. intros C. rewrite C in Hvin. exact Hvin. }
  rewrite Hre, Hve. cbn [negb andb].
  (* the flow-attention proxy: returned, not empty, missing everywhere *)
  destruct (@flow_attention_loop_ok Qsqrt self etf_returns etf_volumes Hs Hm Hrwf Hvwf
              eq_refl (columns etf_returns) (empty_frame (df_index etf_returns)))
    as [flow [Hloop [Hfi Hfc]]]; auto.
  assert (Hflow : build_flow_attention_proxy Qsqrt self etf_returns etf_volumes
                  = ([(INFO, "Building flow-attention crowding proxy..."%string);
                      (INFO, ("Flow-attention proxy created with "
                               ++ string_of_nat (length (columns flow))
                               ++ " components")%string)],
                     Ok flow)).
  { unfold build_flow_attention_proxy. now rewrite Hloop. }
  assert (Hfmiss : forall i, (i < length (df_index flow))%nat -> missing_row flow i).
  { intros i Hi. rewrite Hfi in Hi.
    destruct (@flow_attention_loop_missing Qsqrt self etf_returns etf_volumes Hs Hm
                Hrwf Hvwf eq_refl i Hi) with (tickers := columns etf_returns)
                (components := empty_frame (df_index etf_returns))
      as [flow' [Hloop' [_ Hrow]]]; auto.
    - cbn [etf_returns df_index] in Hi. lia.
    - cbn [etf_returns df_index] in Hi. lia.
    - apply missing_row_empty.
    - rewrite Hloop in Hloop'. inversion Hloop'. exact Hrow. }
  assert (Hfe : is_empty flow = false).
  { apply is_empty_false.
    - rewrite Hfi. exact Hrows.
    - intros C.
      assert (Hin : In (str_replace rc "_ret" "" ++ "_ret_zscore")%string (columns flow)).
      { apply Hfc. right. exists rc. split; [exact Hrin|].
        unfold flow_attention_names. split; [|left; reflexivity].
        unfold columns, etf_returns in Hrin. cbn [df_columns] in Hrin.
        rewrite Hrnames in Hrin. apply filter_In in Hrin. tauto. }
      rewrite C in Hin. exact Hin. }
  rewrite snd_lbind, Hflow. cbn [snd].
  (* the two other proxies return *)
  destruct (@build_comovement_proxy_returns Qsqrt self etf_returns Hm Hrwf)
    as [clog [co [Hco _]]].
  rewrite snd_lbind, Hco. cbn [snd].
  rewrite snd_lbind.
  match goal with
  | |- exists msg, match snd ?m with Ok _ => _ | Raise _ => _ end = _ =>
      assert (Hfs : exists fs, snd m = Ok fs)
  end.
  { destruct (is_empty factor_returns); cbn [negb].
    - eexists. reflexivity.
    - destruct (@build_factor_side_proxy_run Qsqrt self factor_returns Hs Hm Hfwf)
        as [fs [Hrun _]].
      rewrite Hrun. eexists. reflexivity. }
  destruct Hfs as [fs ->].
  (* the composite of the flow-attention proxy *)
  rewrite snd_lbind, Hfe. cbn [negb].
  rewrite snd_lbind.
  destruct (@composite_of_missing_table self flow lo hi Hlo Hhi H0 H1 H2 H3 Hfmiss)
    as [msg ->].
  eauto.
Qed.

Lemma build_all_needs_history_witness :
  exists msg,
    snd (build_all_crowding_indices sample_sqrt
           {| short_window := 8; medium_window := 4; long_window := 8;
              winsorize_lower := Fin 1; winsorize_upper := Fin 99 |}
           {| df_index := [1%Z; 2%Z];
              df_columns := [("MTUM_ret"%string, [Fin (1 # 100); Fin (- (2 # 100))]);
                             ("MTUM_vol"%string, [Fin 1000; Fin 1200])] |})
    = Raise (IndexError msg).
Proof.
  apply (@build_all_needs_history sample_sqrt _ _ 1 99).
  - simpl. lia.
  - simpl. lia.
  - reflexivity.
  - reflexivity.
  - discriminate.
  - discriminate.
  - discriminate.
  - discriminate.
  - repeat constructor.
  - repeat constructor; simpl; intuition discriminate.
  - exists "MTUM_ret"%string. split; [simpl; auto | reflexivity].
  - exists "MTUM_vol"%string. split; [simpl; auto | reflexivity].
  - simpl. lia.
  - vm_compute. reflexivity.
  - simpl. lia.
Defined.

(** ** The combined composite *)

Lemma NoDup_index_combine (a : list Timestamp) (b : list float) :
  NoDup a -> NoDup (index (combine a b)).
Proof.
  intros H. revert b. induction H as [|t a Hin _ IH]; intros [|v b];
    cbn [combine index map fst]; try constructor.
  - intros C. apply Hin. exact (index_combine_incl _ _ _ C).
  - apply IH.
Qed.

Lemma combine_first_index_NoDup (s w out : Series) :
  combine_first s w = Ok out -> NoDup (index s) -> NoDup (index out).
Proof.
  unfold combine_first. intros H Hs.
  destruct (labels_eqb (index s) (index w)).
  - inversion H. now apply NoDup_index_combine.
  - destruct (has_duplicates (index s) || has_duplicates (index w)) eqn:Ed;
      [discriminate|].
    apply orb_false_iff in Ed. destruct Ed as [_ Hw].
    apply has_duplicates_false in Hw. inversion H.
    unfold index. rewrite map_map. cbn [fst]. rewrite map_id.
    now apply index_union_NoDup.
Qed.

(** What a composite that was returned holds, winsorization included. *)
Lemma composite_returned_values (self : builder) (dfs : list DataFrame) log composite :
  dfs <> [] -> Forall (fun d => NoDup (df_index d)) dfs ->
  build_composite_index self dfs true = (log, Ok composite) ->
  NoDup (index composite) /\
  (forall t, In t (index composite) <-> In t (concat_index dfs)) /\
  (forall t, In t (concat_index dfs) ->
             lookup t composite = nanmean (cells_at dfs t)).
Proof.
  intros Hne Hnd H.
  destruct (concat_columns_rows Hne Hnd) as [all [Hall [Hidx Hrows]]].
  unfold build_composite_index in H. rewrite Hall in H.
  destruct (winsorize_series self (mean_axis1 all)) as [out|e] eqn:Hout;
    [|inversion H].
  inversion H; subst out; clear H.
  assert (Hmi : index (mean_axis1 all) = concat_index dfs)
    by now rewrite mean_axis1_index.
  destruct (winsorize_series_unchanged _ _ Hout) as [Hio Hlo].
  split; [|split].
  - revert Hout. unfold winsorize_series.
    destruct (winsorized_part self (mean_axis1 all)) as [w|e]; cbn [rbind];
      [|discriminate].
    intros Hc. apply (combine_first_index_NoDup _ _ Hc).
    rewrite Hmi. now apply concat_index_NoDup.
  - intros t. now rewrite Hio, Hmi.
  - intros t Ht. rewrite Hlo by now rewrite Hmi.
    destruct (position_of_in _ _ Ht) as [i Hi].
    rewrite (@mean_axis1_lookup all t i) by now rewrite Hidx.
    now rewrite (Hrows t i Hi).
Qed.

Lemma is_empty_rows (df : DataFrame) :
  is_empty df = false -> exists t, In t (df_index df).
Proof.
  unfold is_empty. intros H. apply orb_false_iff in H. destruct H as [H _].
  destruct (df_index df) as [|t tl]; [discriminate|]. exists t. now left.
Qed.

Section StoredTables.

Variables (self : builder) (master_data : DataFrame).

(** One of the three steps that may store the composite of a proxy. *)
Lemma composite_step_stored (key name : string) (source : DataFrame)
    (results results' : list (string * DataFrame)) :
  Forall (stored_entry master_data) results ->
  NoDup (df_index source) ->
  (forall t, In t (df_index source) <-> In t (df_index master_data)) ->
  key <> "crowding_index_all"%string ->
  snd (if negb (is_empty source)
       then lbind (build_composite_index self [source] true)
                  (fun composite => lret (results ++ [(key, to_frame composite name)]))
       else lret results) = Ok results' ->
  Forall (stored_entry master_data) results'.
Proof.
  intros Hres Hnd Hidx Hkey H.
  destruct (is_empty source) eqn:Ee; cbn [negb] in H.
  - inversion H; subst. exact Hres.
  - rewrite snd_lbind in H.
    destruct (build_composite_index self [source] true) as [l [c|e]] eqn:Ec;
      cbn [snd] in H; [|discriminate].
    inversion H; subst results'; clear H.
    destruct (@composite_returned_values self [source] l c) as [Hc1 [Hc2 _]];
      [discriminate | now constructor | exact Ec |].
    assert (Hmem : forall t, In t (index c) <-> In t (df_index master_data)).
    { intros t. rewrite Hc2, concat_index_in. split.
      - intros [d [[<- | []] Ht]]. now apply Hidx.
      - intros Ht. exists source. split; [now left | now apply Hidx]. }
    apply Forall_app. split; [exact Hres|]. constructor; [|constructor].
    unfold stored_entry. cbn [fst snd to_frame df_index]. repeat split.
    + exact Hc1.
    + apply Hmem.
    + apply Hmem.
    + exact Hkey.
    + intros _. unfold is_empty, to_frame. cbn [df_index df_columns length].
      destruct (is_empty_rows _ Ee) as [t Ht].
      apply Hidx, Hmem in Ht.
      destruct (index c) as [|t0 tl]; [destruct Ht | reflexivity].
Qed.

End StoredTables.

(** X28.  The combined composite pools every table stored before it.
    Whenever [build_all_crowding_indices] returns with a
    "crowding_index_all" entry, that entry is the last one, and at every
    timestamp of the master table its value is the mean of the
    non-missing cells, at that timestamp, of all non-empty tables stored
    before it: the three proxies and also the composites
    "crowding_index_a", "_b", "_c", which are never empty when stored. *)
Theorem crowding_index_all_pools_stored_tables (Qsqrt : Q -> Q) (self : builder)
    (master_data : DataFrame) (log : list log_record)
    (entries : list (string * DataFrame)) (all : DataFrame) :
  (0 <= short_window self)%Z -> (0 <= medium_window self)%Z ->
  well_formed master_data -> NoDup (columns master_data) ->
  NoDup (df_index master_data) ->
  build_all_crowding_indices Qsqrt self master_data
  = (log, Ok (entries ++ [("crowding_index_all"%string, all)])) ->
  (forall key df, In (key, df) entries ->
     In key ["crowding_index_a"; "crowding_index_b"; "crowding_index_c"]%string ->
     is_empty df = false) /\
  exists composite,
    all = to_frame composite "CrowdingIndex_All" /\
    forall t, In t (df_index master_data) ->
      lookup t composite
      = nanmean (cells_at (filter (fun df => negb (is_empty df)) (map snd entries)) t).
Proof.
  intros Hs Hm Hwf _ Hnd Hrun.
  apply (f_equal snd) in Hrun. cbn [snd] in Hrun.
  unfold build_all_crowding_indices in Hrun.
  rewrite snd_lbind in Hrun. cbn [llog snd] in Hrun.
  destruct (@getitem_list_run master_data
              (filter (fun col => endswith col "_ret") (columns master_data)) Hwf)
    as [rcols [Hrsel [Hrnames Hrwf]]].
  { intros n Hn. apply filter_In in Hn. tauto. }
  destruct (@getitem_list_run master_data
              (filter (fun col => endswith col "_vol") (columns master_data)) Hwf)
    as [vcols [Hvsel [Hvnames Hvwf]]].
  { intros n Hn. apply filter_In in Hn. tauto. }
  destruct (@getitem_list_run master_data
              (filter (fun col => existsb (String.eqb col) (columns master_data))
                      factor_cols) Hwf)
    as [fcols [Hfsel [Hfnames Hfwf]]].
  { intros n Hn. apply filter_In in Hn. destruct Hn as [_ Hn].
    now apply existsb_eqb_in in Hn. }
  rewrite snd_lbind, Hrsel in Hrun. cbn [llift snd] in Hrun.
  rewrite snd_lbind, Hvsel in Hrun. cbn [llift snd] in Hrun.
  rewrite snd_lbind, Hfsel in Hrun. cbn [llift snd] in Hrun.
  set (etf_returns := {| df_index := df_index master_data; df_columns := rcols |}) in *.
  set (etf_volumes := {| df_index := df_index master_data; df_columns := vcols |}) in *.
  set (factor_returns := {| df_index := df_index master_data; df_columns := fcols |}) in *.
  (* the three proxies live on the rows of the master table *)
  rewrite snd_lbind in Hrun.
  match type of Hrun with
  | match snd ?m with Ok _ => _ | Raise _ => _ end = _ =>
      assert (Hflow : exists flow, snd m = Ok flow /\
                                   df_index flow = df_index master_data)
  end.
  { destruct (negb (is_empty etf_returns) && negb (is_empty etf_volumes)).
    - destruct (@flow_attention_loop_ok Qsqrt self etf_returns etf_volumes Hs Hm
                  Hrwf Hvwf eq_refl (columns etf_returns)
                  (empty_frame (df_index etf_returns)))
        as [flow [Hloop [Hfi _]]]; auto.
      unfold build_flow_attention_proxy. rewrite Hloop. cbn [snd]. eauto.
    - eexists. split; reflexivity. }
  destruct Hflow as [flow [Eflow Hflow]]. rewrite Eflow in Hrun.
  rewrite snd_lbind in Hrun.
  match type of Hrun with
  | match snd ?m with Ok _ => _ | Raise _ => _ end = _ =>
      assert (Hco : exists co, snd m = Ok co /\ df_index co = df_index master_data)
  end.
  { destruct (negb (is_empty etf_returns)).
    - destruct (@build_comovement_proxy_returns Qsqrt self etf_returns Hm Hrwf)
        as [clog [co [Hco Hci]]].
      rewrite Hco. cbn [snd]. eauto.
    - eexists. split; reflexivity. }
  destruct Hco as [co [Eco Hco]]. rewrite Eco in Hrun.
  rewrite snd_lbind in Hrun.
  match type of Hrun with
  | match snd ?m with Ok _ => _ | Raise _ => _ end = _ =>
      assert (Hfs : exists fs, snd m = Ok fs /\ df_index fs = df_index master_data)
  end.
  { destruct (negb (is_empty factor_returns)).
    - destruct (@build_factor_side_proxy_run Qsqrt self factor_returns Hs Hm Hfwf)
        as [fs [Hfs [Hfi _]]].
      rewrite Hfs. cbn [snd]. eauto.
    - eexists. split; reflexivity. }
  destruct Hfs as [fs [Efs Hfs]]. rewrite Efs in Hrun.
  assert (Hbase : Forall (stored_entry master_data)
                    [("flow_attention"%string, flow); ("comovement"%string, co);
                     ("factor_side"%string, fs)]).
  { assert (Hp : forall key df,
              df_index df = df_index master_data ->
              key <> "crowding_index_all"%string ->
              ~ In key ["crowding_index_a"; "crowding_index_b";
                        "crowding_index_c"]%string ->
              stored_entry master_data (key, df)).
    { intros key df E H1 H2. unfold stored_entry. cbn [fst snd]. rewrite E.
      split; [exact Hnd|]. split; [intros t; reflexivity|]. split; [exact H1|].
      intros C. contradiction. }
    repeat (apply Forall_cons; [apply Hp; [assumption | discriminate |
                                           cbn [In]; intuition discriminate]|]).
    apply Forall_nil. }
  (* the three composites that may be stored *)
  rewrite snd_lbind in Hrun.
  match type of Hrun with
  | match snd ?m with Ok _ => _ | Raise _ => _ end = _ =>
      destruct (snd m) as [ra|e] eqn:Ea; [|discriminate]
  end.
  apply (@composite_step_stored self master_data _ _ flow _ _ Hbase) in Ea;
    [| rewrite Hflow; exact Hnd | intros t; rewrite Hflow; reflexivity | discriminate].
  rewrite snd_lbind in Hrun.
  match type of Hrun with
  | match snd ?m with Ok _ => _ | Raise _ => _ end = _ =>
      destruct (snd m) as [rb|e] eqn:Eb; [|discriminate]
  end.
  apply (@composite_step_stored self master_data _ _ co _ _ Ea) in Eb;
    [| rewrite Hco; exact Hnd | intros t; rewrite Hco; reflexivity | discriminate].
  rewrite snd_lbind in Hrun.
  match type of Hrun with
  | match snd ?m with Ok _ => _ | Raise _ => _ end = _ =>
      destruct (snd m) as [rc|e] eqn:Ec; [|discriminate]
  end.
  apply (@composite_step_stored self master_data _ _ fs _ _ Eb) in Ec;
    [| rewrite Hfs; exact Hnd | intros t; rewrite Hfs; reflexivity | discriminate].
  (* the combined composite *)
  rewrite snd_lbind in Hrun.
  destruct (filter (fun df => negb (is_empty df)) (map snd rc)) as [|d0 ds] eqn:Epool.
  - cbn [lret snd] in Hrun. rewrite snd_lbind in Hrun. cbn [llog lret snd] in Hrun.
    inversion Hrun; subst rc. exfalso.
    rewrite Forall_forall in Ec.
    destruct (Ec ("crowding_index_all"%string, all)) as [_ [_ [Hk _]]].
    + apply in_or_app. right. now left.
    + now apply Hk.
  - rewrite snd_lbind in Hrun.
    destruct (build_composite_index self (d0 :: ds) true) as [l [c|e]] eqn:Eall;
      cbn [snd lret] in Hrun; [|discriminate].
    rewrite snd_lbind in Hrun. cbn [llog lret snd] in Hrun.
    inversion Hrun as [Hres]. apply app_inj_tail in Hres. destruct Hres as [<- Hall].
    inversion Hall; subst all; clear Hall Hrun.
    split.
    + intros key df Hin Hkey. rewrite Forall_forall in Ec.
      destruct (Ec (key, df) Hin) as [_ [_ [_ He]]]. now apply He.
    + exists c. split; [reflexivity|].
      assert (Hpool : Forall (fun d => NoDup (df_index d) /\
                                       forall t, In t (df_index d) <->
                                                 In t (df_index master_data))
                        (d0 :: ds)).
      { rewrite <- Epool. apply Forall_forall. intros d Hd.
        apply filter_In in Hd. destruct Hd as [Hd _].
        apply in_map_iff in Hd. destruct Hd as [[k d'] [E Hd]]. cbn [snd] in E.
        subst d'. rewrite Forall_forall in Ec.
        destruct (Ec (k, d) Hd) as [H1 [H2 _]]. split; assumption. }
      destruct (@composite_returned_values self (d0 :: ds) l c) as [_ [_ Hval]];
        [discriminate | | exact Eall |].
      { eapply Forall_impl; [|exact Hpool]. intros d [H _]. exact H. }
      intros t Ht. rewrite Epool. apply Hval.
      apply concat_index_in. exists d0. split; [now left|].
      inversion Hpool as [|? ? [_ Hd0] _]. now apply Hd0.
Qed.

Lemma crowding_index_all_pools_stored_tables_witness :
  exists log entries all composite,
    build_all_crowding_indices sample_sqrt sample_builder two_etf_table
    = (log, Ok (entries ++ [("crowding_index_all"%string, all)])) /\
    all = to_frame composite "CrowdingIndex_All" /\
    lookup 2%Z composite
    = nanmean (cells_at (filter (fun df => negb (is_empty df)) (map snd entries)) 2%Z).
Proof.
  assert (Hrun : exists log entries all,
            build_all_crowding_indices sample_sqrt sample_builder two_etf_table
            = (log, Ok (entries ++ [("crowding_index_all"%string, all)]))).
  { eexists _, [_; _; _; _], _. vm_compute. reflexivity. }
  destruct Hrun as [log [entries [all Hrun]]].
  destruct (@crowding_index_all_pools_stored_tables sample_sqrt sample_builder
              two_etf_table log entries all)
    as [_ [composite [Hall Hval]]].
  - simpl. lia.
  - simpl. lia.
  - repeat constructor.
  - repeat constructor; simpl; intuition discriminate.
  - repeat constructor; simpl; intuition discriminate.
  - exact Hrun.
  - exists log, entries, all, composite. split; [exact Hrun|]. split; [exact Hall|].
    apply Hval. simpl. auto.
Defined.

(** ** No data at all *)

Lemma is_empty_without (df : DataFrame) :
  df_index df = [] \/ df_columns df = [] -> is_empty df = true.
Proof.
  unfold is_empty. intros [-> | ->]; cbn [length Nat.eqb orb]; [reflexivity|].
  apply orb_true_r.
Qed.

Lemma lbind_eq {A B : Type} (m : logged A) (k : A -> logged B) l1 a l2 r :
  m = (l1, Ok a) -> k a = (l2, r) -> lbind m k = (l1 ++ l2, r).
Proof. intros -> H. unfold lbind. cbn [snd fst]. now rewrite H. Qed.

Lemma filter_nothing {A : Type} (f : A -> bool) (l : list A) :
  (forall x, In x l -> f x = false) -> filter f l = [].
Proof.
  induction l as [|h tl IH]; intros H; [reflexivity|].
  cbn [filter]. rewrite (H h) by now left. apply IH. intros x Hx. apply H. now right.
Qed.

(** X29.  Without data nothing is built and nothing fails: when the
    master table has no row, or has no column ending in "_ret" or
    "_vol" and none of the four factor columns, the call logs the three
    "Insufficient ..." warnings and returns exactly the three proxies,
    each a table without columns on the rows of the master table; no
    composite is stored. *)
Theorem build_all_without_data (Qsqrt : Q -> Q) (self : builder)
    (master_data : DataFrame) :
  df_index master_data = [] \/
  (forall col, In col (columns master_data) ->
     endswith col "_ret" = false /\ endswith col "_vol" = false /\
     ~ In col factor_cols) ->
  build_all_crowding_indices Qsqrt self master_data
  = ([(INFO, "Building all crowding indices..."%string);
      (WARNING, "Insufficient ETF data for flow-attention proxy"%string);
      (WARNING, "Insufficient ETF data for co-movement proxy"%string);
      (WARNING, "Insufficient factor data for factor-side proxy"%string);
      (INFO, "All crowding indices built successfully"%string)],
     Ok [("flow_attention"%string, empty_frame (df_index master_data));
         ("comovement"%string, empty_frame (df_index master_data));
         ("factor_side"%string, empty_frame (df_index master_data))]).
Proof.
  intros Hnone. unfold build_all_crowding_indices.
  destruct (@select_columns_ok master_data
              (filter (fun col => endswith col "_ret") (columns master_data)))
    as [rcols Hrsel].
  { intros n Hn. apply filter_In in Hn. tauto. }
  destruct (@select_columns_ok master_data
              (filter (fun col => endswith col "_vol") (columns master_data)))
    as [vcols Hvsel].
  { intros n Hn. apply filter_In in Hn. tauto. }
  destruct (@select_columns_ok master_data
              (filter (fun col => existsb (String.eqb col) (columns master_data))
                      factor_cols))
    as [fcols Hfsel].
  { intros n Hn. apply filter_In in Hn. destruct Hn as [_ Hn].
    now apply existsb_eqb_in in Hn. }
  assert (Hr : is_empty {| df_index := df_index master_data; df_columns := rcols |}
               = true).
  { apply is_empty_without. cbn [df_index df_columns].
    destruct Hnone as [H | H]; [now left | right].
    rewrite filter_nothing in Hrsel by (intros x Hx; now apply H).
    cbn in Hrsel. now inversion Hrsel. }
  assert (Hf : is_empty {| df_index := df_index master_data; df_columns := fcols |}
               = true).
  { apply is_empty_without. cbn [df_index df_columns].
    destruct Hnone as [H | H]; [now left | right].
    rewrite filter_nothing in Hfsel.
    - cbn in Hfsel. now inversion Hfsel.
    - intros x Hx. apply not_true_is_false. intros C.
      apply existsb_eqb_in in C. now apply (H x C). }
  assert (He : is_empty (empty_frame (df_index master_data)) = true)
    by (apply is_empty_without; now right).
  assert (Hrun : exists log,
            build_all_crowding_indices Qsqrt self master_data
            = (log, Ok [("flow_attention"%string, empty_frame (df_index master_data));
                        ("comovement"%string, empty_frame (df_index master_data));
                        ("factor_side"%string, empty_frame (df_index master_data))]) /\
            log = [(INFO, "Building all crowding indices..."%string);
                   (WARNING, "Insufficient ETF data for flow-attention proxy"%string);
                   (WARNING, "Insufficient ETF data for co-movement proxy"%string);
                   (WARNING, "Insufficient factor data for factor-side proxy"%string);
                   (INFO, "All crowding indices built successfully"%string)]).
  { eexists. split.
    - unfold build_all_crowding_indices, getitem_list.
      rewrite Hrsel, Hvsel, Hfsel. cbn [rbind].
      eapply lbind_eq; [reflexivity|]. cbv beta.
      eapply lbind_eq; [reflexivity|]. cbv beta.
      eapply lbind_eq; [reflexivity|]. cbv beta.
      eapply lbind_eq; [reflexivity|]. cbv beta.
      rewrite Hr, Hf. cbn [negb andb].
      eapply lbind_eq; [eapply lbind_eq; reflexivity|]. cbv beta.
      eapply lbind_eq; [eapply lbind_eq; reflexivity|]. cbv beta.
      eapply lbind_eq; [eapply lbind_eq; reflexivity|]. cbv beta.
      rewrite He. cbn [negb].
      eapply lbind_eq; [reflexivity|]. cbv beta.
      eapply lbind_eq; [reflexivity|]. cbv beta.
      eapply lbind_eq; [reflexivity|]. cbv beta.
      cbn [map snd filter]. rewrite He. cbn [negb].
      eapply lbind_eq; [reflexivity|]. cbv beta.
      eapply lbind_eq; [reflexivity|]. cbv beta.
      reflexivity.
    - reflexivity. }
  destruct Hrun as [log [Hrun ->]]. exact Hrun.
Qed.

Lemma build_all_without_data_witness :
  exists log,
    build_all_crowding_indices sample_sqrt sample_builder
      {| df_index := [1%Z; 2%Z];
         df_columns := [("VIX"%string, [Fin 20; Fin 21])] |}
    = (log, Ok [("flow_attention"%string, empty_frame [1%Z; 2%Z]);
                ("comovement"%string, empty_frame [1%Z; 2%Z]);
                ("factor_side"%string, empty_frame [1%Z; 2%Z])]).
Proof.
  eexists. apply (@build_all_without_data sample_sqrt sample_builder).
  right. intros col [<- | []]. repeat split; try reflexivity.
  unfold factor_cols. simpl. intuition discriminate.
Defined.

(* ================================================================== *)
(** * Further facts: the drawdown analysis of all factors *)

Lemma dict_set_keys {V : Type} (key : string) (v : V) (d : list (string * V)) :
  ~ In key (map fst d) -> map fst (dict_set key v d) = map fst d ++ [key].
Proof.
  induction d as [|[k v'] tl IH]; cbn [dict_set map fst app In]; intros H;
    [reflexivity|].
  destruct (String.eqb_spec k key) as [-> | Hne]; [tauto|].
  cbn [map fst]. rewrite IH by tauto. reflexivity.
Qed.

Lemma historical_flags_ok (self : t) (returns : Series) (window : Z) (p : Q) :
  crash_percentile self = Fin p -> 0 <= p -> p <= 100 -> (1 <= window)%Z ->
  exists flags, identify_crash_events self returns window "historical" = Ok flags.
Proof.
  intros Hp H0 H1 Hw.
  destruct (period_returns_of_ok returns Hw) as [period [Hperiod _]].
  destruct (valid_crash_quantile H0 H1) as [Hvalid _].
  unfold identify_crash_events. rewrite Hperiod, Hp. cbn [rbind].
  change (String.eqb "historical" "historical") with true. cbv iota.
  unfold series_quantile. rewrite Hvalid.
  destruct (dropna_values period); cbn [rbind]; eauto.
Qed.

Lemma historical_flags_rejected (self : t) (returns : Series) :
  ~ (exists p, crash_percentile self = Fin p /\ 0 <= p /\ p <= 100) ->
  exists msg,
    identify_crash_events self returns 1 "historical" = Raise (ValueError msg).
Proof.
  intros H. unfold identify_crash_events, period_returns_of.
  change (1 =? 1)%Z with true. cbn [rbind].
  change (String.eqb "historical" "historical") with true. cbv iota.
  unfold series_quantile. rewrite (invalid_quantile H). cbn [rbind]. eauto.
Qed.

Lemma analyze_loop_ok (self : t) (factor_returns : DataFrame) (p : Q)
    (factors : list string) (results : list (string * factor_analysis)) :
  crash_percentile self = Fin p -> 0 <= p -> p <= 100 ->
  well_formed factor_returns ->
  (forall f, In f factors -> In f (columns factor_returns)) ->
  NoDup (map fst results ++ factors) ->
  exists results',
    analyze_loop self factor_returns factors results = Ok results' /\
    map fst results' = map fst results ++ factors.
Proof.
  intros Hp H0 H1 Hwf. revert results.
  induction factors as [|factor tl IH]; intros results Hsub Hnd.
  - exists results. split; [reflexivity | now rewrite app_nil_r].
  - cbn [analyze_loop].
    destruct (@getitem_ok factor_returns factor Hwf (Hsub _ (or_introl eq_refl)))
      as [ret [-> _]]. cbn [rbind].
    destruct (@historical_flags_ok self ret 1 p Hp H0 H1) as [daily ->]; [lia|].
    cbn [rbind].
    destruct (@historical_flags_ok self ret 5 p Hp H0 H1) as [weekly ->]; [lia|].
    cbn [rbind].
    destruct (compute_drawdown_episodes_characterised self ret) as [eps [-> _]].
    cbn [rbind].
    set (entry := {| drawdown_series := compute_drawdown ret;
                     daily_crashes := daily; weekly_crashes := weekly;
                     episodes_found := eps;
                     max_drawdown := compute_max_drawdown ret |}).
    assert (Hfresh : ~ In factor (map fst results)).
    { intros C. apply NoDup_remove_2 in Hnd. apply Hnd.
      apply in_or_app. now left. }
    destruct (IH (dict_set factor entry results)) as [results' [-> Hkeys]].
    + intros f Hf. apply Hsub. now right.
    + rewrite (@dict_set_keys _ factor entry results Hfresh), <- app_assoc. exact Hnd.
    + exists results'. split; [reflexivity|].
      now rewrite Hkeys, (@dict_set_keys _ factor entry results Hfresh), <- app_assoc.
Qed.

(** X30.  The analysis of all factors succeeds or fails with the crash
    percentile alone.  On a well-formed table with uniquely named
    columns: when the crash percentile lies in [0, 100] the call returns
    one entry per column, keyed by the column names in their order; when
    it is NaN, infinite, -1 or less, or above 100 and there is at least
    one column, the call raises ValueError at the first column and
    returns nothing. *)
Theorem analysis_fails_only_on_percentile (self : t) (factor_returns : DataFrame) :
  well_formed factor_returns -> NoDup (columns factor_returns) ->
  ((exists p, crash_percentile self = Fin p /\ 0 <= p /\ p <= 100) ->
   exists results,
     analyze_factor_drawdowns self factor_returns = Ok results /\
     map fst results = columns factor_returns) /\
  (crash_percentile self = NaN \/ percentile_out_of_range (crash_percentile self) ->
   columns factor_returns <> [] ->
   exists msg, analyze_factor_drawdowns self factor_returns = Raise (ValueError msg)).
Proof.
  intros Hwf Hnd. split.
  - intros [p [Hp [H0 H1]]]. unfold analyze_factor_drawdowns.
    destruct (@analyze_loop_ok self factor_returns p (columns factor_returns) []
                Hp H0 H1 Hwf) as [results [Hrun Hkeys]]; auto.
    exists results. split; [exact Hrun | exact Hkeys].
  - intros Hout Hne. pose proof (out_of_range_invalid Hout) as Hbad.
    unfold analyze_factor_drawdowns.
    destruct (columns factor_returns) as [|factor tl] eqn:Ecols; [congruence|].
    cbn [analyze_loop].
    destruct (@getitem_ok factor_returns factor Hwf) as [ret [-> _]].
    { rewrite Ecols. now left. }
    cbn [rbind].
    destruct (@historical_flags_rejected self ret Hbad) as [msg ->].
    cbn [rbind]. eauto.
Qed.

Lemma analysis_fails_only_on_percentile_witness :
  (exists results,
     analyze_factor_drawdowns sample_analyzer factor_table = Ok results /\
     map fst results = ["Mom"; "RF"]%string) /\
  exists msg,
    analyze_factor_drawdowns {| crash_percentile := Fin 150;
                                drawdown_threshold := Fin 5 |} factor_table
    = Raise (ValueError msg).
Proof.
  split.
  - apply (proj1 (@analysis_fails_only_on_percentile sample_analyzer factor_table
                    ltac:(repeat constructor)
                    ltac:(repeat constructor; simpl; intuition discriminate))).
    eexists. split; [reflexivity|]. split; discriminate.
  - apply (proj2 (@analysis_fails_only_on_percentile
                    {| crash_percentile := Fin 150; drawdown_threshold := Fin 5 |}
                    factor_table
                    ltac:(repeat constructor)
                    ltac:(repeat constructor; simpl; intuition discriminate))).
    + right. right. right. exists 150. split; [reflexivity|]. right. reflexivity.
    + discriminate.
Defined.
